(** * pgmpy: ConstraintBasedEstimator (PC algorithm)

    A shallow embedding of [pgmpy/estimators/ConstraintBasedEstimator.py]:
    the chi-square conditional independence test, the skeleton search and the
    orientation of the skeleton into a DAG pattern.

    Python exceptions are values of [result]; loops whose length is not known
    in advance run on fuel and answer [None] when the fuel is used up. *)

From Stdlib Require Import PrimFloat Uint63 ZArith FloatOps FloatAxioms SpecFloat.
From stdpp Require Import gmap strings list fin_maps.

Set Default Proof Using "Type".
Set Warnings "-clear-no-such-hyp".

(** ** Exceptions *)

Inductive exn : Type :=
| KeyError        (* subscript of a dict, or label of a table, that is absent *)
| ValueError      (* tuple unpacking of a sequence of the wrong length;
                     pandas: a level name that occurs more than once *)
| AttributeError  (* call of a method the object does not have *)
| NameError       (* use of a name that is not bound *)
| NetworkXError.  (* networkx: a node that is not in the graph *)

Inductive result (A : Type) : Type :=
| Ok (a : A)
| Raise (e : exn).
Arguments Ok {A} a.
Arguments Raise {A} e.

#[global] Instance result_ret : MRet result := fun A a => Ok a.
#[global] Instance result_bind : MBind result := fun A B f r =>
  match r with
  | Ok a => f a
  | Raise e => Raise e
  end.

(** [for x in xs: body] over a list, the loop variables threaded as [s]. *)
Fixpoint for_each {A S : Type} (body : A -> S -> result S) (xs : list A) (s : S)
  : result S :=
  match xs with
  | [] => Ok s
  | x :: xs' => s' ← body x s; for_each body xs' s'
  end.

(** [for x in it: body] over an iterator object [it], given by the items it
    has not produced yet.  The loop takes every item, so the iterator it
    leaves behind is exhausted. *)
Fixpoint for_iter {A S : Type} (body : A -> S -> result S) (it : list A) (s : S)
  : result (S * list A) :=
  match it with
  | [] => Ok (s, [])
  | x :: it' => s' ← body x s; for_iter body it' s'
  end.

(** ** itertools.combinations *)

Fixpoint combinations {A : Type} (l : list A) (k : nat) : list (list A) :=
  match l with
  | [] => match k with 0 => [[]] | S _ => [] end
  | x :: l' =>
      match k with
      | 0 => [[]]
      | S k' => map (cons x) (combinations l' k') ++ combinations l' (S k')
      end
  end.

(** The unpacking [for X, Y in combinations(..., 2)]. *)
Definition as_pair {A : Type} (t : list A) : option (A * A) :=
  match t with
  | [a; b] => Some (a, b)
  | _ => None
  end.

Definition combinations2 {A : Type} (l : list A) : list (A * A) :=
  omap as_pair (combinations l 2).

(** ** Graphs *)

Section Graphs.
Context {node : Type} `{Countable node}.

(** Modelled from the spec: [pgmpy.base.UndirectedGraph], the undirected
    graph capability of the skeleton (nodes are the variables, edges are
    undirected adjacencies, with edge removal, edge query and neighbour
    enumeration), which is a [networkx.Graph].  An edge {u,v} is held as
    both (u,v) and (v,u); the neighbours of a node are listed in the order
    of the node list. *)
Record UndirectedGraph : Type := {
  ug_nodes : list node;
  ug_adj : gset (node * node)
}.

Definition both_ways (e : node * node) : list (node * node) :=
  [(e.1, e.2); (e.2, e.1)].

Definition empty_graph : UndirectedGraph := {| ug_nodes := []; ug_adj := ∅ |}.

(** A graph made from edges has the ends of its edges as nodes, and no
    other: an edge adds its two ends, each after the nodes there are, unless
    it is one of them. *)
Definition add_node (g : UndirectedGraph) (n : node) : UndirectedGraph :=
  if decide (n ∈ ug_nodes g) then g
  else {| ug_nodes := ug_nodes g ++ [n]; ug_adj := ug_adj g |}.

Definition add_edge (g : UndirectedGraph) (e : node * node) : UndirectedGraph :=
  let g' := add_node (add_node g e.1) e.2 in
  {| ug_nodes := ug_nodes g'; ug_adj := ug_adj g' ∪ list_to_set (both_ways e) |}.

(** [UndirectedGraph(ebunch)] *)
Definition graph_of_edges (ebunch : list (node * node)) : UndirectedGraph :=
  foldl add_edge empty_graph ebunch.

(** [UndirectedGraph(combinations(nodes, 2))]: the graph of the pairs.  A
    single variable makes no pair, and is then no node of the graph. *)
Definition complete_graph (nodes : list node) : UndirectedGraph :=
  graph_of_edges (combinations2 nodes).

(** The neighbours that a node of the graph has. *)
Definition neighbors (g : UndirectedGraph) (n : node) : list node :=
  filter (fun m => (n, m) ∈ ug_adj g) (ug_nodes g).

(** [graph.neighbors(n)], a list; networkx raises [NetworkXError] for an
    [n] that is not a node of the graph. *)
Definition graph_neighbors (g : UndirectedGraph) (n : node) : result (list node) :=
  if decide (n ∈ ug_nodes g) then Ok (neighbors g n) else Raise NetworkXError.

Definition has_edge (g : UndirectedGraph) (u v : node) : bool :=
  bool_decide ((u, v) ∈ ug_adj g).

Definition remove_edge (g : UndirectedGraph) (u v : node) : UndirectedGraph :=
  {| ug_nodes := ug_nodes g;
     ug_adj := ug_adj g ∖ {[ (u, v); (v, u) ]} |}.

(** Modelled from the spec: [pgmpy.base.DirectedGraph], the PDAG capability
    (directed edges, a bidirected pair being both directions, successor and
    predecessor queries, removal of directed edges). *)
Record DirectedGraph : Type := {
  dg_nodes : list node;
  dg_edges : gset (node * node)
}.

(** [skel.to_directed()]: every undirected edge becomes both directions. *)
Definition to_directed (g : UndirectedGraph) : DirectedGraph :=
  {| dg_nodes := ug_nodes g; dg_edges := ug_adj g |}.

Definition dg_has_edge (d : DirectedGraph) (u v : node) : bool :=
  bool_decide ((u, v) ∈ dg_edges d).

Definition successors (d : DirectedGraph) (n : node) : list node :=
  filter (fun m => (n, m) ∈ dg_edges d) (dg_nodes d).

Definition predecessors (d : DirectedGraph) (n : node) : list node :=
  filter (fun m => (m, n) ∈ dg_edges d) (dg_nodes d).

Definition number_of_edges (d : DirectedGraph) : nat := size (dg_edges d).

(** [pdag.remove_edges_from(ebunch)]: edges that are absent are skipped. *)
Definition remove_edges_from (d : DirectedGraph) (ebunch : list (node * node))
  : DirectedGraph :=
  {| dg_nodes := dg_nodes d; dg_edges := dg_edges d ∖ list_to_set ebunch |}.

End Graphs.
Arguments UndirectedGraph node {_ _}.
Arguments DirectedGraph node {_ _}.

(** ** The PC algorithm: [estimate_skeleton] and [estimate] *)

(** What the skeleton search did, in order: each call of
    [test_conditional_independence], and each execution of lines 214-215
    (the separating set recorded and the edge removed).  The number is
    [lim_neighbors] at that time. *)
Inductive event (node : Type) : Type :=
| Tested (k : nat) (n m : node) (s : list node)
| Recorded (k : nat) (n m : node) (s : list node).
Arguments Tested {node} k n m s.
Arguments Recorded {node} k n m s.

Section PC.
Context {node : Type} `{Countable node}.

(** [self.state_names.keys()]: the variables, in the order of the dict. *)
Variable nodes : list node.
(** [self.test_conditional_independence(X, Y, Zs)]: a p-value or an
    exception. *)
Variable oracle : node -> node -> list node -> result float.
(** The threshold [p_value]. *)
Variable p_value : float.
(** The order in which a Python [set] built from the given elements is
    iterated; the language does not fix it. *)
Variable set_order : list node -> list node.

(** [set(a) - set(b)] and [set(a) & set(b)], as they are iterated. *)
Definition set_difference (a b : list node) : list node :=
  set_order (list_difference (remove_dups a) b).
Definition set_intersection (a b : list node) : list node :=
  set_order (list_intersection (remove_dups a) b).

(** [frozenset((X, Y))] *)
Definition frozenset2 (X Y : node) : gset node := {[ X; Y ]}.

Definition event_pair (e : event node) : gset node :=
  match e with
  | Tested _ n m _ => frozenset2 n m
  | Recorded _ n m _ => frozenset2 n m
  end.

Record skeleton_state : Type := {
  graph : UndirectedGraph node;
  seperating_sets : gmap (gset node) (list node);
  trace : list (event node)
}.

(** Lines 211-216, the [for seperating_set in combinations(...)] loop with
    its [break]: the first candidate whose p-value reaches the threshold. *)
Fixpoint search_separating_set (lim_neighbors : nat) (n m : node)
    (cands : list (list node)) (tr : list (event node))
  : result (option (list node) * list (event node)) :=
  match cands with
  | [] => Ok (None, tr)
  | s :: rest =>
      p ← oracle n m s;
      if (p_value <=? p)%float
      then Ok (Some s, tr ++ [Tested lim_neighbors n m s])
      else search_separating_set lim_neighbors n m rest
             (tr ++ [Tested lim_neighbors n m s])
  end.

(** The body of [for neighbor in graph.neighbors(node)].  It runs for a
    [node] whose neighbours line 208 has listed, and for a [neighbor] of
    that list, whose edge is still there: [graph.neighbors(node)] of line
    211 and [graph.remove_edge] of line 215 find their node and edge. *)
Definition try_neighbor (lim_neighbors : nat) (n m : node) (st : skeleton_state)
  : result skeleton_state :=
  let g := graph st in
  r ← search_separating_set lim_neighbors n m
         (combinations (set_difference (neighbors g n) [m]) lim_neighbors) (trace st);
  match r.1 with
  | Some s =>
      Ok {| graph := remove_edge g n m;
            seperating_sets := <[ frozenset2 n m := s ]> (seperating_sets st);
            trace := r.2 ++ [Recorded lim_neighbors n m s] |}
  | None =>
      Ok {| graph := g; seperating_sets := seperating_sets st; trace := r.2 |}
  end.

(** The body of [for node in nodes].  [graph.neighbors(node)] is a list
    (the loop condition takes its [len]), made when the inner loop starts:
    the edges removed meanwhile do not change what the loop runs over. *)
Definition visit_node (lim_neighbors : nat) (n : node) (st : skeleton_state)
  : result skeleton_state :=
  ms ← graph_neighbors (graph st) n;
  for_each (try_neighbor lim_neighbors n) ms st.

(** One pass of the [while] body, before [lim_neighbors += 1]. *)
Definition skeleton_round (lim_neighbors : nat) (st : skeleton_state)
  : result skeleton_state :=
  for_each (visit_node lim_neighbors) nodes st.

(** [[len(graph.neighbors(node)) < lim_neighbors for node in nodes]], the
    list that line 206 builds, one call of [graph.neighbors] for each
    variable. *)
Fixpoint degree_checks (lim_neighbors : nat) (g : UndirectedGraph node)
    (ns : list node) : result (list bool) :=
  match ns with
  | [] => Ok []
  | n :: ns' =>
      ms ← graph_neighbors g n;
      bs ← degree_checks lim_neighbors g ns';
      Ok ((length ms <? lim_neighbors) :: bs)
  end.

(** [all([len(graph.neighbors(node)) < lim_neighbors for node in nodes])] *)
Definition all_degrees_below (lim_neighbors : nat) (g : UndirectedGraph node)
  : result bool :=
  bs ← degree_checks lim_neighbors g nodes;
  Ok (forallb id bs).

(** Every variable has fewer than [lim_neighbors] neighbours: what
    [all_degrees_below] gives when the variables are nodes of the graph. *)
Definition degrees_below (lim_neighbors : nat) (g : UndirectedGraph node) : bool :=
  forallb (fun n => length (neighbors g n) <? lim_neighbors) nodes.

(** The [while] loop of [estimate_skeleton], entered with the current
    [lim_neighbors]. *)
Fixpoint skeleton_loop (fuel : nat) (lim_neighbors : nat) (st : skeleton_state)
  : option (result (skeleton_state * nat)) :=
  match all_degrees_below lim_neighbors (graph st) with
  | Raise e => Some (Raise e)
  | Ok true => Some (Ok (st, lim_neighbors))
  | Ok false =>
      match fuel with
      | 0 => None
      | S fuel' =>
          match skeleton_round lim_neighbors st with
          | Raise e => Some (Raise e)
          | Ok st' => skeleton_loop fuel' (S lim_neighbors) st'
          end
      end
  end.

Definition skeleton_init : skeleton_state :=
  {| graph := complete_graph nodes; seperating_sets := ∅; trace := [] |}.

(** [estimate_skeleton] with the final [lim_neighbors] and the trace. *)
Definition estimate_skeleton_run (fuel : nat)
  : option (result (skeleton_state * nat)) :=
  skeleton_loop fuel 0 skeleton_init.

Definition estimate_skeleton (fuel : nat)
  : option (result (UndirectedGraph node * gmap (gset node) (list node))) :=
  match estimate_skeleton_run fuel with
  | None => None
  | Some (Raise e) => Some (Raise e)
  | Some (Ok (st, _)) => Some (Ok (graph st, seperating_sets st))
  end.

(** The state when round [j] of the [while] body would start, the loop
    condition left aside. *)
Fixpoint state_at_round (j : nat) : result skeleton_state :=
  match j with
  | 0 => Ok skeleton_init
  | S j' => st ← state_at_round j'; skeleton_round j' st
  end.

(** *** What the skeleton search maintains *)

(** The test of [n], [m] given [s] returns a p-value that reaches, or does
    not reach, the threshold. *)
Definition passes (n m : node) (s : list node) : Prop :=
  exists p, oracle n m s = Ok p /\ (p_value <=? p)%float = true.
Definition fails (n m : node) (s : list node) : Prop :=
  exists p, oracle n m s = Ok p /\ (p_value <=? p)%float = false.

Definition is_recorded (e : event node) : Prop :=
  match e with
  | Recorded _ _ _ _ => True
  | Tested _ _ _ _ => False
  end.

(** In the graph [g], with [lim_neighbors = k], the set [s] is the first
    candidate for [n], [m] whose test passes, and the trace [tr] ends with
    the tests of the candidates up to [s]. *)
Definition first_passing (g : UndirectedGraph node) (k : nat) (n m : node)
    (s : list node) (tr : list (event node)) : Prop :=
  exists pre post l0,
    combinations (set_difference (neighbors g n) [m]) k = pre ++ s :: post
    /\ Forall (fails n m) pre
    /\ passes n m s
    /\ tr = l0 ++ map (Tested k n m) pre ++ [Tested k n m s].

Record skeleton_inv (st : skeleton_state) : Prop := {
  inv_nodes : ug_nodes (graph st) = nodes;
  inv_sub : ug_adj (graph st) ⊆ ug_adj (complete_graph nodes);
  inv_sym : forall u v,
    (u, v) ∈ ug_adj (graph st) -> (v, u) ∈ ug_adj (graph st);
  inv_keys : forall u v,
    (u, v) ∈ ug_adj (complete_graph nodes) ->
    ((u, v) ∉ ug_adj (graph st) <-> is_Some (seperating_sets st !! frozenset2 u v));
  inv_dom : forall key s,
    seperating_sets st !! key = Some s ->
    exists k n m, key = frozenset2 n m /\ Recorded k n m s ∈ trace st;
  inv_recorded : forall l1 l2 k n m s,
    trace st = l1 ++ Recorded k n m s :: l2 ->
    ((n, m) ∉ ug_adj (graph st))
    /\ (seperating_sets st !! frozenset2 n m = Some s)
    /\ (forall e, e ∈ l2 -> event_pair e ≠ frozenset2 n m)
    /\ (exists g, ug_nodes g = nodes
                  /\ ug_adj (graph st) ⊆ ug_adj g
                  /\ ug_adj g ⊆ ug_adj (complete_graph nodes)
                  /\ (n, m) ∈ ug_adj g
                  /\ first_passing g k n m s l1)
}.

(** *** Orientation *)

(** [pdag.remove(u, v)], a method that neither networkx nor this file
    defines, and [nx.all_simple_paths(pdag, X, Y)], with the paths as the
    loop [for src, dst in path] reads them. *)
Variable pdag_remove : DirectedGraph node -> node -> node -> result (DirectedGraph node).
Variable all_simple_paths :
  DirectedGraph node -> node -> node -> result (list (list (node * node))).

(** [seperating_sets[key]] *)
Definition getitem (seps : gmap (gset node) (list node)) (key : gset node)
  : result (list node) :=
  match seps !! key with
  | Some s => Ok s
  | None => Raise KeyError
  end.

(** Lines 99-103, the body of the first [for X, Y in node_pairs]. *)
Definition collider_body (skel : UndirectedGraph node)
    (seps : gmap (gset node) (list node)) (XY : node * node)
    (pdag : DirectedGraph node) : result (DirectedGraph node) :=
  let '(X, Y) := XY in
  if has_edge skel X Y then Ok pdag
  else
    ms ← graph_neighbors skel X;
    ms' ← graph_neighbors skel X;
    for_each
      (fun Z pdag =>
         s ← getitem seps (frozenset2 X Y);
         if bool_decide (Z ∈ s) then Ok pdag
         else Ok (remove_edges_from pdag [(Z, X); (Z, Y)]))
      (set_intersection ms ms') pdag.

(** Lines 110-113. *)
Definition rule2_body (XY : node * node) (pdag : DirectedGraph node)
  : result (DirectedGraph node) :=
  let '(X, Y) := XY in
  for_each (fun Z pdag => pdag_remove pdag Y Z)
    (set_order
       (list_intersection
          (list_difference (remove_dups (successors pdag X)) (predecessors pdag X))
          (list_intersection (remove_dups (successors pdag Y)) (predecessors pdag Y))))
    pdag.

(** Lines 117-124, the loop over the paths with its [break]. *)
Fixpoint rule3_paths (X Y : node) (paths : list (list (node * node)))
    (pdag : DirectedGraph node) : result (DirectedGraph node) :=
  match paths with
  | [] => Ok pdag
  | path :: rest =>
      let is_directed :=
        forallb (fun sd : node * node => negb (dg_has_edge pdag sd.2 sd.1)) path in
      if is_directed then pdag_remove pdag Y X
      else rule3_paths X Y rest pdag
  end.

Definition rule3_body (XY : node * node) (pdag : DirectedGraph node)
  : result (DirectedGraph node) :=
  let '(X, Y) := XY in
  paths ← all_simple_paths pdag X Y;
  rule3_paths X Y paths pdag.

(** Lines 127-133. *)
Definition rule4_body (XY : node * node) (pdag : DirectedGraph node)
  : result (DirectedGraph node) :=
  let '(X, Y) := XY in
  for_each
    (fun Z pdag =>
       for_each (fun W pdag => pdag_remove pdag W Z)
         (set_order
            (list_intersection
               (list_intersection
                  (list_difference (remove_dups (successors pdag X)) (predecessors pdag X))
                  (list_difference (remove_dups (successors pdag Y)) (predecessors pdag Y)))
               (list_intersection (remove_dups (successors pdag Z)) (predecessors pdag Z))))
         pdag)
    (set_order
       (list_intersection
          (list_intersection
             (list_intersection (remove_dups (successors pdag X)) (predecessors pdag X))
             (successors pdag Y))
          (predecessors pdag Y)))
    pdag.

(** The collider step on the pair [XY] takes the edge [e] away: the pair
    is not adjacent, [e] leaves a neighbour of the first node that is not
    in the separating set of the pair, and [e] enters one of the two. *)
Definition collider_removes (skel : UndirectedGraph node)
    (seps : gmap (gset node) (list node)) (XY e : node * node) : Prop :=
  has_edge skel XY.1 XY.2 = false
  /\ e.1 ∈ neighbors skel XY.1
  /\ (e.2 = XY.1 \/ e.2 = XY.2)
  /\ exists s, seps !! frozenset2 XY.1 XY.2 = Some s /\ e.1 ∉ s.

(** One pass of the body of [while progress], on the PDAG and the iterator
    [node_pairs] the three loops share. *)
Definition orientation_pass (pdag : DirectedGraph node) (it : list (node * node))
  : result (DirectedGraph node * list (node * node)) :=
  r2 ← for_iter rule2_body it pdag;
  r3 ← for_iter rule3_body r2.2 r2.1;
  for_iter rule4_body r3.2 r3.1.

(** [while progress], which starts with [progress = True]. *)
Fixpoint orientation_loop (fuel : nat) (pdag : DirectedGraph node)
    (it : list (node * node)) : option (result (DirectedGraph node)) :=
  match fuel with
  | 0 => None
  | S fuel' =>
      let num_edges := number_of_edges pdag in
      match orientation_pass pdag it with
      | Raise e => Some (Raise e)
      | Ok (pdag', it') =>
          if number_of_edges pdag' <? num_edges
          then orientation_loop fuel' pdag' it'
          else Some (Ok pdag')
      end
  end.

(** Lines 94-103: the bidirected skeleton and the collider step, which is
    the first loop over the iterator [node_pairs]. *)
Definition collider_step (skel : UndirectedGraph node)
    (seps : gmap (gset node) (list node))
  : result (DirectedGraph node * list (node * node)) :=
  let pdag := to_directed skel in
  let node_pairs := combinations2 (dg_nodes pdag) in
  for_iter (collider_body skel seps) node_pairs pdag.

(** [orient]: lines 94-137 of [estimate]. *)
Definition orient (fuel : nat) (skel : UndirectedGraph node)
    (seps : gmap (gset node) (list node)) : option (result (DirectedGraph node)) :=
  match collider_step skel seps with
  | Raise e => Some (Raise e)
  | Ok (pdag, node_pairs) => orientation_loop fuel pdag node_pairs
  end.

(** [estimate]; the fuel bounds the rounds of the skeleton search and the
    passes of [while progress]. *)
Definition estimate (fuel : nat) : option (result (DirectedGraph node)) :=
  match estimate_skeleton fuel with
  | None => None
  | Some (Raise e) => Some (Raise e)
  | Some (Ok (skel, seps)) => orient fuel skel seps
  end.

End PC.
Arguments skeleton_state node {_ _}.

(** ** The chi-square test: [test_conditional_independence] *)

(** The argument [Zs] as the caller passes it: a frozenset, list, set or
    tuple (given by its elements in iteration order), or anything else. *)
Inductive zs_arg (var : Type) : Type :=
| Collection (l : list var)
| Single (v : var).
Arguments Collection {var} l.
Arguments Single {var} v.

(** A number as numpy holds it: an [int64], kept as the integer between
    -2^63 and 2^63 - 1 that it is, or a [float64]. *)
Inductive number : Type :=
| np_int64 (z : Z)
| np_float64 (f : float).

(** The integer of [int64] that an integer wraps around to. *)
Definition int64 (z : Z) : Z := ((z + 2 ^ 63) mod 2 ^ 64 - 2 ^ 63)%Z.

(** The product of [int64] numbers, as [np.prod] and [np.cumproduct]
    multiply them. *)
Definition int64_product (l : list Z) : Z :=
  foldl (fun a n => int64 (a * n)) 1%Z l.

(** [np.prod(l)] of a list of Python integers: the list becomes an array
    of [int64], and the empty list an array of [float64], whose product is
    1.0. *)
Definition np_prod (l : list Z) : number :=
  match l with
  | [] => np_float64 1%float
  | _ :: _ => np_int64 (int64_product l)
  end.

(** A Python integer as a [float64]: the nearest one, ties to even. *)
Definition float_of_int (z : Z) : float :=
  SF2Prim (binary_normalize prec emax z 0 false).

(** [a * x] for a Python integer [a], within [int64], and a numpy number
    [x]: the product is of the type of [x].  An [int64] product wraps
    around; numpy's own warning of that is not one of the warnings kept
    here. *)
Definition int_times (a : Z) (x : number) : number :=
  match x with
  | np_int64 z => np_int64 (int64 (a * z))
  | np_float64 f => np_float64 (float_of_int a * f)
  end.

(** The text of the warning of lines 288-289. *)
Record warning (var : Type) : Type := {
  w_X : var;
  w_Y : var;
  w_Zs : list var;
  w_recommended : number;
  w_present : nat
}.
Arguments w_X {var} w.
Arguments w_Y {var} w.
Arguments w_Zs {var} w.
Arguments w_recommended {var} w.
Arguments w_present {var} w.

(** A count as pandas holds it in a frequency table. *)
Definition of_count (n : nat) : float := PrimFloat.of_uint63 (Uint63.of_Z (Z.of_nat n)).

(** [pd.MultiIndex.from_product]: the first level varies slowest. *)
Fixpoint from_product {A : Type} (levels : list (list A)) : list (list A) :=
  match levels with
  | [] => [[]]
  | l :: levels' => x ← l; cons x <$> from_product levels'
  end.

Section Oracle.
Context {var value : Type} `{EqDecision var} `{EqDecision value}.

(** [self.data]: the rows; a cell holds a state or is missing. *)
Variable data : list (var -> option value).
(** [self.state_names]: the dict of the variables' state lists. *)
Variable state_names : list (var * list value).
(** [scipy.stats.chisquare(f_obs, f_exp)]: the statistic and its p-value. *)
Variable chisquare : list float -> list float -> float * float.

(** Lines 276-279. *)
Definition normalize_Zs (Zs : zs_arg var) : list var :=
  match Zs with
  | Collection l => l
  | Single v => [v]
  end.

(** [self.state_names[X]] *)
Fixpoint dict_get (d : list (var * list value)) (X : var) : result (list value) :=
  match d with
  | [] => Raise KeyError
  | (k, v) :: d' => if decide (k = X) then Ok v else dict_get d' X
  end.

Fixpoint dict_get_all (d : list (var * list value)) (Zs : list var)
  : result (list (list value)) :=
  match Zs with
  | [] => Ok []
  | Z :: Zs' => v ← dict_get d Z; vs ← dict_get_all d Zs'; Ok (v :: vs)
  end.

(** [[len(self.state_names[Z]) for Z in Zs]] *)
Definition sizes (dZs : list (list value)) : list Z :=
  map (fun d => Z.of_nat (length d)) dZs.

(** A bound of the number of columns of a table over any of the
    variables that have these state lists: the product of their sizes, a
    list with no state counting as one. *)
Definition table_bound (doms : list (list value)) : Z :=
  foldr Z.mul 1%Z (map (fun d => Z.max 1 (Z.of_nat (length d))) doms).

(** Lines 284-286: the product of two Python integers, times the number
    that [np.prod] gives. *)
Definition num_params (dX dY : list value) (dZs : list (list value)) : number :=
  int_times ((Z.of_nat (length dX) - 1) * (Z.of_nat (length dY) - 1))%Z
            (np_prod (sizes dZs)).

(** [n < x] for a Python integer [n] and a numpy number [x]; against a
    [float64] the integer is compared as a [float64]. *)
Definition less_than (n : nat) (x : number) : bool :=
  match x with
  | np_int64 z => (Z.of_nat n <? z)%Z
  | np_float64 f => (of_count n <? f)%float
  end.

(** Lines 287-289. *)
Definition sample_size_warning (X Y : var) (Zs : list var)
    (dX dY : list value) (dZs : list (list value)) : list (warning var) :=
  if less_than (length data) (num_params dX dY dZs)
  then [ {| w_X := X; w_Y := Y; w_Zs := Zs;
            w_recommended := num_params dX dY dZs;
            w_present := length data |} ]
  else [].

(** A cell of [pd.crosstab]: the rows of the data that hold exactly these
    states; a row with a missing value among them is not counted. *)
Definition row_matches (r : var -> option value) (vars : list var)
    (states : list value) : bool :=
  forallb (fun vs : var * value => bool_decide (r vs.1 = Some vs.2)) (zip vars states).

Definition crosstab (vars : list var) (states : list value) : nat :=
  length (filter (fun r => row_matches r vars states = true) data).

Definition sum_counts (l : list nat) : nat := foldr Nat.add 0 l.

(** The rows that the table of [vars] is counted from: those with a state
    for each of the variables. *)
Definition complete_samples (vars : list var) : nat :=
  length (filter (fun r => forallb (fun v => bool_decide (is_Some (r v))) vars = true)
                 data).

Section Tables.
Variables (X Y : var) (Zs : list var).
Variables (dX dY : list value) (dZs : list (list value)).

(** Lines 293-299: the table over the declared states, absent
    combinations filled with 0. *)
Definition XYZ_state_counts (x y : value) (zs : list value) : nat :=
  crosstab (X :: Y :: Zs) (x :: y :: zs).

(** Lines 303-309: the marginal counts, as these lines give them when
    they return ([marginal_levels] below has the case in which they raise).
    Without conditioning variables [zs] is the empty combination; the two
    branches of [if Zs] are the two shapes the tables then have. *)
Definition XZ_state_counts (x : value) (zs : list value) : nat :=
  sum_counts (map (fun y => XYZ_state_counts x y zs) dY).
Definition YZ_state_counts (y : value) (zs : list value) : nat :=
  sum_counts (map (fun x => XYZ_state_counts x y zs) dX).
Definition Z_state_counts (zs : list value) : nat :=
  sum_counts (map (fun y => YZ_state_counts y zs) dY).

(** Lines 311-322: the value that the loops give a cell, when they get to
    it ([fill_XYZ_expected] below has the lookups that raise before). *)
Definition XYZ_expected (x y : value) (zs : list value) : float :=
  (of_count (XZ_state_counts x zs) * of_count (YZ_state_counts y zs)
   / of_count (Z_state_counts zs))%float.

(** Lines 297-298, the columns of the table: [MultiIndex.from_product] of
    the state lists of Y and of Zs.  pandas multiplies the sizes of the
    lists as [int64] numbers and makes an index with no entry when the
    product is 0, which it also is when it has wrapped around to 0.  A
    product of sizes that leaves [int64] otherwise is outside the model. *)
Definition column_index : list (list value) :=
  if (int64_product (sizes (dY :: dZs)) =? 0)%Z then []
  else from_product (dY :: dZs).

(** Lines 303-305: with conditioning variables, [sum(axis=1, level=Zs)] and
    [unstack(Zs)] look the levels of Zs up by name among the names
    [[Y] + Zs] that line 298 gave the columns, and pandas raises
    [ValueError] for a name that occurs more than once there (a name that
    is not an integer). *)
Definition marginal_levels : result unit :=
  if bool_decide (NoDup (Y :: Zs)) then Ok tt else Raise ValueError.

(** [YZ_state_counts.loc[Y_val]], line 316: the table that [unstack] makes
    of the sums of the columns has a row for each state of Y that heads a
    column. *)
Definition YZ_loc (columns : list (list value)) (y : value) : result unit :=
  if bool_decide (Some y ∈ head <$> columns) then Ok tt else Raise KeyError.

(** Lines 311-322, the two loops that fill [XYZ_expected]: what they look
    up.  With conditioning variables the inner loop runs over
    [columns.levels[0]], the states of Y, whatever columns the table has;
    without, over the columns themselves, which label the sums of line
    308.  The rows of [XZ_state_counts] are those of the table. *)
Definition fill_XYZ_expected : result unit :=
  for_each
    (fun _ _ =>
       match Zs with
       | [] => Ok tt
       | _ :: _ => for_each (fun y _ => YZ_loc column_index y) dY tt
       end)
    dX tt.

(** Lines 324-325: both tables flattened row by row, side by side. *)
Definition cells : list (float * float) :=
  x ← dX; y ← dY;
  (fun zs => (of_count (XYZ_state_counts x y zs), XYZ_expected x y zs))
    <$> from_product dZs.

(** Line 328, the generator inside [zip]. *)
Definition retained : list (float * float) :=
  filter (fun oe : float * float => (oe.2 =? 0)%float = false) cells.

(** Lines 328-332: the unpacking of the transposed pairs into two tuples
    fails when nothing is retained. *)
Definition chisquare_of_retained : result float :=
  match retained with
  | [] => Raise ValueError
  | _ :: _ => Ok (chisquare (map fst retained) (map snd retained)).2
  end.

(** Lines 303-332. *)
Definition test_statistic : result float :=
  marginal_levels;; fill_XYZ_expected;; chisquare_of_retained.

End Tables.

Definition test_conditional_independence (X Y : var) (Zs : zs_arg var)
  : list (warning var) * result float :=
  let Zs := normalize_Zs Zs in
  match (dX ← dict_get state_names X;
         dY ← dict_get state_names Y;
         dZs ← dict_get_all state_names Zs;
         Ok (dX, dY, dZs)) with
  | Raise e => ([], Raise e)
  | Ok (dX, dY, dZs) =>
      (sample_size_warning X Y Zs dX dY dZs,
       test_statistic X Y Zs dX dY dZs)
  end.

End Oracle.

(** ** The estimator on a data set *)

Section Estimator.
Context {var value : Type} `{Countable var} `{EqDecision value}.
Variable data : list (var -> option value).
Variable state_names : list (var * list value).
Variable chisquare : list float -> list float -> float * float.
Variable set_order : list var -> list var.
Variable pdag_remove : DirectedGraph var -> var -> var -> result (DirectedGraph var).
Variable all_simple_paths :
  DirectedGraph var -> var -> var -> result (list (list (var * var))).

(** The test as [estimate_skeleton] calls it, with a tuple. *)
Definition data_oracle (X Y : var) (Zs : list var) : result float :=
  (test_conditional_independence data state_names chisquare X Y (Collection Zs)).2.

Definition ConstraintBasedEstimator_estimate_skeleton (p_value : float) (fuel : nat) :=
  estimate_skeleton (map fst state_names) data_oracle p_value set_order fuel.

Definition ConstraintBasedEstimator_estimate (p_value : float) (fuel : nat) :=
  estimate (map fst state_names) data_oracle p_value set_order
    pdag_remove all_simple_paths fuel.

End Estimator.

(** ** Inputs for the examples *)

Open Scope string_scope.

(** A test that answers from a list of independences (X, Y, Z): p-value 1
    for a listed triple, in either order of X and Y and any order of Z, and
    0 for any other. *)
Definition table_oracle (tbl : list (string * string * list string))
    (n m : string) (s : list string) : result float :=
  if existsb
       (fun t : string * string * list string =>
          (bool_decide (t.1.1 = n /\ t.1.2 = m) || bool_decide (t.1.1 = m /\ t.1.2 = n))
          && bool_decide (list_to_set t.2 =@{gset string} list_to_set s))
       tbl
  then Ok 1%float
  else Ok 0%float.

(** The default threshold, 0.05. *)
Definition default_p_value : float := 0x1.999999999999ap-5%float.

(** A set iterated in the order its elements were given. *)
Definition given_order (l : list string) : list string := l.

(** [pdag.remove] on a networkx graph, and [nx] without an import. *)
Definition no_remove (d : DirectedGraph string) (u v : string)
  : result (DirectedGraph string) := Raise AttributeError.
Definition no_paths (d : DirectedGraph string) (u v : string)
  : result (list (list (string * string))) := Raise NameError.

Definition run_estimate_skeleton (nodes : list string)
    (tbl : list (string * string * list string)) (fuel : nat) :=
  estimate_skeleton nodes (table_oracle tbl) default_p_value given_order fuel.

Definition run_estimate (nodes : list string)
    (tbl : list (string * string * list string)) (fuel : nat) :=
  estimate nodes (table_oracle tbl) default_p_value given_order
    no_remove no_paths fuel.

(** A and B independent, C depending on both. *)
Definition collider_nodes : list string := ["A"; "B"; "C"].
Definition collider_table : list (string * string * list string) :=
  [("A", "B", [])].

(** A chain W - X - Z - Y whose ends of each triple test independent with
    the empty set, so that both X and Z look like colliders. *)
Definition chain_nodes : list string := ["W"; "X"; "Z"; "Y"].
Definition chain_table : list (string * string * list string) :=
  [("W", "Z", []); ("W", "Y", []); ("X", "Y", [])].

(** A and C dependent, B independent of both. *)
Definition lonely_nodes : list string := ["A"; "B"; "C"].
Definition lonely_table : list (string * string * list string) :=
  [("A", "B", []); ("B", "C", [])].

(** The independences of the DAG A -> D, B -> C, B -> D, B -> E, C -> E,
    D -> E (its d-separations). *)
Definition dag_nodes : list string := ["A"; "B"; "C"; "D"; "E"].
Definition dag_table : list (string * string * list string) :=
  [("A", "B", []); ("A", "B", ["C"]);
   ("A", "C", []); ("A", "C", ["B"]); ("A", "C", ["B"; "D"]);
   ("A", "C", ["B"; "D"; "E"]);
   ("A", "E", ["B"; "D"]); ("A", "E", ["B"; "C"; "D"]);
   ("C", "D", ["B"]); ("C", "D", ["A"; "B"])].

(** Whether a run returned, what it raised, and what it returned ([d]
    otherwise). *)
Definition succeeded {A : Type} (r : option (result A)) : bool :=
  match r with
  | Some (Ok _) => true
  | _ => false
  end.
Definition raised {A : Type} (r : option (result A)) : option exn :=
  match r with
  | Some (Raise e) => Some e
  | _ => None
  end.
Definition returned {A : Type} (d : A) (r : option (result A)) : A :=
  match r with
  | Some (Ok a) => a
  | _ => d
  end.

(** A call returned a value. *)
Definition returns_value {A : Type} (r : result A) : bool :=
  match r with
  | Ok _ => true
  | Raise _ => false
  end.

Definition returned_skeleton
    (r : option (result (UndirectedGraph string * gmap (gset string) (list string))))
  : UndirectedGraph string :=
  (returned (complete_graph [], ∅) r).1.
Definition returned_seps
    (r : option (result (UndirectedGraph string * gmap (gset string) (list string))))
  : gmap (gset string) (list string) :=
  (returned (complete_graph [], ∅) r).2.
Definition returned_pdag (r : option (result (DirectedGraph string)))
  : DirectedGraph string :=
  returned (to_directed (complete_graph [])) r.

(** The keys of a separating-set map, each by its elements, with their
    sets. *)
Definition seps_list (seps : gmap (gset string) (list string))
  : list (list string * list string) :=
  (fun kv : gset string * list string => (elements kv.1, kv.2)) <$> map_to_list seps.

(** X - Z - Y is an unshielded triple of the skeleton with Z outside the
    separating set recorded for X and Y. *)
Definition unshielded_collider (skel : UndirectedGraph string)
    (seps : gmap (gset string) (list string)) (X Z Y : string) : bool :=
  negb (has_edge skel X Y) && has_edge skel X Z && has_edge skel Y Z
  && match seps !! frozenset2 X Y with
     | Some s => negb (bool_decide (Z ∈ s))
     | None => false
     end.

(** The PDAG has X -> Z and Y -> Z and neither Z -> X nor Z -> Y. *)
Definition oriented_into (pdag : DirectedGraph string) (X Z Y : string) : bool :=
  dg_has_edge pdag X Z && dg_has_edge pdag Y Z
  && negb (dg_has_edge pdag Z X) && negb (dg_has_edge pdag Z Y).

(** The edges of a PDAG, sorted by the graph's node order. *)
Definition edge_list (pdag : DirectedGraph string) : list (string * string) :=
  u ← dg_nodes pdag; v ← successors pdag u; [(u, v)].

Close Scope string_scope.

(** *** Data sets *)

Open Scope string_scope.

(** A row from its cells; a variable without a cell is missing there. *)
Definition row_of (cells : list (string * nat)) (v : string) : option nat :=
  (list_to_map cells : gmap string nat) !! v.

(** An instance of [chisquare] to run the examples: the Pearson statistic
    as it is summed over the cells, and 1 / (1 + statistic) in the place of
    the survival function of the chi-square distribution. *)
Definition pearson (f_obs f_exp : list float) : float :=
  foldr PrimFloat.add 0%float
    (map (fun oe : float * float => ((oe.1 - oe.2) * (oe.1 - oe.2) / oe.2)%float)
         (zip f_obs f_exp)).
Definition pearson_chisquare (f_obs f_exp : list float) : float * float :=
  (pearson f_obs f_exp, (1 / (1 + pearson f_obs f_exp))%float).

(** X and Y take every combination of two states; Z1 and Z2 are always
    equal, so the combinations (0, 1) and (1, 0) of their states never
    occur. *)
Definition twins_data : list (string -> option nat) :=
  [ row_of [("X", 0); ("Y", 0); ("Z1", 0); ("Z2", 0)];
    row_of [("X", 1); ("Y", 1); ("Z1", 0); ("Z2", 0)];
    row_of [("X", 0); ("Y", 1); ("Z1", 0); ("Z2", 0)];
    row_of [("X", 1); ("Y", 0); ("Z1", 0); ("Z2", 0)];
    row_of [("X", 0); ("Y", 0); ("Z1", 1); ("Z2", 1)];
    row_of [("X", 1); ("Y", 1); ("Z1", 1); ("Z2", 1)];
    row_of [("X", 0); ("Y", 1); ("Z1", 1); ("Z2", 1)];
    row_of [("X", 1); ("Y", 0); ("Z1", 1); ("Z2", 1)] ].
Definition twins_state_names : list (string * list nat) :=
  [("X", [0; 1]); ("Y", [0; 1]); ("Z1", [0; 1]); ("Z2", [0; 1])].

(** X and Y have one state each. *)
Definition constant_data : list (string -> option nat) :=
  [ row_of [("X", 0); ("Y", 0)];
    row_of [("X", 0); ("Y", 0)];
    row_of [("X", 0); ("Y", 0)] ].
Definition constant_state_names : list (string * list nat) :=
  [("X", [0]); ("Y", [0])].

(** X and Y are missing in every row, so that they have no state; Z1 and
    Z2 have two states each. *)
Definition blank_data : list (string -> option nat) :=
  [ row_of [("Z1", 0); ("Z2", 0)];
    row_of [("Z1", 1); ("Z2", 0)];
    row_of [("Z1", 1); ("Z2", 1)] ].
Definition blank_state_names : list (string * list nat) :=
  [("X", []); ("Y", []); ("Z1", [0; 1]); ("Z2", [0; 1])].

(** One row with every cell and eight rows where X is missing. *)
Definition sparse_data : list (string -> option nat) :=
  [ row_of [("X", 0); ("Y", 0); ("Z", 0)] ]
  ++ replicate 4 (row_of [("Y", 0); ("Z", 1)])
  ++ replicate 4 (row_of [("Y", 1); ("Z", 0)]).
Definition sparse_state_names : list (string * list nat) :=
  [("X", [0; 1]); ("Y", [0; 1]); ("Z", [0; 1])].

(** X and Y with three states each, three rows. *)
Definition diagonal_data : list (string -> option nat) :=
  [ row_of [("X", 0); ("Y", 0)];
    row_of [("X", 1); ("Y", 1)];
    row_of [("X", 2); ("Y", 2)] ].
Definition diagonal_state_names : list (string * list nat) :=
  [("X", [0; 1; 2]); ("Y", [0; 1; 2])].

Close Scope string_scope.

(** *** Runs *)

Open Scope string_scope.

(** The state in which the skeleton search on the DAG's independences
    ends, and its final [lim_neighbors]. *)
Definition dag_final : skeleton_state string * nat :=
  returned (skeleton_init [], 0)
    (estimate_skeleton_run dag_nodes (table_oracle dag_table)
       default_p_value given_order 5).

Definition dag_skeleton : UndirectedGraph string :=
  returned_skeleton (run_estimate_skeleton dag_nodes dag_table 5).
Definition dag_seps : gmap (gset string) (list string) :=
  returned_seps (run_estimate_skeleton dag_nodes dag_table 5).
Definition dag_pdag : DirectedGraph string :=
  returned_pdag (run_estimate dag_nodes dag_table 5).

Definition collider_skeleton : UndirectedGraph string :=
  returned_skeleton (run_estimate_skeleton collider_nodes collider_table 3).
Definition collider_seps : gmap (gset string) (list string) :=
  returned_seps (run_estimate_skeleton collider_nodes collider_table 3).

Definition chain_skeleton : UndirectedGraph string :=
  returned_skeleton (run_estimate_skeleton chain_nodes chain_table 4).
Definition chain_seps : gmap (gset string) (list string) :=
  returned_seps (run_estimate_skeleton chain_nodes chain_table 4).
Definition chain_pdag : DirectedGraph string :=
  returned_pdag (run_estimate chain_nodes chain_table 4).

Close Scope string_scope.

(** ** Where the events of a trace come from *)

Section Candidates.
Context {node : Type} `{Countable node}.
Variable nodes : list node.
Variable oracle : node -> node -> list node -> result float.
Variable set_order : list node -> list node.

(** An event of round [k], with [k < j], for two distinct variables and a
    set that is one of the candidates of line 211 in some graph over the
    variables, for which the test returned. *)
Definition from_candidates (j : nat) (e : event node) : Prop :=
  match e with
  | Tested k n m s | Recorded k n m s =>
      k < j
      /\ (n, m) ∈ ug_adj (complete_graph nodes)
      /\ (exists p, oracle n m s = Ok p)
      /\ exists g,
           ug_nodes g = nodes
           /\ ug_adj g ⊆ ug_adj (complete_graph nodes)
           /\ s ∈ combinations (set_difference set_order (neighbors g n) [m]) k
  end.

(** An event of the execution of the loop body for [n] and [m] in round
    [k]: one of its calls of the test, or its record. *)
Definition event_at (k : nat) (n m : node) (e : event node) : Prop :=
  exists s, e = Tested k n m s \/ e = Recorded k n m s.

End Candidates.

(** ** More inputs for the examples *)

Open Scope string_scope.

(** A, B and C pairwise independent. *)
Definition independent_table : list (string * string * list string) :=
  [("A", "B", []); ("A", "C", []); ("B", "C", [])].

(** The data of X and Y with one state each, with a third column W. *)
Definition constant_data_wide : list (string -> option nat) :=
  [ row_of [("X", 0); ("Y", 0); ("W", 1)];
    row_of [("X", 0); ("Y", 0); ("W", 2)];
    row_of [("X", 0); ("Y", 0)] ].

(** X and Y take every combination of two states; every value of W is
    missing, so that W has no state. *)
Definition hollow_data : list (string -> option nat) :=
  [ row_of [("X", 0); ("Y", 0)];
    row_of [("X", 1); ("Y", 1)];
    row_of [("X", 0); ("Y", 1)];
    row_of [("X", 1); ("Y", 0)] ].
Definition hollow_state_names : list (string * list nat) :=
  [("X", [0; 1]); ("Y", [0; 1]); ("W", [])].

(** The state of the search on that data after the neighbour Y of X in
    the first round. *)
Definition hollow_after_Y : skeleton_state string :=
  returned (skeleton_init [])
    (Some (for_each
             (try_neighbor (data_oracle hollow_data hollow_state_names pearson_chisquare)
                default_p_value given_order 0 "X")
             ["Y"] (skeleton_init (map fst hollow_state_names)))).

(** One variable. *)
Definition single_state_names : list (string * list nat) := [("X", [0])].

(** Sixty-five variables of two states each, each named by one character,
    from "0" on, and two rows. *)
Definition wide_name (n : nat) : string := String (Ascii.ascii_of_nat (48 + n)) "".
Definition wide_data : list (string -> option nat) :=
  [ (fun _ => Some 0); (fun _ => Some 1) ].
Definition wide_state_names : list (string * list nat) :=
  (fun n => (wide_name n, [0; 1])) <$> seq 0 65.

Close Scope string_scope.

(** * Properties *)

(** ** The error monad and the loops *)

Lemma bind_Ok_inv {A B : Type} (r : result A) (f : A -> result B) (b : B) :
  r ≫= f = Ok b -> exists a, r = Ok a /\ f a = Ok b.
Proof. destruct r as [a|e]; simpl; [eauto | discriminate]. Qed.

Lemma for_each_app {A S : Type} (body : A -> S -> result S) (xs ys : list A) (s : S) :
  for_each body (xs ++ ys) s = for_each body xs s ≫= for_each body ys.
Proof.
  revert s. induction xs as [|x xs IH]; intros s; simpl; [done|].
  destruct (body x s) as [s1|e]; simpl; [apply IH | done].
Qed.

(** A property that every iteration keeps holds when the loop ends. *)
Lemma for_each_invariant {A S : Type} (P : S -> Prop) (body : A -> S -> result S)
    (xs : list A) (s s' : S) :
  (forall x t t', x ∈ xs -> P t -> body x t = Ok t' -> P t') ->
  P s -> for_each body xs s = Ok s' -> P s'.
Proof.
  revert s. induction xs as [|x xs IH]; intros s Hstep Hs Hrun; simpl in Hrun.
  - by inversion Hrun; subst.
  - apply bind_Ok_inv in Hrun as (s1 & Hx & Hrest).
    apply (IH s1); [| |done].
    + intros y t t' Hy. apply Hstep. by right.
    + eapply Hstep; [by left | done | done].
Qed.

(** A loop whose body cannot raise from a state with [P] does not raise. *)
Lemma for_each_returns {A S : Type} (P : S -> Prop) (body : A -> S -> result S)
    (xs : list A) (s : S) :
  (forall x t, x ∈ xs -> P t -> exists t', body x t = Ok t' /\ P t') ->
  P s -> exists s', for_each body xs s = Ok s' /\ P s'.
Proof.
  revert s. induction xs as [|x xs IH]; intros s Hstep Hs; simpl.
  - eauto.
  - destruct (Hstep x s) as (s1 & -> & Hs1); [by left | done |]. simpl.
    apply IH; [|done]. intros y t Hy. apply Hstep. by right.
Qed.

(** A [for] loop over an iterator is the loop over its items, and leaves
    the iterator empty. *)
Lemma for_iter_for_each {A S : Type} (body : A -> S -> result S) (it : list A) (s : S) :
  for_iter body it s = s' ← for_each body it s; Ok (s', []).
Proof.
  revert s. induction it as [|x it IH]; intros s; simpl; [done|].
  destruct (body x s) as [s1|e]; simpl; [apply IH | done].
Qed.

Lemma for_iter_exhausts {A S : Type} (body : A -> S -> result S) (it it' : list A)
    (s s' : S) :
  for_iter body it s = Ok (s', it') -> it' = [].
Proof.
  rewrite for_iter_for_each. intros Hrun.
  apply bind_Ok_inv in Hrun as (s1 & _ & Hret). by inversion Hret.
Qed.

Lemma for_iter_nil {A S : Type} (body : A -> S -> result S) (s : S) :
  for_iter body [] s = Ok (s, []).
Proof. done. Qed.

(** ** combinations *)

Lemma combinations_0 {A : Type} (l : list A) : combinations l 0 = [[]].
Proof. by destruct l. Qed.

Lemma combinations_1 {A : Type} (l : list A) :
  combinations l 1 = map (fun a => [a]) l.
Proof.
  induction l as [|a l IH]; [done|].
  simpl. rewrite combinations_0. simpl. by f_equal.
Qed.

Lemma combinations2_nil {A : Type} : combinations2 (@nil A) = [].
Proof. done. Qed.

Lemma combinations2_cons {A : Type} (x : A) (l : list A) :
  combinations2 (x :: l) = map (pair x) l ++ combinations2 l.
Proof.
  unfold combinations2. simpl. rewrite omap_app. f_equal.
  rewrite combinations_1. induction l as [|a l IH]; [done|].
  simpl. by f_equal.
Qed.

Lemma elem_of_combinations2 {A : Type} (l : list A) (a b : A) :
  (a, b) ∈ combinations2 l <-> exists l1 l2 l3, l = l1 ++ a :: l2 ++ b :: l3.
Proof.
  induction l as [|x l IH].
  - rewrite combinations2_nil. split.
    + intros Hin. by apply elem_of_nil in Hin.
    + intros (l1 & l2 & l3 & Heq). by destruct l1.
  - rewrite combinations2_cons, elem_of_app, list_elem_of_fmap, IH. split.
    + intros [(y & Heq & Hy) | (l1 & l2 & l3 & ->)].
      * inversion Heq; subst.
        apply list_elem_of_split in Hy as (l2 & l3 & ->).
        by exists [], l2, l3.
      * by exists (x :: l1), l2, l3.
    + intros (l1 & l2 & l3 & Heq). destruct l1 as [|z l1]; simpl in Heq.
      * inversion Heq; subst. left. exists b. split; [done|].
        apply elem_of_app. right. by left.
      * inversion Heq; subst. right. by exists l1, l2, l3.
Qed.

Lemma combinations2_elem_of {A : Type} (l : list A) (a b : A) :
  (a, b) ∈ combinations2 l -> a ∈ l /\ b ∈ l.
Proof.
  rewrite elem_of_combinations2. intros (l1 & l2 & l3 & ->). split.
  - apply elem_of_app. right. by left.
  - apply elem_of_app. right. right. apply elem_of_app. right. by left.
Qed.

Lemma combinations2_ne {A : Type} (l : list A) (a b : A) :
  NoDup l -> (a, b) ∈ combinations2 l -> a ≠ b.
Proof.
  rewrite elem_of_combinations2. intros Hnd (l1 & l2 & l3 & ->) ->.
  apply NoDup_app in Hnd as (_ & _ & Hnd).
  apply NoDup_cons in Hnd as [Hnotin _].
  apply Hnotin, elem_of_app. right. by left.
Qed.

Lemma combinations2_total {A : Type} (l : list A) (a b : A) :
  a ∈ l -> b ∈ l -> a ≠ b -> (a, b) ∈ combinations2 l \/ (b, a) ∈ combinations2 l.
Proof.
  intros Ha Hb Hne. rewrite !elem_of_combinations2.
  apply list_elem_of_split in Ha as (l1 & l2 & ->).
  apply elem_of_app in Hb as [Hb | Hb].
  - right. apply list_elem_of_split in Hb as (k1 & k2 & ->).
    exists k1, k2, l2. by rewrite <- app_assoc.
  - apply elem_of_cons in Hb as [-> | Hb]; [done|].
    left. apply list_elem_of_split in Hb as (k1 & k2 & ->).
    by exists l1, k1, k2.
Qed.

(** ** Graphs *)

Section Graph_properties.
Context {node : Type} `{Countable node}.
Implicit Types (g : UndirectedGraph node) (u v n m : node) (nodes : list node).

(** *** The graph made from edges *)

Lemma add_node_adj g n : ug_adj (add_node g n) = ug_adj g.
Proof. unfold add_node. by destruct (decide (n ∈ ug_nodes g)). Qed.

Lemma add_node_old g n : n ∈ ug_nodes g -> ug_nodes (add_node g n) = ug_nodes g.
Proof. intros Hn. unfold add_node. by rewrite decide_True. Qed.

Lemma add_node_new g n : n ∉ ug_nodes g -> ug_nodes (add_node g n) = ug_nodes g ++ [n].
Proof. intros Hn. unfold add_node. by rewrite decide_False. Qed.

Lemma add_edge_adj g (e : node * node) :
  ug_adj (add_edge g e) = ug_adj g ∪ list_to_set (both_ways e).
Proof. unfold add_edge; simpl. by rewrite !add_node_adj. Qed.

Lemma add_edge_old g (e : node * node) :
  e.1 ∈ ug_nodes g -> e.2 ∈ ug_nodes g -> ug_nodes (add_edge g e) = ug_nodes g.
Proof.
  intros H1 H2. unfold add_edge; simpl.
  rewrite add_node_old; rewrite add_node_old; done.
Qed.

Lemma add_edges_adj g (es : list (node * node)) :
  ug_adj (foldl add_edge g es) = ug_adj g ∪ list_to_set (es ≫= both_ways).
Proof.
  revert g. induction es as [|e es IH]; intros g; cbn [foldl].
  - simpl. set_solver.
  - rewrite IH, add_edge_adj. apply set_eq. intros x.
    rewrite !elem_of_union, !elem_of_list_to_set, !list_elem_of_bind.
    split.
    + intros [[Hx | Hx] | (e' & Hx & He')].
      * by left.
      * right. exists e. split; [done | by left].
      * right. exists e'. split; [done | by right].
    + intros [Hx | (e' & Hx & He')]; [by left; left|].
      apply elem_of_cons in He' as [-> | He']; [by left; right|].
      right. by exists e'.
Qed.

(** Edges between nodes of the graph add no node. *)
Lemma add_edges_old g (es : list (node * node)) :
  (forall e, e ∈ es -> e.1 ∈ ug_nodes g /\ e.2 ∈ ug_nodes g) ->
  ug_nodes (foldl add_edge g es) = ug_nodes g.
Proof.
  revert g. induction es as [|e es IH]; intros g Hin; simpl; [done|].
  destruct (Hin e) as [H1 H2]; [by left|].
  rewrite IH; [by apply add_edge_old|].
  intros e' He'. rewrite add_edge_old by done. apply Hin. by right.
Qed.

(** The edges from a node of the graph to new nodes add these in order. *)
Lemma add_edges_star g x (l : list node) :
  x ∈ ug_nodes g -> NoDup (ug_nodes g ++ l) ->
  ug_nodes (foldl add_edge g (map (pair x) l)) = ug_nodes g ++ l.
Proof.
  revert g. induction l as [|y l IH]; intros g Hx Hnd; simpl.
  - by rewrite app_nil_r.
  - assert (Hy : y ∉ ug_nodes g).
    { apply NoDup_app in Hnd as (_ & Hdisj & _). intros Hy.
      apply (Hdisj y Hy). by left. }
    assert (Hstep : ug_nodes (add_edge g (x, y)) = ug_nodes g ++ [y]).
    { unfold add_edge; simpl. rewrite add_node_new; rewrite add_node_old; done. }
    rewrite IH, Hstep.
    + by rewrite <- app_assoc.
    + rewrite Hstep. apply elem_of_app. by left.
    + rewrite Hstep, <- app_assoc. done.
Qed.

Lemma complete_graph_adj nodes :
  ug_adj (complete_graph nodes) = list_to_set (combinations2 nodes ≫= both_ways).
Proof.
  unfold complete_graph, graph_of_edges. rewrite add_edges_adj. simpl. set_solver.
Qed.

(** A single variable is no node of the graph of the pairs. *)
Lemma complete_graph_single (a : node) : complete_graph [a] = empty_graph.
Proof. done. Qed.

(** Unless there is just one, the variables are the nodes of the graph of
    the pairs, in their order. *)
Lemma complete_graph_nodes nodes :
  NoDup nodes -> length nodes ≠ 1 -> ug_nodes (complete_graph nodes) = nodes.
Proof.
  intros Hnd Hlen. destruct nodes as [|x [|y l]]; [done | done |].
  unfold complete_graph, graph_of_edges.
  rewrite combinations2_cons, foldl_app.
  assert (Hstar : ug_nodes (foldl add_edge empty_graph (map (pair x) (y :: l)))
                  = x :: y :: l).
  { simpl.
    assert (Hne : x ≠ y).
    { intros ->. apply NoDup_cons in Hnd as [Hx _]. apply Hx. by left. }
    assert (Hfirst : ug_nodes (add_edge empty_graph (x, y)) = [x; y]).
    { assert (H1 : ug_nodes (add_node empty_graph x) = [x]).
      { rewrite add_node_new; [done | apply not_elem_of_nil]. }
      unfold add_edge. cbn [fst snd ug_nodes].
      rewrite add_node_new; rewrite H1; [done|].
      intros Hy. apply list_elem_of_singleton in Hy. by apply Hne. }
    rewrite add_edges_star; rewrite Hfirst; [done | by left | done]. }
  rewrite add_edges_old; [done|].
  intros [a b] He. rewrite Hstar. simpl.
  apply combinations2_elem_of in He as [Ha Hb]. split; by right.
Qed.

Lemma elem_of_complete_graph nodes u v :
  (u, v) ∈ ug_adj (complete_graph nodes)
  <-> (u, v) ∈ combinations2 nodes \/ (v, u) ∈ combinations2 nodes.
Proof.
  rewrite complete_graph_adj.
  rewrite elem_of_list_to_set, list_elem_of_bind. split.
  - intros ([a b] & Hin & Hab). unfold both_ways in Hin; simpl in Hin.
    apply elem_of_cons in Hin as [Heq | Hin].
    + inversion Heq; subst. by left.
    + apply list_elem_of_singleton in Hin. inversion Hin; subst. by right.
  - intros [Huv | Hvu].
    + exists (u, v). split; [by left | done].
    + exists (v, u). split; [by right; left | done].
Qed.

Lemma complete_graph_sym nodes u v :
  (u, v) ∈ ug_adj (complete_graph nodes) -> (v, u) ∈ ug_adj (complete_graph nodes).
Proof. rewrite !elem_of_complete_graph. tauto. Qed.

(** The complete graph joins exactly the pairs of distinct variables. *)
Lemma complete_graph_spec nodes u v :
  NoDup nodes ->
  (u, v) ∈ ug_adj (complete_graph nodes) <-> u ∈ nodes /\ v ∈ nodes /\ u ≠ v.
Proof.
  intros Hnd. rewrite elem_of_complete_graph. split.
  - intros [Huv | Hvu].
    + pose proof (combinations2_elem_of _ _ _ Huv) as [? ?].
      pose proof (combinations2_ne _ _ _ Hnd Huv). done.
    + pose proof (combinations2_elem_of _ _ _ Hvu) as [? ?].
      pose proof (combinations2_ne _ _ _ Hnd Hvu). done.
  - intros (Hu & Hv & Hne). by apply combinations2_total.
Qed.

Lemma elem_of_neighbors g n m :
  m ∈ neighbors g n <-> (n, m) ∈ ug_adj g /\ m ∈ ug_nodes g.
Proof. unfold neighbors. by rewrite list_elem_of_filter. Qed.

Lemma has_edge_true g u v : has_edge g u v = true <-> (u, v) ∈ ug_adj g.
Proof. unfold has_edge. by rewrite bool_decide_eq_true. Qed.

Lemma has_edge_false g u v : has_edge g u v = false <-> (u, v) ∉ ug_adj g.
Proof. unfold has_edge. by rewrite bool_decide_eq_false. Qed.

Lemma NoDup_neighbors g n : NoDup (ug_nodes g) -> NoDup (neighbors g n).
Proof. apply NoDup_filter. Qed.

Lemma graph_neighbors_Ok g n :
  n ∈ ug_nodes g -> graph_neighbors g n = Ok (neighbors g n).
Proof. intros Hn. unfold graph_neighbors. by rewrite decide_True. Qed.

Lemma graph_neighbors_raises g n :
  n ∉ ug_nodes g -> graph_neighbors g n = Raise NetworkXError.
Proof. intros Hn. unfold graph_neighbors. by rewrite decide_False. Qed.

Lemma graph_neighbors_Ok_inv g n ms :
  graph_neighbors g n = Ok ms -> n ∈ ug_nodes g /\ ms = neighbors g n.
Proof.
  unfold graph_neighbors. destruct (decide (n ∈ ug_nodes g)); [|discriminate].
  intros Heq. by inversion Heq.
Qed.

Lemma graph_neighbors_Raise_inv g n e :
  graph_neighbors g n = Raise e -> (n ∉ ug_nodes g) /\ e = NetworkXError.
Proof.
  unfold graph_neighbors. destruct (decide (n ∈ ug_nodes g)); [discriminate|].
  intros Heq. by inversion Heq.
Qed.

Lemma remove_edge_subseteq g u v : ug_adj (remove_edge g u v) ⊆ ug_adj g.
Proof. unfold remove_edge; simpl. set_solver. Qed.

Lemma elem_of_remove_edge g u v a b :
  (a, b) ∈ ug_adj (remove_edge g u v)
  <-> (a, b) ∈ ug_adj g /\ (a, b) ≠ (u, v) /\ (a, b) ≠ (v, u).
Proof. unfold remove_edge; simpl. set_solver. Qed.

(** Two [frozenset]s of two nodes are equal when the nodes are, in one of
    the two orders. *)
Lemma frozenset2_eq (a b c d : node) :
  ({[ a; b ]} : gset node) = {[ c; d ]} <-> (a = c /\ b = d) \/ (a = d /\ b = c).
Proof.
  split.
  - intros Heq.
    assert (Ha : a ∈ ({[ c; d ]} : gset node)) by (rewrite <- Heq; set_solver).
    assert (Hb : b ∈ ({[ c; d ]} : gset node)) by (rewrite <- Heq; set_solver).
    assert (Hc : c ∈ ({[ a; b ]} : gset node)) by (rewrite Heq; set_solver).
    assert (Hd : d ∈ ({[ a; b ]} : gset node)) by (rewrite Heq; set_solver).
    set_solver.
  - intros [[-> ->] | [-> ->]]; set_solver.
Qed.

Lemma frozenset2_comm (a b : node) : ({[ a; b ]} : gset node) = {[ b; a ]}.
Proof. set_solver. Qed.

End Graph_properties.

(** ** The skeleton search *)

Lemma app_eq_split_snoc {A : Type} (old ts l1 l2 : list A) (x : A) :
  old ++ ts = l1 ++ x :: l2 -> x ∉ ts ->
  exists l2', old = l1 ++ x :: l2' /\ l2 = l2' ++ ts.
Proof.
  intros Heq Hx. apply app_eq_inv in Heq as [(k & Hold & Hl2) | (k & Hl1 & Hts)].
  - destruct k as [|y k]; simpl in Hl2.
    + exfalso. apply Hx. rewrite <- Hl2. by left.
    + inversion Hl2; subst. by exists k.
  - exfalso. apply Hx. rewrite Hts. apply elem_of_app. right. by left.
Qed.

Section Skeleton_properties.
Context {node : Type} `{Countable node}.
Variable nodes : list node.
Variable oracle : node -> node -> list node -> result float.
Variable p_value : float.
Variable set_order : list node -> list node.

Implicit Types (st : skeleton_state node) (n m u v : node) (k : nat).

(** *** The search for a separating set, lines 211-216 *)

Lemma search_separating_set_spec k n m cands tr r tr' :
  search_separating_set oracle p_value k n m cands tr = Ok (r, tr') ->
  match r with
  | Some s =>
      exists pre post,
        cands = pre ++ s :: post
        /\ Forall (fails oracle p_value n m) pre
        /\ passes oracle p_value n m s
        /\ tr' = tr ++ map (Tested k n m) pre ++ [Tested k n m s]
  | None =>
      Forall (fails oracle p_value n m) cands
      /\ tr' = tr ++ map (Tested k n m) cands
  end.
Proof.
  revert tr. induction cands as [|c cands IH]; intros tr Hrun; simpl in Hrun.
  - inversion Hrun; subst. split; [constructor | by rewrite app_nil_r].
  - destruct (oracle n m c) as [p|e] eqn:Hp; simpl in Hrun; [|discriminate].
    destruct (p_value <=? p)%float eqn:Hle.
    + inversion Hrun; subst. exists [], cands.
      split_and!; [done | constructor | by exists p | done].
    + apply IH in Hrun. destruct r as [s|].
      * destruct Hrun as (pre & post & -> & Hpre & Hs & ->).
        exists (c :: pre), post. split_and!; [done| |done|].
        -- constructor; [by exists p | done].
        -- simpl. by rewrite <- app_assoc.
      * destruct Hrun as [Hall ->]. split.
        -- constructor; [by exists p | done].
        -- simpl. by rewrite <- app_assoc.
Qed.

(** The search raises what the first raising test raises, when no earlier
    test reached the threshold. *)
Lemma search_separating_set_raises k n m pre s post tr e :
  Forall (fails oracle p_value n m) pre ->
  oracle n m s = Raise e ->
  search_separating_set oracle p_value k n m (pre ++ s :: post) tr = Raise e.
Proof.
  intros Hpre Hs. revert tr.
  induction Hpre as [|c pre (p & Hp & Hle) _ IH]; intros tr; simpl.
  - by rewrite Hs.
  - rewrite Hp; simpl. rewrite Hle. apply IH.
Qed.

(** The body of the loop over the neighbours either removes the edge, with
    the first candidate that passes, or leaves graph and map as they are. *)
Lemma try_neighbor_spec k n m st st' :
  try_neighbor oracle p_value set_order k n m st = Ok st' ->
  let cands :=
    combinations (set_difference set_order (neighbors (graph st) n) [m]) k in
  (exists pre s post,
      cands = pre ++ s :: post
      /\ Forall (fails oracle p_value n m) pre
      /\ passes oracle p_value n m s
      /\ graph st' = remove_edge (graph st) n m
      /\ seperating_sets st' = <[frozenset2 n m := s]> (seperating_sets st)
      /\ trace st' = trace st ++ map (Tested k n m) pre
                          ++ [Tested k n m s; Recorded k n m s])
  \/ (Forall (fails oracle p_value n m) cands
      /\ graph st' = graph st
      /\ seperating_sets st' = seperating_sets st
      /\ trace st' = trace st ++ map (Tested k n m) cands).
Proof.
  unfold try_neighbor. intros Hrun.
  apply bind_Ok_inv in Hrun as ([r tr'] & Hsearch & Hret). simpl in Hret.
  apply search_separating_set_spec in Hsearch.
  destruct r as [s|]; inversion Hret; subst; clear Hret; simpl.
  - destruct Hsearch as (pre & post & Hc & Hpre & Hs & ->).
    left. exists pre, s, post. split_and!; try done.
    by rewrite <- !app_assoc.
  - destruct Hsearch as [Hall ->]. by right.
Qed.

(** *** The calls of [graph.neighbors] *)

Lemma visit_node_unfold k n st :
  n ∈ ug_nodes (graph st) ->
  visit_node oracle p_value set_order k n st
  = for_each (try_neighbor oracle p_value set_order k n) (neighbors (graph st) n) st.
Proof. intros Hn. unfold visit_node. by rewrite graph_neighbors_Ok. Qed.

Lemma visit_node_Ok_inv k n st st' :
  visit_node oracle p_value set_order k n st = Ok st' ->
  n ∈ ug_nodes (graph st)
  /\ for_each (try_neighbor oracle p_value set_order k n) (neighbors (graph st) n) st
     = Ok st'.
Proof.
  unfold visit_node. intros Hrun.
  apply bind_Ok_inv in Hrun as (ms & Hms & Hrun).
  apply graph_neighbors_Ok_inv in Hms as [Hn ->]. done.
Qed.

Lemma forallb_id_map {A : Type} (f : A -> bool) (l : list A) :
  forallb id (map f l) = forallb f l.
Proof. induction l as [|a l IH]; simpl; [done | by rewrite IH]. Qed.

Lemma degree_checks_Ok k (g : UndirectedGraph node) (ns : list node) :
  (forall n, n ∈ ns -> n ∈ ug_nodes g) ->
  degree_checks k g ns = Ok (map (fun n => length (neighbors g n) <? k) ns).
Proof.
  induction ns as [|n ns IH]; intros Hin; simpl; [done|].
  rewrite graph_neighbors_Ok by (apply Hin; by left). simpl.
  rewrite IH; [done|]. intros n' Hn'. apply Hin. by right.
Qed.

Lemma degree_checks_Raise k (g : UndirectedGraph node) (ns : list node) :
  (exists n, n ∈ ns /\ n ∉ ug_nodes g) ->
  degree_checks k g ns = Raise NetworkXError.
Proof.
  induction ns as [|n ns IH]; intros (n' & Hn' & Hout); simpl.
  - by apply elem_of_nil in Hn'.
  - destruct (decide (n ∈ ug_nodes g)) as [Hn | Hn].
    + rewrite graph_neighbors_Ok by done. simpl. rewrite IH; [done|].
      exists n'. split; [|done].
      apply elem_of_cons in Hn' as [-> | Hn']; done.
    + by rewrite graph_neighbors_raises.
Qed.

(** The condition of the loop is the comparison of the degrees when every
    variable is a node of the graph, and raises otherwise. *)
Lemma all_degrees_below_Ok k (g : UndirectedGraph node) :
  (forall n, n ∈ nodes -> n ∈ ug_nodes g) ->
  all_degrees_below nodes k g = Ok (degrees_below nodes k g).
Proof.
  intros Hin. unfold all_degrees_below, degrees_below.
  rewrite degree_checks_Ok by done. simpl. by rewrite forallb_id_map.
Qed.

Lemma all_degrees_below_Raise k (g : UndirectedGraph node) :
  (exists n, n ∈ nodes /\ n ∉ ug_nodes g) ->
  all_degrees_below nodes k g = Raise NetworkXError.
Proof.
  intros Hout. unfold all_degrees_below. by rewrite degree_checks_Raise.
Qed.

Lemma all_degrees_below_cases k (g : UndirectedGraph node) :
  ((forall n, n ∈ nodes -> n ∈ ug_nodes g)
   /\ all_degrees_below nodes k g = Ok (degrees_below nodes k g))
  \/ ((exists n, n ∈ nodes /\ n ∉ ug_nodes g)
      /\ all_degrees_below nodes k g = Raise NetworkXError).
Proof.
  destruct (decide (Forall (fun n => n ∈ ug_nodes g) nodes)) as [Hall | Hnot].
  - left. rewrite Forall_forall in Hall. split; [done|].
    by apply all_degrees_below_Ok.
  - right. apply not_Forall_Exists in Hnot; [|intros n; apply _].
    apply Exists_exists in Hnot as (n & Hn & Hout).
    split; [by exists n|]. apply all_degrees_below_Raise. by exists n.
Qed.

Lemma all_degrees_below_Ok_inv k (g : UndirectedGraph node) b :
  all_degrees_below nodes k g = Ok b ->
  (forall n, n ∈ nodes -> n ∈ ug_nodes g) /\ degrees_below nodes k g = b.
Proof.
  destruct (all_degrees_below_cases k g) as [[Hin ->] | [_ ->]]; [|discriminate].
  intros Heq. by inversion Heq.
Qed.

(** *** Edges are only removed *)

Lemma try_neighbor_shrinks k n m st st' :
  try_neighbor oracle p_value set_order k n m st = Ok st' ->
  ug_nodes (graph st') = ug_nodes (graph st)
  /\ ug_adj (graph st') ⊆ ug_adj (graph st).
Proof.
  intros Hrun. apply try_neighbor_spec in Hrun.
  destruct Hrun as [(pre & s & post & _ & _ & _ & -> & _) | (_ & -> & _)].
  - split; [done | apply remove_edge_subseteq].
  - done.
Qed.

Lemma visit_node_shrinks k n st st' :
  visit_node oracle p_value set_order k n st = Ok st' ->
  ug_nodes (graph st') = ug_nodes (graph st)
  /\ ug_adj (graph st') ⊆ ug_adj (graph st).
Proof.
  intros Hrun. apply visit_node_Ok_inv in Hrun as [_ Hrun]. revert Hrun.
  apply (for_each_invariant
           (fun t => ug_nodes (graph t) = ug_nodes (graph st)
                     /\ ug_adj (graph t) ⊆ ug_adj (graph st))); [|done].
  intros m t t' _ [Hn Ha] Hstep.
  apply try_neighbor_shrinks in Hstep as [Hn' Ha']. split; [congruence | by etrans].
Qed.

Lemma skeleton_round_shrinks k st st' :
  skeleton_round nodes oracle p_value set_order k st = Ok st' ->
  ug_nodes (graph st') = ug_nodes (graph st)
  /\ ug_adj (graph st') ⊆ ug_adj (graph st).
Proof.
  unfold skeleton_round.
  apply (for_each_invariant
           (fun t => ug_nodes (graph t) = ug_nodes (graph st)
                     /\ ug_adj (graph t) ⊆ ug_adj (graph st))); [|done].
  intros n t t' _ [Hn Ha] Hstep.
  apply visit_node_shrinks in Hstep as [Hn' Ha']. split; [congruence | by etrans].
Qed.

Lemma state_at_round_shrinks j j' st st' :
  j <= j' ->
  state_at_round nodes oracle p_value set_order j = Ok st ->
  state_at_round nodes oracle p_value set_order j' = Ok st' ->
  ug_adj (graph st') ⊆ ug_adj (graph st).
Proof.
  intros Hle Hj. revert st'. induction Hle as [|j' Hle IH]; intros st' Hj'.
  - rewrite Hj in Hj'. by inversion Hj'.
  - simpl in Hj'. apply bind_Ok_inv in Hj' as (st1 & Hst1 & Hround).
    apply skeleton_round_shrinks in Hround as [_ Hsub].
    specialize (IH st1 Hst1). by etrans.
Qed.

(** *** The loop and the states at its rounds *)

Lemma skeleton_loop_rounds fuel k st r kf :
  state_at_round nodes oracle p_value set_order k = Ok st ->
  skeleton_loop nodes oracle p_value set_order fuel k st = Some (Ok (r, kf)) ->
  k <= kf <= k + fuel
  /\ state_at_round nodes oracle p_value set_order kf = Ok r
  /\ degrees_below nodes kf (graph r) = true
  /\ forall j st_j,
       k <= j < kf ->
       state_at_round nodes oracle p_value set_order j = Ok st_j ->
       degrees_below nodes j (graph st_j) = false.
Proof.
  revert k st. induction fuel as [|fuel IH]; intros k st Hk Hrun; simpl in Hrun.
  - destruct (all_degrees_below nodes k (graph st)) as [[|]|e] eqn:Hc;
      try discriminate.
    apply all_degrees_below_Ok_inv in Hc as [_ Hd].
    inversion Hrun; subst. split_and!; [lia | lia | done | done | lia].
  - destruct (all_degrees_below nodes k (graph st)) as [[|]|e] eqn:Hc;
      [| |discriminate];
      apply all_degrees_below_Ok_inv in Hc as [_ Hd].
    + inversion Hrun; subst. split_and!; [lia | lia | done | done | lia].
    + destruct (skeleton_round nodes oracle p_value set_order k st) as [st1|e] eqn:Hr;
        [|discriminate].
      assert (Hk1 : state_at_round nodes oracle p_value set_order (S k) = Ok st1)
        by (simpl; by rewrite Hk).
      destruct (IH _ _ Hk1 Hrun) as (Hle & Hkf & Hdeg & Hbefore).
      split_and!; [lia | lia | done | done |].
      intros j st_j Hj Hstj. destruct (decide (j = k)) as [-> | Hne].
      * rewrite Hk in Hstj. inversion Hstj; subst. done.
      * apply Hbefore; [lia | done].
Qed.

Lemma skeleton_loop_more_fuel fuel fuel' k st r :
  fuel <= fuel' ->
  skeleton_loop nodes oracle p_value set_order fuel k st = Some r ->
  skeleton_loop nodes oracle p_value set_order fuel' k st = Some r.
Proof.
  revert fuel' k st. induction fuel as [|fuel IH]; intros fuel' k st Hle Hrun.
  - simpl in Hrun.
    destruct (all_degrees_below nodes k (graph st)) as [[|]|e] eqn:Hd;
      try discriminate; destruct fuel'; simpl; by rewrite Hd.
  - destruct fuel' as [|fuel']; [lia|]. simpl in *.
    destruct (all_degrees_below nodes k (graph st)) as [[|]|e]; [done | | done].
    destruct (skeleton_round nodes oracle p_value set_order k st); [|done].
    apply IH; [lia | done].
Qed.

(** Every node has fewer neighbours than there are variables. *)
Lemma degree_bound (g : UndirectedGraph node) n :
  NoDup nodes ->
  ug_nodes g = nodes ->
  ug_adj g ⊆ ug_adj (complete_graph nodes) ->
  n ∈ nodes ->
  length (neighbors g n) < length nodes.
Proof.
  intros Hnd Hnodes Hsub Hn. unfold neighbors. rewrite Hnodes.
  apply (length_filter_lt _ _ n); [done|].
  intros Hloop. apply Hsub in Hloop.
  apply complete_graph_spec in Hloop as (_ & _ & Hne); done.
Qed.

Lemma degrees_below_length (g : UndirectedGraph node) k :
  NoDup nodes ->
  ug_nodes g = nodes ->
  ug_adj g ⊆ ug_adj (complete_graph nodes) ->
  length nodes <= k ->
  degrees_below nodes k g = true.
Proof.
  intros Hnd Hnodes Hsub Hk. unfold degrees_below.
  apply forallb_forall. intros n Hn. apply Nat.ltb_lt.
  apply list_elem_of_In in Hn.
  pose proof (degree_bound g n Hnd Hnodes Hsub Hn). lia.
Qed.

Lemma skeleton_loop_terminates fuel k st :
  NoDup nodes ->
  ug_nodes (graph st) = nodes ->
  ug_adj (graph st) ⊆ ug_adj (complete_graph nodes) ->
  length nodes <= k + fuel ->
  exists r, skeleton_loop nodes oracle p_value set_order fuel k st = Some r.
Proof.
  intros Hnd. revert k st. induction fuel as [|fuel IH]; intros k st Hn Hsub Hk; simpl.
  - rewrite all_degrees_below_Ok by (by rewrite Hn).
    rewrite degrees_below_length; [eauto | done | done | done | lia].
  - rewrite all_degrees_below_Ok by (by rewrite Hn).
    destruct (degrees_below nodes k (graph st)); [eauto|].
    destruct (skeleton_round nodes oracle p_value set_order k st) as [st1|e] eqn:Hr;
      [|eauto].
    apply skeleton_round_shrinks in Hr as [Hn1 Hsub1].
    apply IH; [congruence | by etrans | lia].
Qed.

End Skeleton_properties.

(** ** What the skeleton search maintains *)

Section Skeleton_invariant.
Context {node : Type} `{Countable node}.
Variable nodes : list node.
Variable oracle : node -> node -> list node -> result float.
Variable p_value : float.
Variable set_order : list node -> list node.

Implicit Types (st : skeleton_state node) (n m u v : node) (k : nat).

Lemma skeleton_init_inv :
  NoDup nodes -> length nodes ≠ 1 ->
  skeleton_inv nodes oracle p_value set_order (skeleton_init nodes).
Proof.
  intros Hnd Hlen. split; simpl.
  - by apply complete_graph_nodes.
  - done.
  - apply complete_graph_sym.
  - intros u v Huv. rewrite lookup_empty. split; [done | by intros [? ?]].
  - intros key s. by rewrite lookup_empty.
  - intros l1 l2 k n m s Heq. by destruct l1.
Qed.

(** A recorded pair is not adjacent, so it differs from an adjacent one. *)
Lemma recorded_pair_ne st n m n0 m0 :
  (forall u v, (u, v) ∈ ug_adj (graph st) -> (v, u) ∈ ug_adj (graph st)) ->
  (n, m) ∈ ug_adj (graph st) ->
  (n0, m0) ∉ ug_adj (graph st) ->
  frozenset2 n m ≠ frozenset2 n0 m0.
Proof.
  intros Hsym Hin Hnotin Heq. unfold frozenset2 in Heq.
  apply frozenset2_eq in Heq as [[-> ->] | [-> ->]]; [done|].
  by apply Hnotin, Hsym.
Qed.

(** Tests of a pair that is still adjacent keep the invariant. *)
Lemma skeleton_inv_tested st n m ts :
  skeleton_inv nodes oracle p_value set_order st ->
  (n, m) ∈ ug_adj (graph st) ->
  Forall (fun e => ~ is_recorded e /\ event_pair e = frozenset2 n m) ts ->
  skeleton_inv nodes oracle p_value set_order
    {| graph := graph st; seperating_sets := seperating_sets st;
       trace := trace st ++ ts |}.
Proof.
  intros [Hn Hsub Hsym Hkeys Hdom Hrec] Hnm Hts. split; simpl; try done.
  - intros key s Hkey. destruct (Hdom key s Hkey) as (k & n0 & m0 & -> & Hin).
    exists k, n0, m0. split; [done|]. apply elem_of_app. by left.
  - intros l1 l2 k n0 m0 s Heq.
    apply app_eq_split_snoc in Heq as (l2' & Hold & ->).
    + destruct (Hrec _ _ _ _ _ _ Hold) as (Hna & Hs & Hlater & Hfirst).
      split_and!; try done.
      intros e He. apply elem_of_app in He as [He | He]; [by apply Hlater|].
      rewrite Forall_forall in Hts. destruct (Hts e He) as [_ ->].
      by apply (recorded_pair_ne st).
    + intros Hin. rewrite Forall_forall in Hts.
      destruct (Hts _ Hin) as [Hnr _]. by apply Hnr.
Qed.

(** Lines 214-215 after a test that passed keep the invariant. *)
Lemma skeleton_inv_recorded st k n m s :
  skeleton_inv nodes oracle p_value set_order st ->
  (n, m) ∈ ug_adj (graph st) ->
  first_passing oracle p_value set_order (graph st) k n m s (trace st) ->
  skeleton_inv nodes oracle p_value set_order
    {| graph := remove_edge (graph st) n m;
       seperating_sets := <[frozenset2 n m := s]> (seperating_sets st);
       trace := trace st ++ [Recorded k n m s] |}.
Proof.
  intros [Hn Hsub Hsym Hkeys Hdom Hrec] Hnm Hfirst. split; simpl.
  - done.
  - set_solver.
  - intros u v. rewrite !elem_of_difference. intros [Huv Hne].
    split; [by apply Hsym | set_solver].
  - intros u v Huv.
    destruct (decide (frozenset2 u v = frozenset2 n m)) as [Heq | Hne].
    + rewrite Heq, lookup_insert_eq. split; [eauto | intros _].
      unfold frozenset2 in Heq.
      apply frozenset2_eq in Heq as [[-> ->] | [-> ->]]; set_solver.
    + rewrite lookup_insert_ne by done. rewrite <- Hkeys by done.
      rewrite elem_of_difference. split; [|tauto].
      intros Hnot Hin. apply Hnot. split; [done|].
      intros Hin'. apply Hne. unfold frozenset2.
      apply elem_of_union in Hin' as [Hin' | Hin'];
        apply elem_of_singleton in Hin'; inversion Hin'; subst;
        [done | apply frozenset2_comm].
  - intros key s0 Hkey.
    destruct (decide (frozenset2 n m = key)) as [<- | Hne].
    + rewrite lookup_insert_eq in Hkey. inversion Hkey; subst.
      exists k, n, m. split; [done|]. apply elem_of_app. right. by left.
    + rewrite lookup_insert_ne in Hkey by done.
      destruct (Hdom key s0 Hkey) as (k0 & n0 & m0 & -> & Hin).
      exists k0, n0, m0. split; [done|]. apply elem_of_app. by left.
  - intros l1 l2 k0 n0 m0 s0 Heq.
    destruct l2 as [|e l2 _] using rev_ind.
    + apply app_inj_tail in Heq as [Hl1 Hev]. inversion Hev; subst.
      split_and!.
      * set_solver.
      * by rewrite lookup_insert_eq.
      * intros e He. by apply elem_of_nil in He.
      * exists (graph st). split_and!; [done | set_solver | done | done | done].
    + rewrite app_comm_cons, app_assoc in Heq.
      apply app_inj_tail in Heq as [Hold <-].
      destruct (Hrec _ _ _ _ _ _ Hold) as (Hna & Hs & Hlater & Hfirst0).
      assert (Hne : frozenset2 n m ≠ frozenset2 n0 m0)
        by (by apply (recorded_pair_ne st)).
      split_and!.
      * set_solver.
      * by rewrite lookup_insert_ne.
      * intros e He. apply elem_of_app in He as [He | He]; [by apply Hlater|].
        apply list_elem_of_singleton in He. by subst.
      * destruct Hfirst0 as (g & Hg1 & Hg2 & Hg3 & Hg4 & Hg5).
        exists g. split_and!; [done | set_solver | done | done | done].
Qed.

Lemma try_neighbor_inv k n m st st' :
  skeleton_inv nodes oracle p_value set_order st ->
  (n, m) ∈ ug_adj (graph st) ->
  try_neighbor oracle p_value set_order k n m st = Ok st' ->
  skeleton_inv nodes oracle p_value set_order st'.
Proof.
  intros Hinv Hnm Hrun. apply try_neighbor_spec in Hrun.
  assert (Htests : forall l,
    Forall (fun e => ~ is_recorded e /\ event_pair e = frozenset2 n m)
           (map (Tested k n m) l)).
  { intros l. apply Forall_forall. intros e He.
    apply list_elem_of_fmap in He as (s & -> & _). simpl. tauto. }
  destruct Hrun as [(pre & s & post & Hc & Hpre & Hs & Hg & Hseps & Htr)
                   | (_ & Hg & Hseps & Htr)].
  - pose proof (skeleton_inv_tested st n m (map (Tested k n m) (pre ++ [s]))
                  Hinv Hnm (Htests _)) as Hinv1.
    pose proof (skeleton_inv_recorded _ k n m s Hinv1 Hnm) as Hinv2.
    simpl in Hinv2. rewrite map_app in Hinv2. simpl in Hinv2.
    destruct st' as [g' seps' tr']; simpl in *; subst.
    rewrite <- !app_assoc in Hinv2. simpl in Hinv2. apply Hinv2.
    by exists pre, post, (trace st).
  - destruct st' as [g' seps' tr']; simpl in *; subst.
    apply (skeleton_inv_tested st n m); [done | done | apply Htests].
Qed.

Lemma try_neighbor_keeps_others k n m m' st st' :
  m' ≠ m ->
  (n, m') ∈ ug_adj (graph st) ->
  try_neighbor oracle p_value set_order k n m st = Ok st' ->
  (n, m') ∈ ug_adj (graph st').
Proof.
  intros Hne Hin Hrun. apply try_neighbor_spec in Hrun.
  destruct Hrun as [(pre & s & post & _ & _ & _ & -> & _) | (_ & -> & _)]; [|done].
  apply elem_of_remove_edge. split_and!; [done | congruence |].
  intros Heq. inversion Heq; subst. done.
Qed.

Lemma visit_loop_inv k n ms st st' :
  NoDup ms ->
  (forall m, m ∈ ms -> (n, m) ∈ ug_adj (graph st)) ->
  skeleton_inv nodes oracle p_value set_order st ->
  for_each (try_neighbor oracle p_value set_order k n) ms st = Ok st' ->
  skeleton_inv nodes oracle p_value set_order st'.
Proof.
  revert st. induction ms as [|m ms IH]; intros st Hnd Hadj Hinv Hrun; simpl in Hrun.
  - by inversion Hrun; subst.
  - apply bind_Ok_inv in Hrun as (st1 & Hstep & Hrest).
    apply NoDup_cons in Hnd as [Hm Hnd].
    apply (IH st1); [done | | | done].
    + intros m' Hm'. apply (try_neighbor_keeps_others k n m m' st); [| |done].
      * intros ->. done.
      * apply Hadj. by right.
    + apply (try_neighbor_inv k n m st); [done | | done]. apply Hadj. by left.
Qed.

Lemma visit_node_inv k n st st' :
  NoDup nodes ->
  skeleton_inv nodes oracle p_value set_order st ->
  visit_node oracle p_value set_order k n st = Ok st' ->
  skeleton_inv nodes oracle p_value set_order st'.
Proof.
  intros Hnd Hinv Hrun. apply visit_node_Ok_inv in Hrun as [_ Hrun]. revert Hrun.
  apply visit_loop_inv; [| |done].
  - apply NoDup_neighbors. by rewrite (inv_nodes _ _ _ _ _ Hinv).
  - intros m Hm. by apply elem_of_neighbors in Hm as [? _].
Qed.

Lemma skeleton_round_inv k st st' :
  NoDup nodes ->
  skeleton_inv nodes oracle p_value set_order st ->
  skeleton_round nodes oracle p_value set_order k st = Ok st' ->
  skeleton_inv nodes oracle p_value set_order st'.
Proof.
  intros Hnd Hinv. unfold skeleton_round.
  apply (for_each_invariant (skeleton_inv nodes oracle p_value set_order)); [|done].
  intros n t t' _. by apply visit_node_inv.
Qed.

Lemma skeleton_loop_inv fuel k st st' kf :
  NoDup nodes ->
  skeleton_inv nodes oracle p_value set_order st ->
  skeleton_loop nodes oracle p_value set_order fuel k st = Some (Ok (st', kf)) ->
  skeleton_inv nodes oracle p_value set_order st'.
Proof.
  intros Hnd. revert k st.
  induction fuel as [|fuel IH]; intros k st Hinv Hrun; simpl in Hrun.
  - destruct (all_degrees_below nodes k (graph st)) as [[|]|e]; try discriminate.
    by inversion Hrun; subst.
  - destruct (all_degrees_below nodes k (graph st)) as [[|]|e]; [| |discriminate].
    + by inversion Hrun; subst.
    + destruct (skeleton_round nodes oracle p_value set_order k st) as [st1|e] eqn:Hr;
        [|discriminate].
      apply (IH (S k) st1); [|done]. by apply (skeleton_round_inv k st).
Qed.

(** With exactly one variable, the graph of line 203 has no node and the
    condition of the loop raises at its first evaluation. *)
Lemma estimate_skeleton_run_single (a : node) fuel :
  nodes = [a] ->
  estimate_skeleton_run nodes oracle p_value set_order fuel
  = Some (Raise NetworkXError).
Proof.
  intros Hnodes. unfold estimate_skeleton_run.
  assert (Hc : all_degrees_below nodes 0 (graph (skeleton_init nodes))
               = Raise NetworkXError).
  { apply all_degrees_below_Raise. exists a. rewrite Hnodes. split; [by left|].
    apply not_elem_of_nil. }
  destruct fuel; cbn [skeleton_loop]; by rewrite Hc.
Qed.

Lemma estimate_skeleton_run_length fuel r :
  estimate_skeleton_run nodes oracle p_value set_order fuel = Some (Ok r) ->
  length nodes ≠ 1.
Proof.
  intros Hrun Hlen.
  assert (Hone : exists a, nodes = [a]).
  { destruct nodes as [|a [|b l]]; [done | by exists a | done]. }
  destruct Hone as [a Ha].
  rewrite (estimate_skeleton_run_single a fuel Ha) in Hrun. discriminate.
Qed.

Lemma estimate_skeleton_run_inv fuel st k :
  NoDup nodes ->
  estimate_skeleton_run nodes oracle p_value set_order fuel = Some (Ok (st, k)) ->
  skeleton_inv nodes oracle p_value set_order st.
Proof.
  intros Hnd Hrun.
  pose proof (estimate_skeleton_run_length fuel (st, k) Hrun) as Hlen.
  revert Hrun. apply skeleton_loop_inv; [done | by apply skeleton_init_inv].
Qed.

End Skeleton_invariant.

(** ** More on the loops *)

(** The iteration of an item of a loop that ran to its end. *)
Lemma for_each_split {A S : Type} (body : A -> S -> result S) (xs : list A) (x : A)
    (s s' : S) :
  x ∈ xs -> for_each body xs s = Ok s' ->
  exists l1 l2 t t',
    xs = l1 ++ x :: l2
    /\ for_each body l1 s = Ok t
    /\ body x t = Ok t'
    /\ for_each body l2 t' = Ok s'.
Proof.
  intros Hx Hrun. apply list_elem_of_split in Hx as (l1 & l2 & ->).
  rewrite for_each_app in Hrun.
  apply bind_Ok_inv in Hrun as (t & Hl1 & Hrest). simpl in Hrest.
  apply bind_Ok_inv in Hrest as (t' & Hbody & Hl2).
  by exists l1, l2, t, t'.
Qed.

(** A loop that raises does so in the iteration of one of its items. *)
Lemma for_each_raises {A S : Type} (body : A -> S -> result S) (xs : list A)
    (s : S) (e : exn) :
  for_each body xs s = Raise e ->
  exists l1 x l2 t,
    xs = l1 ++ x :: l2 /\ for_each body l1 s = Ok t /\ body x t = Raise e.
Proof.
  revert s. induction xs as [|x xs IH]; intros s Hrun; simpl in Hrun; [discriminate|].
  destruct (body x s) as [s1|e1] eqn:Hx; simpl in Hrun.
  - destruct (IH _ Hrun) as (l1 & y & l2 & t & -> & Hl1 & Hy).
    exists (x :: l1), y, l2, t. split_and!; [done | | done].
    simpl. by rewrite Hx.
  - inversion Hrun; subst. by exists [], x, xs, s.
Qed.

(** ** More on combinations *)

Lemma combinations_sublist {A : Type} (l : list A) (k : nat) (s : list A) :
  s ∈ combinations l k -> s `sublist_of` l /\ length s = k.
Proof.
  revert k s. induction l as [|x l IH]; intros k s Hs.
  - destruct k; simpl in Hs.
    + apply list_elem_of_singleton in Hs as ->. split; [constructor | done].
    + by apply elem_of_nil in Hs.
  - destruct k as [|k]; simpl in Hs.
    + apply list_elem_of_singleton in Hs as ->. split; [apply sublist_nil_l | done].
    + apply elem_of_app in Hs as [Hs | Hs].
      * apply list_elem_of_fmap in Hs as (s0 & -> & Hs0).
        apply IH in Hs0 as [Hsub Hlen]. split; [by constructor | simpl; lia].
      * apply IH in Hs as [Hsub Hlen]. split; [by constructor | done].
Qed.

Lemma sublist_combinations {A : Type} (l s : list A) :
  s `sublist_of` l -> s ∈ combinations l (length s).
Proof.
  induction 1 as [|x s l Hsub IH|x s l Hsub IH]; simpl.
  - by left.
  - apply elem_of_app. left. apply list_elem_of_fmap. by exists s.
  - destruct s as [|y s]; simpl in *; [by left|].
    apply elem_of_app. by right.
Qed.

(** Every set of [k] elements of [l] is among the combinations, in the
    order its elements have in [l]. *)
Lemma combinations_complete {A : Type} `{EqDecision A} (l s : list A) :
  NoDup l -> NoDup s -> (forall x, x ∈ s -> x ∈ l) ->
  exists s', s' ∈ combinations l (length s) /\ s' ≡ₚ s.
Proof.
  intros Hl Hs Hsub.
  assert (Hperm : filter (.∈ s) l ≡ₚ s).
  { apply NoDup_Permutation; [by apply NoDup_filter | done |].
    intros x. rewrite list_elem_of_filter. naive_solver. }
  exists (filter (.∈ s) l). split; [|done].
  rewrite <- (Permutation_length Hperm).
  apply sublist_combinations, sublist_filter.
Qed.

(** ** The skeleton search: its tests *)

Section Skeleton_tests.
Context {node : Type} `{Countable node}.
Variable nodes : list node.
Variable oracle : node -> node -> list node -> result float.
Variable p_value : float.
Variable set_order : list node -> list node.

Implicit Types (st : skeleton_state node) (n m u v : node) (k : nat).
Implicit Types (g : UndirectedGraph node).

(** A state that comes after another: the graph has the same nodes and no
    new edge, and the trace has grown. *)
Lemma try_neighbor_after k n m st st' :
  try_neighbor oracle p_value set_order k n m st = Ok st' ->
  ug_nodes (graph st') = ug_nodes (graph st)
  /\ ug_adj (graph st') ⊆ ug_adj (graph st)
  /\ trace st `prefix_of` trace st'.
Proof.
  intros Hrun. destruct (try_neighbor_shrinks _ _ _ _ _ _ _ _ Hrun) as [Hn Ha].
  split_and!; [done | done |].
  apply try_neighbor_spec in Hrun.
  destruct Hrun as [(pre & s & post & _ & _ & _ & _ & _ & ->) | (_ & _ & _ & ->)];
    by eexists.
Qed.

Lemma visit_loop_after k n ms st st' :
  for_each (try_neighbor oracle p_value set_order k n) ms st = Ok st' ->
  ug_nodes (graph st') = ug_nodes (graph st)
  /\ ug_adj (graph st') ⊆ ug_adj (graph st)
  /\ trace st `prefix_of` trace st'.
Proof.
  apply (for_each_invariant
           (fun t => ug_nodes (graph t) = ug_nodes (graph st)
                     /\ ug_adj (graph t) ⊆ ug_adj (graph st)
                     /\ trace st `prefix_of` trace t)); [|done].
  intros m t t' _ (Hn & Ha & Ht) Hstep.
  apply try_neighbor_after in Hstep as (Hn' & Ha' & Ht').
  split_and!; [congruence | by etrans | by etrans].
Qed.

Lemma round_loop_after k ns st st' :
  for_each (visit_node oracle p_value set_order k) ns st = Ok st' ->
  ug_nodes (graph st') = ug_nodes (graph st)
  /\ ug_adj (graph st') ⊆ ug_adj (graph st)
  /\ trace st `prefix_of` trace st'.
Proof.
  apply (for_each_invariant
           (fun t => ug_nodes (graph t) = ug_nodes (graph st)
                     /\ ug_adj (graph t) ⊆ ug_adj (graph st)
                     /\ trace st `prefix_of` trace t)); [|done].
  intros n t t' _ (Hn & Ha & Ht) Hstep.
  apply visit_node_Ok_inv in Hstep as [_ Hstep].
  apply visit_loop_after in Hstep as (Hn' & Ha' & Ht').
  split_and!; [congruence | by etrans | by etrans].
Qed.

Lemma state_at_round_after j j' st st' :
  j <= j' ->
  state_at_round nodes oracle p_value set_order j = Ok st ->
  state_at_round nodes oracle p_value set_order j' = Ok st' ->
  ug_nodes (graph st') = ug_nodes (graph st)
  /\ ug_adj (graph st') ⊆ ug_adj (graph st)
  /\ trace st `prefix_of` trace st'.
Proof.
  intros Hle Hj. revert st'. induction Hle as [|j' Hle IH]; intros st' Hj'.
  - rewrite Hj in Hj'. by inversion Hj'.
  - simpl in Hj'. apply bind_Ok_inv in Hj' as (st1 & Hst1 & Hround).
    apply round_loop_after in Hround as (Hn' & Ha' & Ht').
    destruct (IH st1 Hst1) as (Hn & Ha & Ht).
    split_and!; [congruence | by etrans | by etrans].
Qed.

(** The rounds before one that started have started too. *)
Lemma state_at_round_defined j j' st' :
  j <= j' ->
  state_at_round nodes oracle p_value set_order j' = Ok st' ->
  exists st, state_at_round nodes oracle p_value set_order j = Ok st.
Proof.
  induction 1 as [|j' Hle IH] in st' |- *; intros Hj'; [eauto|].
  simpl in Hj'. apply bind_Ok_inv in Hj' as (st1 & Hst1 & _). by apply (IH st1).
Qed.

Lemma state_at_round_nodes j st :
  NoDup nodes -> length nodes ≠ 1 ->
  state_at_round nodes oracle p_value set_order j = Ok st ->
  ug_nodes (graph st) = nodes
  /\ ug_adj (graph st) ⊆ ug_adj (complete_graph nodes).
Proof.
  intros Hnd Hlen Hj.
  destruct (state_at_round_after 0 j (skeleton_init nodes) st) as (Hn & Ha & _);
    [lia | done | done |].
  split; [|done]. rewrite Hn. simpl. by apply complete_graph_nodes.
Qed.

(** *** The candidates of a test *)

(** [set(a) - set(b)] holds each element of [a] that is not in [b], once. *)
Lemma set_difference_spec (a b : list node) :
  (forall l, set_order l ≡ₚ l) ->
  NoDup (set_difference set_order a b)
  /\ forall z, z ∈ set_difference set_order a b <-> z ∈ a /\ z ∉ b.
Proof.
  intros Hperm. unfold set_difference. split.
  - rewrite Hperm. apply NoDup_list_difference, NoDup_remove_dups.
  - intros z. by rewrite Hperm, list_elem_of_difference, elem_of_remove_dups.
Qed.

(** A combination of [k] elements of a list of distinct elements. *)
Lemma combination_elements {A : Type} (l s : list A) k :
  NoDup l -> s ∈ combinations l k ->
  length s = k /\ NoDup s /\ forall z, z ∈ s -> z ∈ l.
Proof.
  intros Hnd Hs. apply combinations_sublist in Hs as [Hsl Hlen].
  split_and!; [done | |].
  - eapply sublist_NoDup; [|exact Hsl]. done.
  - intros z Hz. by apply (sublist_subseteq _ _ Hsl).
Qed.

(** The candidate sets for [n] and [m] in a graph of the search: sets of
    [k] distinct variables other than [n] and [m]. *)
Lemma candidate_well_formed g k n m s :
  NoDup nodes ->
  (forall l, set_order l ≡ₚ l) ->
  ug_nodes g = nodes ->
  ug_adj g ⊆ ug_adj (complete_graph nodes) ->
  s ∈ combinations (set_difference set_order (neighbors g n) [m]) k ->
  length s = k /\ NoDup s /\ (n ∉ s) /\ (m ∉ s)
  /\ (forall z, z ∈ s -> z ∈ neighbors g n).
Proof.
  intros Hnd Hperm Hn Hsub Hs.
  apply combinations_sublist in Hs as [Hsl Hlen].
  assert (Hin : forall z, z ∈ s -> z ∈ neighbors g n /\ z ≠ m).
  { intros z Hz. apply (sublist_subseteq _ _ Hsl) in Hz.
    unfold set_difference in Hz.
    rewrite Hperm, list_elem_of_difference, elem_of_remove_dups in Hz.
    destruct Hz as [Hz Hm]. split; [done|]. intros ->. apply Hm. by left. }
  split_and!.
  - done.
  - eapply sublist_NoDup; [|exact Hsl].
    unfold set_difference. rewrite Hperm.
    apply NoDup_list_difference, NoDup_remove_dups.
  - intros Hz. apply Hin in Hz as [Hz _].
    apply elem_of_neighbors in Hz as [Hz _].
    apply Hsub, complete_graph_spec in Hz as (_ & _ & Hne); done.
  - intros Hz. by apply Hin in Hz as [_ Hz].
  - intros z Hz. by apply Hin in Hz as [Hz _].
Qed.

Lemma from_candidates_mono j j' e :
  j <= j' ->
  from_candidates nodes oracle set_order j e ->
  from_candidates nodes oracle set_order j' e.
Proof.
  intros Hle. destruct e as [k n m s|k n m s]; simpl;
    intros (Hk & Hrest); (split; [lia | done]).
Qed.

Lemma try_neighbor_from_candidates k n m st st' :
  ug_nodes (graph st) = nodes ->
  ug_adj (graph st) ⊆ ug_adj (complete_graph nodes) ->
  (n, m) ∈ ug_adj (complete_graph nodes) ->
  Forall (from_candidates nodes oracle set_order (S k)) (trace st) ->
  try_neighbor oracle p_value set_order k n m st = Ok st' ->
  Forall (from_candidates nodes oracle set_order (S k)) (trace st').
Proof.
  intros Hn Hsub Hnm Htr Hrun. apply try_neighbor_spec in Hrun.
  assert (Hcand : forall s,
    s ∈ combinations (set_difference set_order (neighbors (graph st) n) [m]) k ->
    (exists p, oracle n m s = Ok p) ->
    from_candidates nodes oracle set_order (S k) (Tested k n m s)
    /\ from_candidates nodes oracle set_order (S k) (Recorded k n m s)).
  { intros s Hs Hp. split; simpl;
      (split_and!; [lia | done | done | by exists (graph st)]). }
  assert (Hfails : forall l,
    Forall (fails oracle p_value n m) l ->
    (forall s, s ∈ l ->
       s ∈ combinations (set_difference set_order (neighbors (graph st) n) [m]) k) ->
    Forall (from_candidates nodes oracle set_order (S k)) (map (Tested k n m) l)).
  { intros l Hl Hin. apply Forall_forall. intros e He.
    apply list_elem_of_fmap in He as (s & -> & Hs).
    rewrite Forall_forall in Hl. destruct (Hl s Hs) as (p & Hp & _).
    apply Hcand; [by apply Hin | by exists p]. }
  destruct Hrun as [(pre & s & post & Hc & Hpre & (p & Hp & _) & _ & _ & ->)
                   | (Hall & _ & _ & ->)].
  - rewrite !Forall_app. split_and!; [done | |].
    + apply Hfails; [done|]. intros c Hcin. rewrite Hc.
      apply elem_of_app. by left.
    + assert (Hs : s ∈ combinations
                         (set_difference set_order (neighbors (graph st) n) [m]) k).
      { rewrite Hc. apply elem_of_app. right. by left. }
      destruct (Hcand s Hs) as [Ht Hr]; [by exists p|].
      constructor; [exact Ht|]. constructor; [exact Hr|]. constructor.
  - rewrite Forall_app. split; [done|]. by apply Hfails.
Qed.

Lemma visit_node_from_candidates k n st st' :
  NoDup nodes ->
  ug_nodes (graph st) = nodes ->
  ug_adj (graph st) ⊆ ug_adj (complete_graph nodes) ->
  Forall (from_candidates nodes oracle set_order (S k)) (trace st) ->
  visit_node oracle p_value set_order k n st = Ok st' ->
  Forall (from_candidates nodes oracle set_order (S k)) (trace st').
Proof.
  intros Hnd Hn Hsub Htr Hrun. apply visit_node_Ok_inv in Hrun as [_ Hrun].
  cut (ug_nodes (graph st') = nodes
       /\ ug_adj (graph st') ⊆ ug_adj (complete_graph nodes)
       /\ Forall (from_candidates nodes oracle set_order (S k)) (trace st')); [tauto|].
  revert Hrun.
  apply (for_each_invariant
           (fun t => ug_nodes (graph t) = nodes
                     /\ ug_adj (graph t) ⊆ ug_adj (complete_graph nodes)
                     /\ Forall (from_candidates nodes oracle set_order (S k))
                               (trace t))); [|done].
  intros m t t' Hm (Hn1 & Hsub1 & Htr1) Hstep.
  destruct (try_neighbor_after _ _ _ _ _ Hstep) as (Hn2 & Hsub2 & _).
  split_and!; [congruence | by etrans |].
  apply (try_neighbor_from_candidates k n m t); try done.
  apply elem_of_neighbors in Hm as [Hm _]. by apply Hsub.
Qed.

Lemma skeleton_round_from_candidates k st st' :
  NoDup nodes ->
  ug_nodes (graph st) = nodes ->
  ug_adj (graph st) ⊆ ug_adj (complete_graph nodes) ->
  Forall (from_candidates nodes oracle set_order k) (trace st) ->
  skeleton_round nodes oracle p_value set_order k st = Ok st' ->
  Forall (from_candidates nodes oracle set_order (S k)) (trace st').
Proof.
  intros Hnd Hn Hsub Htr Hrun. unfold skeleton_round in Hrun.
  cut (ug_nodes (graph st') = nodes
       /\ ug_adj (graph st') ⊆ ug_adj (complete_graph nodes)
       /\ Forall (from_candidates nodes oracle set_order (S k)) (trace st')); [tauto|].
  revert Hrun.
  apply (for_each_invariant
           (fun t => ug_nodes (graph t) = nodes
                     /\ ug_adj (graph t) ⊆ ug_adj (complete_graph nodes)
                     /\ Forall (from_candidates nodes oracle set_order (S k)) (trace t))).
  - intros n t t' _ (Hn1 & Hsub1 & Htr1) Hstep.
    destruct (visit_node_shrinks _ _ _ _ _ _ _ Hstep) as (Hn2 & Hsub2).
    split_and!; [congruence | by etrans |].
    by apply (visit_node_from_candidates k n t).
  - split_and!; [done | done |].
    eapply Forall_impl; [done|]. intros e. apply from_candidates_mono. lia.
Qed.

Lemma state_at_round_from_candidates j st :
  NoDup nodes -> length nodes ≠ 1 ->
  state_at_round nodes oracle p_value set_order j = Ok st ->
  Forall (from_candidates nodes oracle set_order j) (trace st).
Proof.
  intros Hnd Hlen. revert st. induction j as [|j IH]; intros st Hj; simpl in Hj.
  - inversion Hj; subst. constructor.
  - apply bind_Ok_inv in Hj as (st1 & Hst1 & Hround).
    destruct (state_at_round_nodes _ _ Hnd Hlen Hst1) as [Hn Hsub].
    by apply (skeleton_round_from_candidates j st1); [| | |apply IH|].
Qed.

End Skeleton_tests.

(** *** The complete graph *)

Section Complete_graph.
Context {node : Type} `{Countable node}.

(** The degree of a node in the complete graph. *)
Lemma complete_graph_degree (nodes : list node) (n : node) :
  NoDup nodes -> n ∈ nodes ->
  S (length (neighbors (complete_graph nodes) n)) = length nodes.
Proof.
  intros Hnd Hn.
  destruct (decide (length nodes = 1)) as [Hone | Hlen].
  { by destruct nodes as [|a [|b l]]. }
  unfold neighbors. rewrite (complete_graph_nodes nodes Hnd Hlen).
  assert (Hfilter : forall l : list node,
    filter (fun m => (n, m) ∈ ug_adj (complete_graph nodes)) l
    = filter (fun m => m ∈ nodes /\ n ≠ m) l).
  { intros l. apply list_filter_iff. intros m.
    rewrite complete_graph_spec by done. tauto. }
  rewrite Hfilter.
  apply list_elem_of_split in Hn as (l1 & l2 & Heq).
  assert (Hl1 : (n ∉ l1) /\ (n ∉ l2)).
  { rewrite Heq in Hnd. apply NoDup_app in Hnd as (_ & Hl1 & Hnd).
    apply NoDup_cons in Hnd as [Hl2 _]. split; [|done].
    intros Hin. apply (Hl1 n Hin). by left. }
  destruct Hl1 as [Hl1 Hl2].
  assert (Hall : forall l : list node, (forall m, m ∈ l -> m ∈ nodes) -> n ∉ l ->
    filter (fun m => m ∈ nodes /\ n ≠ m) l = l).
  { intros l Hin Hnl. induction l as [|a l IH]; [done|].
    rewrite filter_cons_True.
    - f_equal. apply IH.
      + intros m Hm. apply Hin. by right.
      + intros Hm. apply Hnl. by right.
    - split; [apply Hin; by left|]. intros ->. apply Hnl. by left. }
  rewrite Heq at 1. rewrite filter_app, filter_cons_False by tauto.
  rewrite !Hall; try done.
  - rewrite Heq, !length_app. simpl. lia.
  - intros m Hm. rewrite Heq. apply elem_of_app. right. by right.
  - intros m Hm. rewrite Heq. apply elem_of_app. by left.
Qed.

End Complete_graph.

(** *** The tests of a round *)

Section Skeleton_rounds.
Context {node : Type} `{Countable node}.
Variable nodes : list node.
Variable oracle : node -> node -> list node -> result float.
Variable p_value : float.
Variable set_order : list node -> list node.

Implicit Types (st : skeleton_state node) (n m u v : node) (k : nat).
Implicit Types (g : UndirectedGraph node).

(** An edge that a round leaves was tried in that round, from each of its
    ends: every candidate of the graph of that moment was tested and
    failed. *)
Lemma round_tests_remaining k st st' n m :
  ug_nodes (graph st) = nodes ->
  n ∈ nodes -> m ∈ nodes ->
  skeleton_round nodes oracle p_value set_order k st = Ok st' ->
  (n, m) ∈ ug_adj (graph st') ->
  exists g,
    ug_nodes g = nodes
    /\ ug_adj (graph st') ⊆ ug_adj g
    /\ ug_adj g ⊆ ug_adj (graph st)
    /\ Forall (fails oracle p_value n m)
              (combinations (set_difference set_order (neighbors g n) [m]) k)
    /\ forall s,
         s ∈ combinations (set_difference set_order (neighbors g n) [m]) k ->
         Tested k n m s ∈ trace st'.
Proof.
  intros Hnodes Hn Hm Hrun Hedge. unfold skeleton_round in Hrun.
  destruct (for_each_split _ _ _ _ _ Hn Hrun)
    as (l1 & l2 & t & t' & _ & Hl1 & Hvisit & Hl2).
  apply round_loop_after in Hl1 as (Hn1 & Ha1 & _).
  apply round_loop_after in Hl2 as (Hn2 & Ha2 & Ht2).
  pose proof Hvisit as Hvisit'.
  apply visit_node_shrinks in Hvisit' as [Hnv Hav].
  apply visit_node_Ok_inv in Hvisit as [_ Hvisit].
  assert (Hmt : m ∈ neighbors (graph t) n).
  { apply elem_of_neighbors. split; [by apply Hav, Ha2 | congruence]. }
  destruct (for_each_split _ _ _ _ _ Hmt Hvisit)
    as (a & b & u & u' & _ & Ha & Htry & Hb).
  apply visit_loop_after in Ha as (Hnu & Hau & _).
  apply visit_loop_after in Hb as (Hnu' & Hau' & Htu').
  apply try_neighbor_spec in Htry.
  destruct Htry as [(pre & s & post & _ & _ & _ & Hg & _) | (Hall & Hg & _ & Htr)].
  - exfalso. assert (Hin : (n, m) ∈ ug_adj (graph u')) by (by apply Hau', Ha2).
    rewrite Hg in Hin. apply elem_of_remove_edge in Hin as (_ & Hne & _). done.
  - exists (graph u). split_and!.
    + congruence.
    + rewrite <- Hg. by etrans.
    + by etrans.
    + done.
    + intros s Hs. apply (elem_of_prefix (trace u')); [|by etrans].
      rewrite Htr. apply elem_of_app. right.
      apply list_elem_of_fmap. by exists s.
Qed.

(** A round raises what one of its tests raises, a test of a candidate for
    two adjacent nodes. *)
Lemma skeleton_round_raises k st e :
  ug_nodes (graph st) = nodes ->
  ug_adj (graph st) ⊆ ug_adj (complete_graph nodes) ->
  skeleton_round nodes oracle p_value set_order k st = Raise e ->
  exists g n m s,
    ug_nodes g = nodes
    /\ ug_adj g ⊆ ug_adj (complete_graph nodes)
    /\ (n, m) ∈ ug_adj (complete_graph nodes)
    /\ s ∈ combinations (set_difference set_order (neighbors g n) [m]) k
    /\ oracle n m s = Raise e.
Proof.
  intros Hnodes Hsub Hrun. unfold skeleton_round in Hrun.
  apply for_each_raises in Hrun as (l1 & n & l2 & t & Hsplit & Hl1 & Hvisit).
  apply round_loop_after in Hl1 as (Hn1 & Ha1 & _).
  rewrite visit_node_unfold in Hvisit.
  2:{ rewrite Hn1, Hnodes, Hsplit. apply elem_of_app. right. by left. }
  apply for_each_raises in Hvisit as (a & m & b & u & Hms & Ha & Htry).
  apply visit_loop_after in Ha as (Hnu & Hau & _).
  assert (Hnm : (n, m) ∈ ug_adj (complete_graph nodes)).
  { assert (Hm : m ∈ neighbors (graph t) n).
    { rewrite Hms. apply elem_of_app. right. by left. }
    apply elem_of_neighbors in Hm as [Hm _]. by apply Hsub, Ha1. }
  unfold try_neighbor in Htry.
  destruct (search_separating_set oracle p_value k n m
              (combinations (set_difference set_order (neighbors (graph u) n) [m]) k)
              (trace u)) as [[r tr]|e'] eqn:Hsearch; simpl in Htry.
  { by destruct r. }
  inversion Htry; subst e'. clear Htry.
  assert (Hcand : exists s,
    s ∈ combinations (set_difference set_order (neighbors (graph u) n) [m]) k
    /\ oracle n m s = Raise e).
  { revert Hsearch. generalize (trace u).
    induction (combinations (set_difference set_order (neighbors (graph u) n) [m]) k)
      as [|c cs IH]; intros tr Hsearch; simpl in Hsearch; [discriminate|].
    destruct (oracle n m c) as [p|e'] eqn:Hp; simpl in Hsearch.
    - destruct (p_value <=? p)%float; [discriminate|].
      destruct (IH _ Hsearch) as (s & Hs & Hraise).
      exists s. split; [by right | done].
    - inversion Hsearch; subst. exists c. split; [by left | done]. }
  destruct Hcand as (s & Hs & Hraise).
  exists (graph u), n, m, s. split_and!; try done.
  - congruence.
  - etrans; [done|]. by etrans.
Qed.

Lemma skeleton_loop_raises fuel k st e :
  ug_nodes (graph st) = nodes ->
  ug_adj (graph st) ⊆ ug_adj (complete_graph nodes) ->
  skeleton_loop nodes oracle p_value set_order fuel k st = Some (Raise e) ->
  exists g j n m s,
    ug_nodes g = nodes
    /\ ug_adj g ⊆ ug_adj (complete_graph nodes)
    /\ (n, m) ∈ ug_adj (complete_graph nodes)
    /\ s ∈ combinations (set_difference set_order (neighbors g n) [m]) j
    /\ oracle n m s = Raise e.
Proof.
  revert k st. induction fuel as [|fuel IH]; intros k st Hn Hsub Hrun; simpl in Hrun;
    rewrite all_degrees_below_Ok in Hrun by (by rewrite Hn).
  - by destruct (degrees_below nodes k (graph st)).
  - destruct (degrees_below nodes k (graph st)); [discriminate|].
    destruct (skeleton_round nodes oracle p_value set_order k st) as [st1|e1] eqn:Hr.
    + apply skeleton_round_shrinks in Hr as [Hn1 Hsub1].
      apply (IH (S k) st1); [congruence | by etrans | done].
    + inversion Hrun; subst e1.
      destruct (skeleton_round_raises k st e Hn Hsub Hr) as (g & n & m & s & Hg).
      by exists g, k, n, m, s.
Qed.

(** The loop gets to every round before which its condition did not stop
    it. *)
Lemma skeleton_loop_reaches fuel k st0 :
  NoDup nodes -> length nodes ≠ 1 ->
  state_at_round nodes oracle p_value set_order k = Ok st0 ->
  (forall j stj,
      j < k -> state_at_round nodes oracle p_value set_order j = Ok stj ->
      degrees_below nodes j (graph stj) = false) ->
  skeleton_loop nodes oracle p_value set_order (k + fuel) 0 (skeleton_init nodes)
  = skeleton_loop nodes oracle p_value set_order fuel k st0.
Proof.
  intros Hnd Hlen. revert st0 fuel.
  induction k as [|k IH]; intros st0 fuel Hst Hbefore.
  - simpl in Hst. by inversion Hst.
  - pose proof Hst as Hst'. simpl in Hst'.
    apply bind_Ok_inv in Hst' as (st1 & Hst1 & Hround).
    replace (S k + fuel) with (k + S fuel) by lia.
    rewrite (IH st1 (S fuel) Hst1).
    2:{ intros j stj Hj. apply Hbefore. lia. }
    destruct (state_at_round_nodes nodes oracle p_value set_order k st1 Hnd Hlen Hst1)
      as [Hn1 _].
    cbn [skeleton_loop].
    rewrite all_degrees_below_Ok by (by rewrite Hn1).
    rewrite (Hbefore k st1) by (done || lia). by rewrite Hround.
Qed.

(** The exception of a test that the search gets to ends the search.  The
    search gets to the test of [n] and [m] given [s] in round [k] when the
    loop has not stopped before that round, the nodes before [n] have been
    visited, the neighbours of [n] before [m] have been tried, and the
    candidates before [s] did not reach the threshold. *)
Lemma reached_test_raises fuel k st0 l1 n l2 t a m b t1 pre s post e :
  NoDup nodes ->
  state_at_round nodes oracle p_value set_order k = Ok st0 ->
  (forall j stj,
      j <= k -> state_at_round nodes oracle p_value set_order j = Ok stj ->
      degrees_below nodes j (graph stj) = false) ->
  k < fuel ->
  nodes = l1 ++ n :: l2 ->
  for_each (visit_node oracle p_value set_order k) l1 st0 = Ok t ->
  neighbors (graph t) n = a ++ m :: b ->
  for_each (try_neighbor oracle p_value set_order k n) a t = Ok t1 ->
  combinations (set_difference set_order (neighbors (graph t1) n) [m]) k
    = pre ++ s :: post ->
  Forall (fails oracle p_value n m) pre ->
  oracle n m s = Raise e ->
  estimate_skeleton_run nodes oracle p_value set_order fuel = Some (Raise e).
Proof.
  intros Hnd Hst0 Hbefore Hfuel Hsplit Hl1 Hms Ha Hcands Hpre Hraise.
  destruct (state_at_round_after nodes oracle p_value set_order 0 k
              (skeleton_init nodes) st0) as (Hn0 & Hsub0 & _); [lia | done | done |].
  destruct (round_loop_after oracle p_value set_order _ _ _ _ Hl1)
    as (Hnt & Hsubt & _).
  destruct (visit_loop_after oracle p_value set_order _ _ _ _ _ Ha)
    as (Hnu & _ & _).
  assert (Hnm : (n, m) ∈ ug_adj (complete_graph nodes)).
  { apply Hsub0, Hsubt.
    assert (Hm : m ∈ neighbors (graph t) n).
    { rewrite Hms. apply elem_of_app. right. by left. }
    by apply elem_of_neighbors in Hm as [? _]. }
  apply complete_graph_spec in Hnm as (Hn & Hm & Hne); [|done].
  assert (Hlen : length nodes ≠ 1).
  { assert (Hle : length [n; m] <= length nodes).
    { apply submseteq_length, NoDup_submseteq.
      - apply NoDup_cons. split; [|apply NoDup_singleton].
        intros Hin. apply list_elem_of_singleton in Hin. done.
      - intros z Hz. apply elem_of_cons in Hz as [-> | Hz]; [done|].
        by apply list_elem_of_singleton in Hz as ->. }
    simpl in Hle. lia. }
  assert (Hnodes0 : ug_nodes (graph st0) = nodes).
  { rewrite Hn0. simpl. by apply complete_graph_nodes. }
  assert (Htry : try_neighbor oracle p_value set_order k n m t1 = Raise e).
  { unfold try_neighbor. rewrite Hcands.
    by rewrite (search_separating_set_raises oracle p_value k n m pre s post
                  (trace t1) e Hpre Hraise). }
  assert (Hvisit : visit_node oracle p_value set_order k n t = Raise e).
  { rewrite visit_node_unfold by (by rewrite Hnt, Hnodes0).
    rewrite Hms, for_each_app, Ha. simpl. by rewrite Htry. }
  assert (Hround : skeleton_round nodes oracle p_value set_order k st0 = Raise e).
  { unfold skeleton_round. rewrite Hsplit, for_each_app, Hl1. simpl.
    by rewrite Hvisit. }
  unfold estimate_skeleton_run.
  replace fuel with (k + (fuel - k)) by lia.
  rewrite (skeleton_loop_reaches (fuel - k) k st0 Hnd Hlen Hst0).
  2:{ intros j stj Hj. apply Hbefore. lia. }
  destruct (fuel - k) as [|fuel'] eqn:Hf; [lia|].
  cbn [skeleton_loop].
  rewrite all_degrees_below_Ok by (by rewrite Hnodes0).
  rewrite (Hbefore k st0) by done. by rewrite Hround.
Qed.

(** With tests that all return, the search returns. *)
Lemma estimate_skeleton_run_returns fuel :
  NoDup nodes -> length nodes ≠ 1 ->
  length nodes <= fuel ->
  (forall n m s, (n, m) ∈ ug_adj (complete_graph nodes) ->
                 exists p, oracle n m s = Ok p) ->
  exists st kf,
    estimate_skeleton_run nodes oracle p_value set_order fuel = Some (Ok (st, kf)).
Proof.
  intros Hnd Hlen Hfuel Htotal.
  pose proof (complete_graph_nodes nodes Hnd Hlen) as Hinit.
  destruct (skeleton_loop_terminates nodes oracle p_value set_order
              fuel 0 (skeleton_init nodes) Hnd Hinit) as [[[st kf]|e] Hr];
    [done | lia | by exists st, kf |].
  apply skeleton_loop_raises in Hr as (g & j & n & m & s & _ & _ & Hnm & _ & Hraise);
    [|done|done].
  destruct (Htotal n m s Hnm) as [p Hp]. congruence.
Qed.

End Skeleton_rounds.

(** ** The claims on [estimate_skeleton] *)

Section Skeleton_claims.
Context {node : Type} `{Countable node}.
Variable nodes : list node.
Variable oracle : node -> node -> list node -> result float.
Variable p_value : float.
Variable set_order : list node -> list node.

(** C2.  Separating-set recording.  Whenever the body of the loop over the
    neighbours removes the edge between [n] and [m], the candidates are the
    combinations of [lim_neighbors] elements of a list that holds each
    current neighbour of [n] other than [m] once; the set recorded is the
    first of them, in the order of [combinations], whose p-value reaches
    the threshold; the candidates before it were tested and failed, and no
    candidate after it is tested.  In the state that [estimate_skeleton]
    returns, the keys of the map are exactly the pairs of distinct
    variables that are not adjacent in the skeleton; each key was assigned
    once, by a removal of that kind in some earlier graph of the search,
    and the pair was not tested again afterwards. *)
Theorem separating_sets_recorded :
  NoDup nodes ->
  (forall l, set_order l ≡ₚ l) ->
  (forall k n m st st',
      try_neighbor oracle p_value set_order k n m st = Ok st' ->
      has_edge (graph st) n m = true ->
      has_edge (graph st') n m = false ->
      exists others pre s post,
        NoDup others
        /\ (forall z, z ∈ others <-> z ∈ neighbors (graph st) n /\ z ≠ m)
        /\ combinations others k = pre ++ s :: post
        /\ Forall (fails oracle p_value n m) pre
        /\ passes oracle p_value n m s
        /\ length s = k /\ NoDup s
        /\ (forall z, z ∈ s -> z ∈ neighbors (graph st) n /\ z ≠ m)
        /\ seperating_sets st' = <[frozenset2 n m := s]> (seperating_sets st)
        /\ trace st' = trace st ++ map (Tested k n m) pre
                            ++ [Tested k n m s; Recorded k n m s])
  /\ (forall fuel st kf,
        estimate_skeleton_run nodes oracle p_value set_order fuel = Some (Ok (st, kf)) ->
        (forall key,
            key ∈ dom (seperating_sets st)
            <-> exists u v, u ∈ nodes /\ v ∈ nodes /\ u ≠ v
                            /\ has_edge (graph st) u v = false
                            /\ key = frozenset2 u v)
        /\ (forall key s,
              seperating_sets st !! key = Some s ->
              exists l0 l2 k n m g others pre post,
                trace st = (l0 ++ map (Tested k n m) pre ++ [Tested k n m s])
                           ++ Recorded k n m s :: l2
                /\ key = frozenset2 n m
                /\ ug_adj (graph st) ⊆ ug_adj g
                /\ has_edge g n m = true
                /\ NoDup others
                /\ (forall z, z ∈ others <-> has_edge g n z = true /\ z ≠ m)
                /\ combinations others k = pre ++ s :: post
                /\ Forall (fails oracle p_value n m) pre
                /\ passes oracle p_value n m s
                /\ length s = k /\ NoDup s
                /\ (forall e, e ∈ l0 ++ map (Tested k n m) pre ++ [Tested k n m s] ->
                              is_recorded e -> event_pair e ≠ key)
                /\ (forall e, e ∈ l2 -> event_pair e ≠ key))).
Proof.
  intros Hnd Hperm. split.
  - intros k n m st st' Hrun Hbefore Hafter.
    apply try_neighbor_spec in Hrun.
    destruct Hrun as [(pre & s & post & Hc & Hpre & Hs & _ & Hseps & Htr)
                     | (_ & Hg & _)].
    + destruct (set_difference_spec set_order (neighbors (graph st) n) [m] Hperm)
        as [Hothers Hin].
      assert (Hin' : forall z,
        z ∈ set_difference set_order (neighbors (graph st) n) [m]
        <-> z ∈ neighbors (graph st) n /\ z ≠ m).
      { intros z. rewrite Hin, list_elem_of_singleton. done. }
      destruct (combination_elements
                  (set_difference set_order (neighbors (graph st) n) [m]) s k Hothers)
        as (Hlen & Hnds & Hels).
      { rewrite Hc. apply elem_of_app. right. by left. }
      exists (set_difference set_order (neighbors (graph st) n) [m]), pre, s, post.
      split_and!; try done. intros z Hz. by apply Hin', Hels.
    + rewrite Hg in Hafter. congruence.
  - intros fuel st kf Hrun.
    pose proof (estimate_skeleton_run_inv nodes oracle p_value set_order
                  fuel st kf Hnd Hrun) as [Hn Hsub Hsym Hkeys Hdom Hrec].
    split.
    + intros key. rewrite elem_of_dom. split.
      * intros [s Hs]. destruct (Hdom key s Hs) as (k & n & m & -> & Hin).
        apply list_elem_of_split in Hin as (l1 & l2 & Htr).
        destruct (Hrec _ _ _ _ _ _ Htr)
          as (Hna & _ & _ & g & _ & _ & Hgc & Hg & _).
        apply Hgc, complete_graph_spec in Hg as (Hu & Hv & Hne); [|done].
        exists n, m. split_and!; try done. by apply has_edge_false.
      * intros (u & v & Hu & Hv & Hne & Hedge & ->).
        apply Hkeys; [by apply complete_graph_spec | by apply has_edge_false].
    + intros key s Hs. destruct (Hdom key s Hs) as (k & n & m & -> & Hin).
      apply list_elem_of_split in Hin as (l1 & l2 & Htr).
      destruct (Hrec _ _ _ _ _ _ Htr)
        as (Hna & _ & Hlater & g & Hgn & Hsubg & Hgc & Hg
            & (pre & post & l0 & Hc & Hpre & Hpass & Hl1)).
      destruct (set_difference_spec set_order (neighbors g n) [m] Hperm)
        as [Hothers Hin].
      destruct (combination_elements
                  (set_difference set_order (neighbors g n) [m]) s k Hothers)
        as (Hlen & Hnds & _).
      { rewrite Hc. apply elem_of_app. right. by left. }
      subst l1.
      exists l0, l2, k, n, m, g,
        (set_difference set_order (neighbors g n) [m]), pre, post.
      split_and!; try done.
      * by apply has_edge_true.
      * intros z. rewrite Hin, list_elem_of_singleton, elem_of_neighbors, has_edge_true.
        split; [tauto|]. intros [Hnz Hzm]. split_and!; try done.
        rewrite Hgn. apply Hgc, complete_graph_spec in Hnz; tauto.
      * intros e He Hrecorded Hpair.
        destruct e as [|k1 n1 m1 s1]; [done|]. simpl in Hpair.
        apply list_elem_of_split in He as (a & b & Heq).
        rewrite Heq, <- app_assoc in Htr. simpl in Htr.
        destruct (Hrec _ _ _ _ _ _ Htr) as (_ & _ & Hlater1 & _).
        apply (Hlater1 (Recorded k n m s)); [|by symmetry].
        apply elem_of_app. right. by left.
Qed.

(** C3.  Skeleton edge monotonicity.  No step of [estimate_skeleton] adds
    an edge: the body of the loop over the neighbours and a whole round
    leave a subset of the edges they found, the edges at the start of a
    later round are among those at the start of an earlier one, and the
    skeleton returned is the state at the start of the round the loop
    stopped at, a subgraph of the complete graph. *)
Theorem skeleton_edges_only_shrink :
  (forall k n m st st',
      try_neighbor oracle p_value set_order k n m st = Ok st' ->
      ug_adj (graph st') ⊆ ug_adj (graph st))
  /\ (forall k st st',
        skeleton_round nodes oracle p_value set_order k st = Ok st' ->
        ug_adj (graph st') ⊆ ug_adj (graph st))
  /\ (forall j j' st st',
        j <= j' ->
        state_at_round nodes oracle p_value set_order j = Ok st ->
        state_at_round nodes oracle p_value set_order j' = Ok st' ->
        ug_adj (graph st') ⊆ ug_adj (graph st))
  /\ (forall fuel st kf,
        estimate_skeleton_run nodes oracle p_value set_order fuel = Some (Ok (st, kf)) ->
        state_at_round nodes oracle p_value set_order kf = Ok st
        /\ ug_adj (graph st) ⊆ ug_adj (complete_graph nodes)).
Proof.
  split_and!.
  - intros k n m st st' Hrun. by apply try_neighbor_shrinks in Hrun as [_ ?].
  - intros k st st' Hrun. by apply skeleton_round_shrinks in Hrun as [_ ?].
  - apply state_at_round_shrinks.
  - intros fuel st kf Hrun.
    destruct (skeleton_loop_rounds nodes oracle p_value set_order
                fuel 0 (skeleton_init nodes) st kf eq_refl Hrun)
      as (_ & Hkf & _).
    split; [done|].
    apply (state_at_round_shrinks nodes oracle p_value set_order 0 kf
             (skeleton_init nodes) st); [lia | done | done].
Qed.

(** C4.  Skeleton termination.  With distinct variables the [while] loop
    of [estimate_skeleton] ends, by a return or by an exception of the
    test, within as many rounds as there are variables.  When it returns,
    the number of rounds it made is the final [lim_neighbors], which is at
    most the number of variables; every node then has fewer neighbours than
    that, and at the start of each earlier round some node had not. *)
Theorem skeleton_terminates :
  NoDup nodes ->
  exists r,
    estimate_skeleton_run nodes oracle p_value set_order (length nodes) = Some r
    /\ (forall fuel, length nodes <= fuel ->
          estimate_skeleton_run nodes oracle p_value set_order fuel = Some r)
    /\ (forall st kf, r = Ok (st, kf) ->
          kf <= length nodes
          /\ state_at_round nodes oracle p_value set_order kf = Ok st
          /\ degrees_below nodes kf (graph st) = true
          /\ forall j st_j,
               j < kf ->
               state_at_round nodes oracle p_value set_order j = Ok st_j ->
               degrees_below nodes j (graph st_j) = false).
Proof.
  intros Hnd.
  destruct (decide (length nodes = 1)) as [Hone | Hlen].
  { assert (Ha : exists a, nodes = [a]).
    { destruct nodes as [|a [|b l]]; [done | by exists a | done]. }
    destruct Ha as [a Ha].
    exists (Raise NetworkXError). split_and!.
    - by apply (estimate_skeleton_run_single nodes oracle p_value set_order a).
    - intros fuel _.
      by apply (estimate_skeleton_run_single nodes oracle p_value set_order a).
    - intros st kf Heq. discriminate. }
  destruct (skeleton_loop_terminates nodes oracle p_value set_order
              (length nodes) 0 (skeleton_init nodes) Hnd) as [r Hr];
    [by apply complete_graph_nodes | done | lia |].
  exists r. split_and!.
  - done.
  - intros fuel Hfuel.
    by apply (skeleton_loop_more_fuel nodes oracle p_value set_order (length nodes)).
  - intros st kf ->.
    destruct (skeleton_loop_rounds nodes oracle p_value set_order
                (length nodes) 0 (skeleton_init nodes) st kf eq_refl Hr)
      as (Hle & Hkf & Hdeg & Hbefore).
    split_and!; [lia | done | done |].
    intros j st_j Hj. apply Hbefore. lia.
Qed.

End Skeleton_claims.

(** ** Orientation *)

Section Orientation_loops.
Context {node : Type} `{Countable node}.
Variable set_order : list node -> list node.
Variable pdag_remove : DirectedGraph node -> node -> node -> result (DirectedGraph node).
Variable all_simple_paths :
  DirectedGraph node -> node -> node -> result (list (list (node * node))).

Implicit Types (skel : UndirectedGraph node) (pdag : DirectedGraph node).
Implicit Types (seps : gmap (gset node) (list node)) (X Y Z : node).

(** *** The loops after the collider step *)

Lemma orientation_pass_exhausted pdag :
  orientation_pass set_order pdag_remove all_simple_paths pdag [] = Ok (pdag, []).
Proof. done. Qed.

Lemma orientation_loop_exhausted fuel pdag :
  orientation_loop set_order pdag_remove all_simple_paths (S fuel) pdag []
  = Some (Ok pdag).
Proof. simpl. by rewrite Nat.ltb_irrefl. Qed.

Lemma collider_step_exhausts skel seps pdag it :
  collider_step set_order skel seps = Ok (pdag, it) -> it = [].
Proof. apply for_iter_exhausts. Qed.

Lemma orient_collider_step fuel skel seps :
  orient set_order pdag_remove all_simple_paths (S fuel) skel seps
  = match collider_step set_order skel seps with
    | Raise e => Some (Raise e)
    | Ok (pdag, _) => Some (Ok pdag)
    end.
Proof.
  unfold orient.
  destruct (collider_step set_order skel seps) as [[pdag it]|e] eqn:Hstep; [|done].
  apply collider_step_exhausts in Hstep as ->. apply orientation_loop_exhausted.
Qed.

End Orientation_loops.

(** *** The collider step *)

Section Collider_inner.
Context {node : Type} `{Countable node}.

Implicit Types (skel : UndirectedGraph node) (pdag : DirectedGraph node).
Implicit Types (seps : gmap (gset node) (list node)) (X Y Z : node).

Lemma collider_inner_edges seps X Y Zs pdag pdag' :
  for_each
    (fun Z pdag =>
       s ← getitem seps (frozenset2 X Y);
       if bool_decide (Z ∈ s) then Ok pdag
       else Ok (remove_edges_from pdag [(Z, X); (Z, Y)])) Zs pdag = Ok pdag' ->
  dg_nodes pdag' = dg_nodes pdag
  /\ forall e,
       e ∈ dg_edges pdag'
       <-> e ∈ dg_edges pdag
           /\ ~ (e.1 ∈ Zs /\ (e.2 = X \/ e.2 = Y)
                 /\ exists s, seps !! frozenset2 X Y = Some s /\ e.1 ∉ s).
Proof.
  revert pdag. induction Zs as [|Z Zs IH]; intros pdag Hrun; simpl in Hrun.
  - inversion Hrun; subst. split; [done|]. intros e. split; [|tauto].
    intros He. split; [done|]. intros (Hin & _). by apply elem_of_nil in Hin.
  - apply bind_Ok_inv in Hrun as (pdag1 & Hstep & Hrest).
    apply IH in Hrest as [Hnodes Hedges].
    apply bind_Ok_inv in Hstep as (s & Hs & Hstep).
    unfold getitem in Hs.
    destruct (seps !! frozenset2 X Y) as [s0|] eqn:Hkey; [|discriminate].
    inversion Hs; subst s0; clear Hs.
    destruct (bool_decide (Z ∈ s)) eqn:HZ.
    + apply bool_decide_eq_true in HZ. inversion Hstep; subst pdag1.
      split; [done|]. intros e. rewrite Hedges. split.
      * intros [He Hno]. split; [done|].
        intros (Hin & Hto & s' & Hs' & Hnotin). apply Hno.
        split_and!; [|done|by exists s'].
        apply elem_of_cons in Hin as [Heq | Hin]; [|done].
        exfalso. apply Hnotin. rewrite Heq. congruence.
      * intros [He Hno]. split; [done|].
        intros (Hin & Hto & Hs'). apply Hno. split_and!; [by right | done | done].
    + apply bool_decide_eq_false in HZ. inversion Hstep; subst pdag1.
      split; [done|]. intros [a b]. rewrite Hedges.
      unfold remove_edges_from. cbn [dg_edges fst snd].
      rewrite elem_of_difference, elem_of_list_to_set. split.
      * intros [[He Hne] Hno]. split; [done|].
        intros (Hin & Hto & s' & Hs' & Hnotin).
        apply elem_of_cons in Hin as [-> | Hin].
        -- apply Hne. destruct Hto as [-> | ->]; [by left | by right; left].
        -- apply Hno. split_and!; [done | done | by exists s'].
      * intros [He Hno]. split_and!; [done | |].
        -- intros Hin. apply Hno.
           assert ((a, b) = (Z, X) \/ (a, b) = (Z, Y)) as Hab.
           { apply elem_of_cons in Hin as [? | Hin]; [by left|].
             apply list_elem_of_singleton in Hin. by right. }
           destruct Hab as [Hab | Hab]; inversion Hab; subst a b.
           ++ split_and!; [by left | by left | by exists s].
           ++ split_and!; [by left | by right | by exists s].
        -- intros (Hin & Hto & Hs'). apply Hno. split_and!; [by right | done | done].
Qed.

End Collider_inner.

Section Collider_properties.
Context {node : Type} `{Countable node}.
Variable set_order : list node -> list node.

Implicit Types (skel : UndirectedGraph node) (pdag : DirectedGraph node).
Implicit Types (seps : gmap (gset node) (list node)) (X Y Z : node).

Lemma elem_of_set_intersection (a b : list node) Z :
  (forall l, set_order l ≡ₚ l) ->
  Z ∈ set_intersection set_order a b <-> Z ∈ a /\ Z ∈ b.
Proof.
  intros Hperm. unfold set_intersection.
  rewrite Hperm, list_elem_of_intersection, elem_of_remove_dups. done.
Qed.

Lemma collider_body_edges skel seps XY pdag pdag' :
  (forall l, set_order l ≡ₚ l) ->
  collider_body set_order skel seps XY pdag = Ok pdag' ->
  dg_nodes pdag' = dg_nodes pdag
  /\ forall e,
       e ∈ dg_edges pdag'
       <-> e ∈ dg_edges pdag /\ ~ collider_removes skel seps XY e.
Proof.
  intros Hperm. destruct XY as [X Y]. unfold collider_body, collider_removes. simpl.
  destruct (has_edge skel X Y) eqn:Hedge.
  - intros Hrun. inversion Hrun; subst. split; [done|].
    intros e. split; [|tauto]. intros He. split; [done|]. by intros [? _].
  - intros Hrun.
    apply bind_Ok_inv in Hrun as (ms & Hms & Hrun).
    apply bind_Ok_inv in Hrun as (ms' & Hms' & Hrun).
    apply graph_neighbors_Ok_inv in Hms as [_ ->].
    apply graph_neighbors_Ok_inv in Hms' as [_ ->].
    apply collider_inner_edges in Hrun as [Hnodes Hedges].
    split; [done|]. intros e. rewrite Hedges, elem_of_set_intersection by done. tauto.
Qed.

Lemma collider_loop_edges skel seps pairs pdag pdag' :
  (forall l, set_order l ≡ₚ l) ->
  for_each (collider_body set_order skel seps) pairs pdag = Ok pdag' ->
  dg_nodes pdag' = dg_nodes pdag
  /\ forall e,
       e ∈ dg_edges pdag'
       <-> e ∈ dg_edges pdag
           /\ forall XY, XY ∈ pairs -> ~ collider_removes skel seps XY e.
Proof.
  intros Hperm. revert pdag.
  induction pairs as [|XY pairs IH]; intros pdag Hrun; simpl in Hrun.
  - inversion Hrun; subst. split; [done|]. intros e. split; [|tauto].
    intros He. split; [done|]. intros XY Hin. by apply elem_of_nil in Hin.
  - apply bind_Ok_inv in Hrun as (pdag1 & Hstep & Hrest).
    apply IH in Hrest as [Hnodes Hedges].
    apply collider_body_edges in Hstep as [Hnodes1 Hedges1]; [|done].
    split; [congruence|]. intros e. rewrite Hedges, Hedges1. split.
    + intros [[He Hno] Hrest]. split; [done|]. intros XY' Hin.
      apply elem_of_cons in Hin as [-> | Hin]; [done | by apply Hrest].
    + intros [He Hall]. split_and!; [done | apply Hall; by left |].
      intros XY' Hin. apply Hall. by right.
Qed.

(** The edges of the PDAG after the collider step. *)
Lemma collider_step_edges skel seps pdag it :
  (forall l, set_order l ≡ₚ l) ->
  collider_step set_order skel seps = Ok (pdag, it) ->
  forall e,
    e ∈ dg_edges pdag
    <-> e ∈ ug_adj skel
        /\ forall XY, XY ∈ combinations2 (ug_nodes skel) ->
                      ~ collider_removes skel seps XY e.
Proof.
  intros Hperm. unfold collider_step. rewrite for_iter_for_each. intros Hrun.
  apply bind_Ok_inv in Hrun as (pdag1 & Hloop & Hret). inversion Hret; subst.
  by apply collider_loop_edges in Hloop as [_ Hedges].
Qed.

(** With a separating set for every pair that is not adjacent, the
    collider step raises no [KeyError]. *)
Lemma collider_step_returns skel seps :
  (forall X Y, (X, Y) ∈ combinations2 (ug_nodes skel) ->
               has_edge skel X Y = false ->
               is_Some (seps !! frozenset2 X Y)) ->
  exists pdag, collider_step set_order skel seps = Ok (pdag, []).
Proof.
  intros Hkeys. unfold collider_step. rewrite for_iter_for_each.
  destruct (for_each_returns (fun _ => True) (collider_body set_order skel seps)
              (combinations2 (dg_nodes (to_directed skel))) (to_directed skel))
    as (pdag & -> & _); [|done|by exists pdag].
  intros [X Y] pdag HXY _. unfold collider_body.
  destruct (has_edge skel X Y) eqn:Hedge; [eauto|].
  destruct (Hkeys X Y HXY Hedge) as [s Hs].
  rewrite graph_neighbors_Ok by (by apply combinations2_elem_of in HXY as [? _]).
  simpl.
  destruct (for_each_returns (fun _ => True)
              (fun Z pdag =>
                 s ← getitem seps (frozenset2 X Y);
                 if bool_decide (Z ∈ s) then Ok pdag
                 else Ok (remove_edges_from pdag [(Z, X); (Z, Y)]))
              (set_intersection set_order (neighbors skel X) (neighbors skel X)) pdag)
    as (pdag' & -> & _); [|done|eauto].
  intros Z t _ _. unfold getitem. rewrite Hs. simpl.
  destruct (bool_decide (Z ∈ s)); eauto.
Qed.

End Collider_properties.

(** ** The claims on [estimate] *)

Section Orientation_claims.
Context {node : Type} `{Countable node}.
Variable nodes : list node.
Variable oracle : node -> node -> list node -> result float.
Variable p_value : float.
Variable set_order : list node -> list node.
Variable pdag_remove : DirectedGraph node -> node -> node -> result (DirectedGraph node).
Variable all_simple_paths :
  DirectedGraph node -> node -> node -> result (list (list (node * node))).

Lemma estimate_skeleton_inv fuel skel seps :
  NoDup nodes ->
  estimate_skeleton nodes oracle p_value set_order fuel = Some (Ok (skel, seps)) ->
  exists st kf,
    estimate_skeleton_run nodes oracle p_value set_order fuel = Some (Ok (st, kf))
    /\ skel = graph st /\ seps = seperating_sets st
    /\ skeleton_inv nodes oracle p_value set_order st.
Proof.
  intros Hnd. unfold estimate_skeleton.
  destruct (estimate_skeleton_run nodes oracle p_value set_order fuel)
    as [[[st kf]|e]|] eqn:Hrun; try discriminate.
  intros Heq. inversion Heq; subst. exists st, kf. split_and!; try done.
  by apply (estimate_skeleton_run_inv nodes oracle p_value set_order fuel st kf).
Qed.

(** C1, as amended.  When the skeleton search returns, [estimate] returns
    a PDAG whose edges are edges of the skeleton, and for every unshielded
    triple X - Z - Y of the skeleton with Z outside the separating set
    recorded for X and Y the PDAG has neither Z -> X nor Z -> Y.  It has
    X -> Z when X is in the separating set of every pair of Z with a node
    that is not adjacent to Z, and Y -> Z likewise. *)
Theorem collider_orientation :
  NoDup nodes ->
  (forall l, set_order l ≡ₚ l) ->
  forall fuel skel seps,
    estimate_skeleton nodes oracle p_value set_order (S fuel) = Some (Ok (skel, seps)) ->
    exists pdag,
      estimate nodes oracle p_value set_order pdag_remove all_simple_paths (S fuel)
        = Some (Ok pdag)
      /\ dg_edges pdag ⊆ ug_adj skel
      /\ forall X Y Z s,
           X ≠ Y ->
           has_edge skel X Y = false ->
           has_edge skel X Z = true ->
           has_edge skel Y Z = true ->
           seps !! frozenset2 X Y = Some s ->
           Z ∉ s ->
           dg_has_edge pdag Z X = false
           /\ dg_has_edge pdag Z Y = false
           /\ ((forall W s', has_edge skel Z W = false ->
                             seps !! frozenset2 Z W = Some s' -> X ∈ s') ->
               dg_has_edge pdag X Z = true)
           /\ ((forall W s', has_edge skel Z W = false ->
                             seps !! frozenset2 Z W = Some s' -> Y ∈ s') ->
               dg_has_edge pdag Y Z = true).
Proof.
  intros Hnd Hperm fuel skel seps Hskel.
  pose proof Hskel as Hskel'.
  apply estimate_skeleton_inv in Hskel'
    as (st & kf & _ & -> & -> & [Hn Hsub Hsym Hkeys _ _]); [|done].
  destruct (collider_step_returns set_order (graph st) (seperating_sets st))
    as [pdag Hstep].
  { intros X Y HXY Hedge. rewrite Hn in HXY. apply Hkeys.
    - apply elem_of_complete_graph. by left.
    - by apply has_edge_false. }
  pose proof (collider_step_edges set_order _ _ _ _ Hperm Hstep) as Hedges.
  assert (Hnodes : forall a b, (a, b) ∈ ug_adj (graph st) ->
                               a ∈ nodes /\ b ∈ nodes).
  { intros a b Hab. apply Hsub, complete_graph_spec in Hab; tauto. }
  assert (Hremoved : forall X Y Z s,
    X ≠ Y -> (X, Y) ∉ ug_adj (graph st) ->
    (X, Z) ∈ ug_adj (graph st) -> (Y, Z) ∈ ug_adj (graph st) ->
    seperating_sets st !! frozenset2 X Y = Some s -> Z ∉ s ->
    ((Z, X) ∉ dg_edges pdag) /\ ((Z, Y) ∉ dg_edges pdag)).
  { intros X Y Z s Hne HXY HXZ HYZ Hs HZ.
    destruct (Hnodes _ _ HXZ) as [HX HZn]. destruct (Hnodes _ _ HYZ) as [HY _].
    assert (HYX : (Y, X) ∉ ug_adj (graph st)) by (intros ?; by apply HXY, Hsym).
    destruct (combinations2_total nodes X Y HX HY Hne) as [Hpair | Hpair];
      rewrite <- Hn in Hpair.
    - split; intros Hin; apply Hedges in Hin as [_ Hno];
        apply (Hno _ Hpair); unfold collider_removes; simpl;
        (split_and!;
         [ by apply has_edge_false
         | apply elem_of_neighbors; by rewrite Hn
         | tauto
         | by exists s ]).
    - split; intros Hin; apply Hedges in Hin as [_ Hno];
        apply (Hno _ Hpair); unfold collider_removes; simpl;
        (split_and!;
         [ by apply has_edge_false
         | apply elem_of_neighbors; by rewrite Hn
         | tauto
         | exists s; unfold frozenset2 in *; by rewrite frozenset2_comm ]). }
  assert (Hkept : forall X Z,
    (X, Z) ∈ ug_adj (graph st) ->
    (forall W s', has_edge (graph st) Z W = false ->
                  seperating_sets st !! frozenset2 Z W = Some s' -> X ∈ s') ->
    (X, Z) ∈ dg_edges pdag).
  { intros X Z HXZ Hcond. apply Hedges. split; [done|].
    intros [P Q] _ (Hedge & _ & Hto & s' & Hs' & Hnotin). simpl in *.
    apply Hnotin. destruct Hto as [-> | ->].
    - by apply (Hcond Q).
    - apply (Hcond P).
      + apply has_edge_false. apply has_edge_false in Hedge.
        intros ?. by apply Hedge, Hsym.
      + unfold frozenset2 in *. by rewrite frozenset2_comm. }
  exists pdag. split_and!.
  - unfold estimate. rewrite Hskel, orient_collider_step. by rewrite Hstep.
  - intros e He. by apply Hedges in He as [? _].
  - intros X Y Z s Hne HXY HXZ HYZ Hs HZ.
    apply has_edge_false in HXY. apply has_edge_true in HXZ, HYZ.
    destruct (Hremoved X Y Z s Hne HXY HXZ HYZ Hs HZ) as [HZX HZY].
    unfold dg_has_edge. rewrite !bool_decide_eq_false, !bool_decide_eq_true.
    split_and!; [done | done | by apply Hkept | by apply Hkept].
Qed.

(** C10.  The iterator [node_pairs] is used up by the collider step.  The
    three loops of a pass then run over no pair and leave the PDAG as it
    is, the [while] loop ends after its first pass, and [estimate] returns
    the bidirected skeleton after the collider step. *)
Theorem orientation_rules_never_run :
  (forall skel seps pdag it,
      collider_step set_order skel seps = Ok (pdag, it) -> it = [])
  /\ (forall pdag,
        orientation_pass set_order pdag_remove all_simple_paths pdag [] = Ok (pdag, []))
  /\ (forall pdag,
        orientation_loop set_order pdag_remove all_simple_paths 0 pdag [] = None
        /\ orientation_loop set_order pdag_remove all_simple_paths 1 pdag []
           = Some (Ok pdag))
  /\ (forall fuel skel seps,
        orient set_order pdag_remove all_simple_paths (S fuel) skel seps
        = match collider_step set_order skel seps with
          | Raise e => Some (Raise e)
          | Ok (pdag, _) => Some (Ok pdag)
          end)
  /\ (forall fuel,
        estimate nodes oracle p_value set_order pdag_remove all_simple_paths (S fuel)
        = match estimate_skeleton nodes oracle p_value set_order (S fuel) with
          | None => None
          | Some (Raise e) => Some (Raise e)
          | Some (Ok (skel, seps)) =>
              match collider_step set_order skel seps with
              | Raise e => Some (Raise e)
              | Ok (pdag, _) => Some (Ok pdag)
              end
          end).
Proof.
  split_and!.
  - apply collider_step_exhausts.
  - apply orientation_pass_exhausted.
  - intros pdag. split; [done | apply orientation_loop_exhausted].
  - apply orient_collider_step.
  - intros fuel. unfold estimate.
    destruct (estimate_skeleton nodes oracle p_value set_order (S fuel))
      as [[[skel seps]|e]|]; [|done|done].
    apply orient_collider_step.
Qed.

End Orientation_claims.

(** ** The chi-square test *)

Lemma sum_counts_0 (l : list nat) (n : nat) :
  sum_counts l = 0 -> n ∈ l -> n = 0.
Proof.
  induction l as [|m l IH]; simpl; intros Hsum Hin.
  - by apply elem_of_nil in Hin.
  - apply elem_of_cons in Hin as [-> | Hin]; [lia | apply IH; [lia | done]].
Qed.

Lemma sum_counts_all_0 (l : list nat) :
  (forall n, n ∈ l -> n = 0) -> sum_counts l = 0.
Proof.
  induction l as [|m l IH]; simpl; intros Hall; [done|].
  rewrite (Hall m) by (by left). rewrite IH; [done|].
  intros n Hn. apply Hall. by right.
Qed.

Lemma list_bind_ext_in {A B : Type} (f g : A -> list B) (l : list A) :
  (forall x, x ∈ l -> f x = g x) -> l ≫= f = l ≫= g.
Proof.
  induction l as [|a l IH]; intros Hext; [done|].
  cbn. rewrite (Hext a) by (by left). f_equal.
  apply IH. intros x Hx. apply Hext. by right.
Qed.

Lemma list_fmap_ext_in {A B : Type} (f g : A -> B) (l : list A) :
  (forall x, x ∈ l -> f x = g x) -> f <$> l = g <$> l.
Proof.
  induction l as [|a l IH]; intros Hext; [done|].
  cbn. rewrite (Hext a) by (by left). f_equal.
  apply IH. intros x Hx. apply Hext. by right.
Qed.

Lemma map_ext_elem_of {A B : Type} (f g : A -> B) (l : list A) :
  (forall x, x ∈ l -> f x = g x) -> map f l = map g l.
Proof.
  intros Hext. apply map_ext_in. intros x Hx. apply Hext. by apply list_elem_of_In.
Qed.

Lemma length_bind_const {A B : Type} (f : A -> list B) (l : list A) (c : nat) :
  (forall x, length (f x) = c) -> length (l ≫= f) = length l * c.
Proof.
  intros Hf. induction l as [|a l IH]; [done|].
  cbn. rewrite length_app, Hf. cbn in IH. by rewrite IH.
Qed.

(** The rows of [from_product]: one state from each level. *)
Lemma elem_of_from_product {A : Type} (levels : list (list A)) (zs : list A) :
  zs ∈ from_product levels <-> Forall2 (fun z l => z ∈ l) zs levels.
Proof.
  revert zs. induction levels as [|l levels IH]; intros zs; simpl.
  - rewrite list_elem_of_singleton. split.
    + intros ->. constructor.
    + intros Hall. by inversion Hall.
  - rewrite list_elem_of_bind. split.
    + intros (x & Hzs & Hx). apply list_elem_of_fmap in Hzs as (zs' & -> & Hzs').
      constructor; [done | by apply IH].
    + intros Hall. inversion Hall as [|z l' zs' levels' Hz Hrest]; subst.
      exists z. split; [|done]. apply list_elem_of_fmap.
      exists zs'. split; [done | by apply IH].
Qed.

Lemma length_from_product {A : Type} (levels : list (list A)) :
  length (from_product levels) = foldr Nat.mul 1 (map length levels).
Proof.
  induction levels as [|l levels IH]; [done|]. simpl.
  rewrite <- IH. clear IH.
  induction l as [|x l IHl]; [done|].
  cbn. rewrite length_app, length_fmap. cbn in IHl. rewrite IHl. lia.
Qed.

Lemma bind_all_nil {A B : Type} (f : A -> list B) (l : list A) :
  (forall x, f x = []) -> l ≫= f = [].
Proof.
  intros Hf. induction l as [|a l IH]; [done|].
  change ((a :: l) ≫= f) with (f a ++ (l ≫= f)). by rewrite Hf, IH.
Qed.

Lemma from_product_nil {A : Type} (levels : list (list A)) :
  [] ∈ levels -> from_product levels = [].
Proof.
  induction levels as [|l levels IH]; intros Hin; [by apply elem_of_nil in Hin|].
  apply elem_of_cons in Hin as [<- | Hin]; [done|].
  simpl. rewrite (IH Hin). by apply bind_all_nil.
Qed.

Lemma from_product_nil_inv {A : Type} (levels : list (list A)) :
  from_product levels = [] -> [] ∈ levels.
Proof.
  induction levels as [|l levels IH]; [done|]. simpl.
  destruct l as [|x l]; [by left|].
  change ((x :: l) ≫= (fun x => cons x <$> from_product levels))
    with ((cons x <$> from_product levels)
          ++ (l ≫= (fun x => cons x <$> from_product levels))).
  intros Hnil. apply app_eq_nil in Hnil as [Hnil _].
  apply fmap_nil_inv in Hnil. right. by apply IH.
Qed.

(** *** Numbers of [int64] *)

Lemma int64_small (z : Z) : (- 2 ^ 63 <= z < 2 ^ 63)%Z -> int64 z = z.
Proof. intros Hz. unfold int64. rewrite Z.mod_small; lia. Qed.

(** A product wraps around as the product of the wrapped factor does. *)
Lemma int64_mul_l (x y : Z) : int64 (int64 x * y) = int64 (x * y).
Proof.
  unfold int64. rewrite (Z.mod_eq (x + 2 ^ 63) (2 ^ 64)) by lia.
  set (q := ((x + 2 ^ 63) / 2 ^ 64)%Z).
  replace ((x + 2 ^ 63 - 2 ^ 64 * q - 2 ^ 63) * y + 2 ^ 63)%Z
    with (x * y + 2 ^ 63 + (- q * y) * 2 ^ 64)%Z by ring.
  by rewrite Z_mod_plus_full.
Qed.

Lemma int64_product_from (a : Z) (l : list Z) :
  foldl (fun a n => int64 (a * n)) (int64 a) l = int64 (a * foldr Z.mul 1%Z l).
Proof.
  revert a. induction l as [|n l IH]; intros a; simpl.
  - by rewrite Z.mul_1_r.
  - rewrite (IH (int64 a * n)%Z), <- Z.mul_assoc. apply int64_mul_l.
Qed.

(** The product in [int64] is the product of the integers, wrapped
    around once. *)
Lemma int64_product_spec (l : list Z) :
  int64_product l = int64 (foldr Z.mul 1%Z l).
Proof.
  unfold int64_product. rewrite <- (int64_small 1) at 1 by lia.
  rewrite int64_product_from. by rewrite Z.mul_1_l.
Qed.

Lemma int64_product_fits (l : list Z) :
  (0 <= foldr Z.mul 1 l < 2 ^ 63)%Z -> int64_product l = foldr Z.mul 1%Z l.
Proof. intros Hfits. rewrite int64_product_spec. apply int64_small. lia. Qed.

Lemma product_of_nat (l : list nat) :
  foldr Z.mul 1%Z (map Z.of_nat l) = Z.of_nat (foldr Nat.mul 1 l).
Proof. induction l as [|n l IH]; simpl; [done | rewrite IH; lia]. Qed.

(** A loop that carries nothing returns when each of its iterations
    does. *)
Lemma for_each_unit {A : Type} (body : A -> unit -> result unit) (xs : list A) :
  (forall x, x ∈ xs -> body x tt = Ok tt) -> for_each body xs tt = Ok tt.
Proof.
  induction xs as [|x xs IH]; intros Hbody; simpl; [done|].
  rewrite Hbody by (by left). simpl. apply IH. intros y Hy. apply Hbody. by right.
Qed.

Section Oracle_properties.
Context {var value : Type} `{EqDecision var} `{EqDecision value}.
Variable data : list (var -> option value).
Variable state_names : list (var * list value).
Variable chisquare : list float -> list float -> float * float.

Implicit Types (X Y : var) (Zs : list var) (dX dY : list value).
Implicit Types (dZs : list (list value)) (x y : value) (zs : list value).



(** *** The state lists *)

Lemma dict_get_Ok (d : list (var * list value)) X :
  (exists v, dict_get d X = Ok v) <-> X ∈ map fst d.
Proof.
  induction d as [|[k v] d IH]; simpl.
  - split; [by intros [? ?] | by intros ?%elem_of_nil].
  - destruct (decide (k = X)) as [-> | Hne].
    + split; [by left | by exists v].
    + rewrite IH, elem_of_cons. naive_solver.
Qed.

Lemma dict_get_all_Ok (d : list (var * list value)) Zs :
  (exists vs, dict_get_all d Zs = Ok vs) <-> (forall Z, Z ∈ Zs -> Z ∈ map fst d).
Proof.
  induction Zs as [|Z Zs IH]; simpl.
  - split; [by intros _ Z ?%elem_of_nil | by exists []].
  - split.
    + intros [vs Hvs]. apply bind_Ok_inv in Hvs as (v & Hv & Hrest).
      apply bind_Ok_inv in Hrest as (vs' & Hvs' & _).
      intros Z' HZ'. apply elem_of_cons in HZ' as [-> | HZ'].
      * apply dict_get_Ok. by exists v.
      * apply IH; [by exists vs' | done].
    + intros Hall.
      destruct (proj2 (dict_get_Ok d Z)) as [v Hv]; [apply Hall; by left|].
      destruct (proj2 IH) as [vs Hvs]; [intros Z' HZ'; apply Hall; by right|].
      exists (v :: vs). by rewrite Hv, Hvs.
Qed.

Lemma dict_get_all_length (d : list (var * list value)) Zs vs :
  dict_get_all d Zs = Ok vs -> length vs = length Zs.
Proof.
  revert vs. induction Zs as [|Z Zs IH]; intros vs Hvs; simpl in Hvs.
  - by inversion Hvs.
  - apply bind_Ok_inv in Hvs as (v & Hv & Hrest).
    apply bind_Ok_inv in Hrest as (vs' & Hvs' & Hret).
    inversion Hret; subst. simpl. f_equal. by apply IH.
Qed.

(** With the state lists of its variables, the test is the warning of
    lines 287-289 next to what lines 303-332 give. *)
Lemma test_conditional_independence_known X Y (Zs : zs_arg var) dX dY dZs :
  dict_get state_names X = Ok dX ->
  dict_get state_names Y = Ok dY ->
  dict_get_all state_names (normalize_Zs Zs) = Ok dZs ->
  test_conditional_independence data state_names chisquare X Y Zs
  = (sample_size_warning data X Y (normalize_Zs Zs) dX dY dZs,
     test_statistic data chisquare X Y (normalize_Zs Zs) dX dY dZs).
Proof.
  intros HX HY HZs. unfold test_conditional_independence.
  rewrite HX, HY, HZs. done.
Qed.


Lemma chisquare_of_retained_nil X Y Zs dX dY dZs :
  retained data X Y Zs dX dY dZs = [] ->
  chisquare_of_retained data chisquare X Y Zs dX dY dZs = Raise ValueError.
Proof. unfold chisquare_of_retained. by intros ->. Qed.

Lemma chisquare_of_retained_cons X Y Zs dX dY dZs :
  retained data X Y Zs dX dY dZs ≠ [] ->
  chisquare_of_retained data chisquare X Y Zs dX dY dZs
  = Ok (chisquare (map fst (retained data X Y Zs dX dY dZs))
                  (map snd (retained data X Y Zs dX dY dZs))).2.
Proof.
  unfold chisquare_of_retained.
  by destruct (retained data X Y Zs dX dY dZs).
Qed.

(** *** The number of parameters *)

Lemma int64_mul_r (x y : Z) : int64 (x * int64 y) = int64 (x * y).
Proof. rewrite (Z.mul_comm x), int64_mul_l. by rewrite Z.mul_comm. Qed.

(** With conditioning variables the number is an [int64]: the product of
    the integers, wrapped around. *)
Lemma num_params_int64 dX dY dZs :
  dZs ≠ [] ->
  num_params dX dY dZs
  = np_int64 (int64 ((Z.of_nat (length dX) - 1) * (Z.of_nat (length dY) - 1)
                     * foldr Z.mul 1 (sizes dZs))%Z).
Proof.
  intros Hne. unfold num_params, np_prod.
  destruct dZs as [|d dZs]; [done|]. cbn [sizes map int_times].
  by rewrite int64_product_spec, int64_mul_r.
Qed.

(** Without, it is a [float64]. *)
Lemma num_params_float64 dX dY :
  num_params dX dY []
  = np_float64
      (float_of_int ((Z.of_nat (length dX) - 1) * (Z.of_nat (length dY) - 1))%Z * 1).
Proof. done. Qed.

(** *** The columns of the table *)

Lemma sizes_product dZs :
  foldr Z.mul 1%Z (sizes dZs) = Z.of_nat (foldr Nat.mul 1 (map length dZs)).
Proof.
  unfold sizes. rewrite <- product_of_nat. f_equal.
  induction dZs as [|d dZs IH]; simpl; [done | by rewrite IH].
Qed.

Lemma column_index_cases dY dZs :
  column_index dY dZs = [] \/ column_index dY dZs = from_product (dY :: dZs).
Proof.
  unfold column_index.
  destruct (int64_product (sizes (dY :: dZs)) =? 0)%Z; [by left | by right].
Qed.

(** A state list with no state makes the column index empty. *)
Lemma column_index_nil dY dZs : [] ∈ dY :: dZs -> column_index dY dZs = [].
Proof.
  intros Hnil. destruct (column_index_cases dY dZs) as [-> | ->]; [done|].
  by apply from_product_nil.
Qed.

(** When the number of columns is within [int64], the column index is
    the product of the state lists. *)
Lemma column_index_fits dY dZs :
  (foldr Z.mul 1 (sizes (dY :: dZs)) < 2 ^ 63)%Z ->
  column_index dY dZs = from_product (dY :: dZs).
Proof.
  intros Hfits. unfold column_index.
  rewrite int64_product_fits by (rewrite sizes_product in *; lia).
  destruct (foldr Z.mul 1 (sizes (dY :: dZs)) =? 0)%Z eqn:Hzero; [|done].
  apply Z.eqb_eq in Hzero. rewrite sizes_product in Hzero.
  symmetry. apply length_zero_iff_nil. rewrite length_from_product. lia.
Qed.

Lemma column_index_nil_iff dY dZs :
  (foldr Z.mul 1 (sizes (dY :: dZs)) < 2 ^ 63)%Z ->
  column_index dY dZs = [] <-> [] ∈ dY :: dZs.
Proof.
  intros Hfits. split; [|apply column_index_nil].
  rewrite (column_index_fits dY dZs Hfits). apply from_product_nil_inv.
Qed.

(** *** The lookups of lines 303-322 *)

Lemma marginal_levels_Ok Y Zs : NoDup (Y :: Zs) -> marginal_levels Y Zs = Ok tt.
Proof. intros Hnd. unfold marginal_levels. by rewrite bool_decide_eq_true_2. Qed.

Lemma marginal_levels_Raise Y Zs :
  ~ NoDup (Y :: Zs) -> marginal_levels Y Zs = Raise ValueError.
Proof. intros Hnd. unfold marginal_levels. by rewrite bool_decide_eq_false_2. Qed.

Lemma YZ_loc_nil y : YZ_loc [] y = Raise KeyError.
Proof. done. Qed.

Lemma YZ_loc_product dY dZs y :
  y ∈ dY -> from_product (dY :: dZs) ≠ [] ->
  YZ_loc (from_product (dY :: dZs)) y = Ok tt.
Proof.
  intros Hy Hne. unfold YZ_loc. rewrite bool_decide_eq_true_2; [done|].
  destruct (from_product dZs) as [|zs rest] eqn:Hzs.
  { exfalso. apply Hne. simpl. rewrite Hzs. by apply bind_all_nil. }
  apply list_elem_of_fmap. exists (y :: zs). split; [done|].
  apply elem_of_from_product. constructor; [done|].
  apply elem_of_from_product. rewrite Hzs. by left.
Qed.

(** The loops of lines 312-322 raise the [KeyError] of line 316 exactly
    when, with conditioning variables, a state of X and a state of Y, the
    table has no column. *)
Lemma fill_XYZ_expected_cases Zs dX dY dZs :
  (Zs ≠ [] /\ dX ≠ [] /\ dY ≠ [] /\ column_index dY dZs = []
   /\ fill_XYZ_expected Zs dX dY dZs = Raise KeyError)
  \/ ((Zs = [] \/ dX = [] \/ dY = [] \/ column_index dY dZs ≠ [])
      /\ fill_XYZ_expected Zs dX dY dZs = Ok tt).
Proof.
  unfold fill_XYZ_expected.
  destruct Zs as [|Z Zs].
  { right. split; [by left|]. by apply for_each_unit. }
  destruct dX as [|x dX].
  { right. split; [by right; left | done]. }
  destruct dY as [|y dY].
  { right. split; [by right; right; left|]. by apply for_each_unit. }
  destruct (column_index_cases (y :: dY) dZs) as [Hcol | Hcol].
  - left. split_and!; try done. by rewrite Hcol.
  - destruct (decide (column_index (y :: dY) dZs = [])) as [Hnil | Hne].
    + left. split_and!; try done. by rewrite Hnil.
    + right. split; [by right; right; right|].
      apply for_each_unit. intros x' _. apply for_each_unit. intros y' Hy'.
      rewrite Hcol. apply YZ_loc_product; [done|]. by rewrite <- Hcol.
Qed.

(** What lines 303-332 give: the [ValueError] of a repeated name, the
    [KeyError] of line 316, or what the retained cells give. *)
Lemma test_statistic_cases X Y Zs dX dY dZs :
  (~ NoDup (Y :: Zs)
   /\ test_statistic data chisquare X Y Zs dX dY dZs = Raise ValueError)
  \/ (NoDup (Y :: Zs)
      /\ Zs ≠ [] /\ dX ≠ [] /\ dY ≠ [] /\ column_index dY dZs = []
      /\ test_statistic data chisquare X Y Zs dX dY dZs = Raise KeyError)
  \/ (NoDup (Y :: Zs)
      /\ (Zs = [] \/ dX = [] \/ dY = [] \/ column_index dY dZs ≠ [])
      /\ test_statistic data chisquare X Y Zs dX dY dZs
         = chisquare_of_retained data chisquare X Y Zs dX dY dZs).
Proof.
  unfold test_statistic.
  destruct (decide (NoDup (Y :: Zs))) as [Hnd | Hnd].
  - rewrite marginal_levels_Ok by done. simpl. right.
    destruct (fill_XYZ_expected_cases Zs dX dY dZs)
      as [(HZs & HdX & HdY & Hcol & ->) | (Hbuilt & ->)].
    + left. by split_and!.
    + right. by split_and!.
  - left. by rewrite marginal_levels_Raise.
Qed.

Lemma test_statistic_built X Y Zs dX dY dZs :
  NoDup (Y :: Zs) ->
  Zs = [] \/ dX = [] \/ dY = [] \/ column_index dY dZs ≠ [] ->
  test_statistic data chisquare X Y Zs dX dY dZs
  = chisquare_of_retained data chisquare X Y Zs dX dY dZs.
Proof.
  intros Hnd Hbuilt.
  destruct (test_statistic_cases X Y Zs dX dY dZs)
    as [(Hno & _) | [(_ & HZs & HdX & HdY & Hcol & _) | (_ & _ & Heq)]];
    [done | | done].
  destruct Hbuilt as [? | [? | [? | ?]]]; done.
Qed.

(** With distinct names, a number of columns within [int64] and a state
    for every conditioning variable, the test gets to line 324. *)
Lemma test_statistic_reaches X Y Zs dX dY dZs :
  NoDup (Y :: Zs) ->
  (foldr Z.mul 1 (sizes (dY :: dZs)) < 2 ^ 63)%Z ->
  dX = [] \/ dY = [] \/ [] ∉ dZs ->
  test_statistic data chisquare X Y Zs dX dY dZs
  = chisquare_of_retained data chisquare X Y Zs dX dY dZs.
Proof.
  intros Hnd Hfits Hstates. apply test_statistic_built; [done|].
  destruct Hstates as [? | [? | HdZs]]; [tauto | tauto |].
  destruct dY as [|y dY]; [tauto|]. do 3 right.
  rewrite (column_index_nil_iff _ _ Hfits).
  intros Hnil. apply elem_of_cons in Hnil as [? | ?]; done.
Qed.

(** *** Combinations of conditioning states that never occur *)

Lemma marginals_of_empty_combination X Y Zs dX dY zs x y :
  x ∈ dX -> y ∈ dY ->
  Z_state_counts data X Y Zs dX dY zs = 0 ->
  XYZ_state_counts data X Y Zs x y zs = 0
  /\ XZ_state_counts data X Y Zs dY x zs = 0
  /\ YZ_state_counts data X Y Zs dX y zs = 0.
Proof.
  intros Hx Hy HZ. unfold Z_state_counts in HZ.
  assert (Hcell : forall x' y', x' ∈ dX -> y' ∈ dY ->
                                XYZ_state_counts data X Y Zs x' y' zs = 0).
  { intros x' y' Hx' Hy'.
    assert (HYZ : YZ_state_counts data X Y Zs dX y' zs = 0).
    { apply (sum_counts_0 _ _ HZ), list_elem_of_fmap. by exists y'. }
    unfold YZ_state_counts in HYZ.
    apply (sum_counts_0 _ _ HYZ), list_elem_of_fmap. by exists x'. }
  split_and!.
  - by apply Hcell.
  - apply sum_counts_all_0. intros n Hn.
    apply list_elem_of_fmap in Hn as (y' & -> & Hy'). by apply Hcell.
  - apply sum_counts_all_0. intros n Hn.
    apply list_elem_of_fmap in Hn as (x' & -> & Hx'). by apply Hcell.
Qed.

Lemma elem_of_cells X Y Zs dX dY dZs x y zs :
  x ∈ dX -> y ∈ dY -> zs ∈ from_product dZs ->
  (of_count (XYZ_state_counts data X Y Zs x y zs),
   XYZ_expected data X Y Zs dX dY x y zs) ∈ cells data X Y Zs dX dY dZs.
Proof.
  intros Hx Hy Hzs. unfold cells.
  apply list_elem_of_bind. exists x. split; [|done].
  apply list_elem_of_bind. exists y. split; [|done].
  apply list_elem_of_fmap. by exists zs.
Qed.

End Oracle_properties.

(** ** The claims on [test_conditional_independence] *)

Section Oracle_claims.
Context {var value : Type} `{Countable var} `{EqDecision value}.
Variable data : list (var -> option value).
Variable state_names : list (var * list value).
Variable chisquare : list float -> list float -> float * float.

(** C6, as amended.  A test that gets as far as line 324 (its variables
    have state lists, no name is repeated among Y and Zs, the number of
    columns is within [int64], and X or Y has no state or every variable of
    Zs has one) and for which no cell is left after the cells of expected
    value 0 are dropped raises the [ValueError] of the unpacking; with one
    cell left it returns what [chisquare] gives for that cell, as it
    returns any p-value.  [estimate_skeleton] catches nothing: whatever a
    test raises, the first of a round or a later one of any round, the
    search ends with it when it gets to that test. *)
Theorem degenerate_statistic :
  (forall (X Y : var) (Zs : zs_arg var) dX dY dZs,
      dict_get state_names X = Ok dX ->
      dict_get state_names Y = Ok dY ->
      dict_get_all state_names (normalize_Zs Zs) = Ok dZs ->
      NoDup (Y :: normalize_Zs Zs) ->
      (foldr Z.mul 1 (sizes (dY :: dZs)) < 2 ^ 63)%Z ->
      dX = [] \/ dY = [] \/ ([] ∉ dZs) ->
      (retained data X Y (normalize_Zs Zs) dX dY dZs = [] ->
       (test_conditional_independence data state_names chisquare X Y Zs).2
       = Raise ValueError)
      /\ (forall o e,
            retained data X Y (normalize_Zs Zs) dX dY dZs = [(o, e)] ->
            (test_conditional_independence data state_names chisquare X Y Zs).2
            = Ok (chisquare [o] [e]).2))
  /\ (forall set_order p_value fuel k st0 l1 n l2 t a m b t1 pre s post e,
        let nodes := map fst state_names in
        let oracle := data_oracle data state_names chisquare in
        NoDup nodes ->
        state_at_round nodes oracle p_value set_order k = Ok st0 ->
        (forall j stj,
            j <= k -> state_at_round nodes oracle p_value set_order j = Ok stj ->
            degrees_below nodes j (graph stj) = false) ->
        k < fuel ->
        nodes = l1 ++ n :: l2 ->
        for_each (visit_node oracle p_value set_order k) l1 st0 = Ok t ->
        neighbors (graph t) n = a ++ m :: b ->
        for_each (try_neighbor oracle p_value set_order k n) a t = Ok t1 ->
        combinations (set_difference set_order (neighbors (graph t1) n) [m]) k
          = pre ++ s :: post ->
        Forall (fails oracle p_value n m) pre ->
        oracle n m s = Raise e ->
        ConstraintBasedEstimator_estimate_skeleton data state_names chisquare
          set_order p_value fuel = Some (Raise e)).
Proof.
  split.
  - intros X Y Zs dX dY dZs HX HY HZs Hnd Hfits Hstates.
    rewrite (test_conditional_independence_known data state_names chisquare
               X Y Zs dX dY dZs HX HY HZs). cbn [snd].
    rewrite (test_statistic_reaches data chisquare X Y _ dX dY dZs Hnd Hfits Hstates).
    split.
    + apply chisquare_of_retained_nil.
    + intros o e Hone. unfold chisquare_of_retained. by rewrite Hone.
  - intros set_order p_value fuel k st0 l1 n l2 t a m b t1 pre s post e nodes oracle
           Hnd Hst0 Hbefore Hfuel Hsplit Hl1 Hms Ha Hcands Hpre Hraise.
    unfold ConstraintBasedEstimator_estimate_skeleton, estimate_skeleton.
    fold nodes. fold oracle.
    by rewrite (reached_test_raises nodes oracle p_value set_order fuel k st0
                  l1 n l2 t a m b t1 pre s post e Hnd Hst0 Hbefore Hfuel Hsplit
                  Hl1 Hms Ha Hcands Hpre Hraise).
Qed.

(** C7 fails in the code.  A cell whose combination of conditioning states
    occurs in no row has the expected value 0 * 0 / 0, which is not a
    number and is not equal to 0: the filter [if not e == 0] does not
    exclude it, the cell is retained and reaches [chisquare]. *)
Theorem unobserved_combination_retained :
  forall (X Y : var) (Zs : list var) dX dY dZs x y zs,
    x ∈ dX -> y ∈ dY -> zs ∈ from_product dZs ->
    Z_state_counts data X Y Zs dX dY zs = 0 ->
    is_nan (XYZ_expected data X Y Zs dX dY x y zs) = true
    /\ (of_count 0, XYZ_expected data X Y Zs dX dY x y zs)
         ∈ retained data X Y Zs dX dY dZs.
Proof.
  intros X Y Zs dX dY dZs x y zs Hx Hy Hzs HZ.
  destruct (marginals_of_empty_combination data X Y Zs dX dY zs x y Hx Hy HZ)
    as (Hcell & HXZ & HYZ).
  assert (Hnan : XYZ_expected data X Y Zs dX dY x y zs = nan).
  { unfold XYZ_expected. by rewrite HXZ, HYZ, HZ. }
  split; [by rewrite Hnan|].
  unfold retained. apply list_elem_of_filter. split.
  - by rewrite Hnan.
  - rewrite <- Hcell at 1. by apply elem_of_cells.
Qed.

(** C8, as amended.  For a test whose variables have state lists, the
    warning is given exactly when [len(self.data) < num_params], and names
    the variables, [num_params] and the number of rows.  With conditioning
    variables [num_params] is the [int64] product
    (|dX| - 1) * (|dY| - 1) * the product of the |dZ|, which is that
    integer while it stays within [int64] and has wrapped around otherwise;
    without, it is that product as a [float64], and the number of rows is
    compared with it as a [float64].  The warning changes nothing of what
    the test then does: a test that gets as far as line 324 (no name
    repeated among Y and Zs, a number of columns within [int64], and X or Y
    without a state or every variable of Zs with one) returns the p-value
    of the retained cells, or raises the [ValueError] when no cell is
    retained. *)
Theorem insufficient_sample_warning :
  forall (X Y : var) (Zs : zs_arg var) dX dY dZs,
    dict_get state_names X = Ok dX ->
    dict_get state_names Y = Ok dY ->
    dict_get_all state_names (normalize_Zs Zs) = Ok dZs ->
    let r := test_conditional_independence data state_names chisquare X Y Zs in
    let cells := retained data X Y (normalize_Zs Zs) dX dY dZs in
    let product :=
      ((Z.of_nat (length dX) - 1) * (Z.of_nat (length dY) - 1)
       * foldr Z.mul 1 (sizes dZs))%Z in
    (r.1 = if less_than (length data) (num_params dX dY dZs)
           then [ {| w_X := X; w_Y := Y; w_Zs := normalize_Zs Zs;
                     w_recommended := num_params dX dY dZs;
                     w_present := length data |} ]
           else [])
    /\ (normalize_Zs Zs ≠ [] ->
        num_params dX dY dZs = np_int64 (int64 product)
        /\ (less_than (length data) (num_params dX dY dZs) = true
            <-> (Z.of_nat (length data) < int64 product)%Z)
        /\ ((- 2 ^ 63 <= product < 2 ^ 63)%Z -> int64 product = product))
    /\ (normalize_Zs Zs = [] ->
        num_params dX dY dZs = np_float64 (float_of_int product * 1)
        /\ less_than (length data) (num_params dX dY dZs)
           = (of_count (length data) <? float_of_int product * 1)%float)
    /\ (NoDup (Y :: normalize_Zs Zs) ->
        (foldr Z.mul 1 (sizes (dY :: dZs)) < 2 ^ 63)%Z ->
        dX = [] \/ dY = [] \/ ([] ∉ dZs) ->
        (cells ≠ [] -> r.2 = Ok (chisquare (map fst cells) (map snd cells)).2)
        /\ (cells = [] -> r.2 = Raise ValueError)).
Proof.
  intros X Y Zs dX dY dZs HX HY HZs.
  rewrite (test_conditional_independence_known data state_names chisquare
             X Y Zs dX dY dZs HX HY HZs). simpl.
  pose proof (dict_get_all_length _ _ _ HZs) as Hlen.
  split_and!.
  - done.
  - intros Hne.
    assert (HdZs : dZs ≠ []).
    { intros ->. destruct (normalize_Zs Zs); done. }
    rewrite (num_params_int64 dX dY dZs HdZs). split_and!.
    + done.
    + simpl. apply Z.ltb_lt.
    + apply int64_small.
  - intros Hnil. rewrite Hnil in Hlen.
    destruct dZs; [|done]. rewrite num_params_float64. simpl.
    by rewrite Z.mul_1_r.
  - intros Hnd Hfits Hstates.
    rewrite (test_statistic_reaches data chisquare X Y _ dX dY dZs Hnd Hfits Hstates).
    split; [apply chisquare_of_retained_cons | apply chisquare_of_retained_nil].
Qed.


End Oracle_claims.

(** * Further properties *)

(** ** Comparisons of floating-point numbers *)

Lemma SFeqb_refl_false (f : spec_float) :
  SFeqb f f = false -> f = S754_nan.
Proof.
  destruct f as [s|s| |s m e]; try done; try (by destruct s).
  unfold SFeqb, SFcompare. rewrite Z.compare_refl, Pos.compare_refl.
  destruct s; discriminate.
Qed.

Lemma SFleb_nan_r (f : spec_float) : SFleb f S754_nan = false.
Proof. by destruct f as [[]|[]| |[] m e]. Qed.

Lemma SFleb_nan_l (f : spec_float) : SFleb S754_nan f = false.
Proof. done. Qed.

Lemma is_nan_spec (p : float) : is_nan p = true -> FloatOps.Prim2SF p = S754_nan.
Proof.
  unfold is_nan. intros Hnan. apply negb_true_iff in Hnan.
  rewrite FloatAxioms.eqb_spec in Hnan. by apply SFeqb_refl_false.
Qed.

Lemma SFleb_refl (f : spec_float) : f <> S754_nan -> SFleb f f = true.
Proof.
  destruct f as [s|s| |s m e]; try done; try (by destruct s).
  intros _. unfold SFleb, SFcompare. rewrite Z.compare_refl, Pos.compare_refl.
  by destruct s.
Qed.

(** [p >= p] is true unless [p] is not a number. *)
Lemma leb_refl (p : float) : is_nan p = false -> (p <=? p)%float = true.
Proof.
  unfold is_nan. intros Hnan. apply negb_false_iff in Hnan.
  rewrite FloatAxioms.eqb_spec in Hnan. rewrite FloatAxioms.leb_spec.
  apply SFleb_refl. intros Heq. rewrite Heq in Hnan. discriminate.
Qed.

(** [p >= p_value] is false when [p] or [p_value] is not a number. *)
Lemma leb_nan (q p : float) :
  is_nan p = true \/ is_nan q = true -> (q <=? p)%float = false.
Proof.
  rewrite FloatAxioms.leb_spec. intros [Hnan | Hnan]; apply is_nan_spec in Hnan;
    rewrite Hnan; [apply SFleb_nan_r | apply SFleb_nan_l].
Qed.

Lemma SFcompare_Gt (x y : spec_float) :
  SFcompare x y = Some Gt -> SFcompare y x = Some Lt.
Proof.
  destruct x as [sx|sx| |sx mx ex], y as [sy|sy| |sy my ey]; simpl;
    try discriminate; try (by destruct sx); try (by destruct sy);
    try (by destruct sx, sy).
  destruct sx, sy; try done.
  - rewrite (Z.compare_antisym ex ey).
    destruct (ex ?= ey)%Z; simpl; try done.
    change Eq with (CompOpp Eq) at 2.
    rewrite <- (Pos.compare_cont_antisym mx my Eq).
    by destruct (Pos.compare_cont Eq mx my).
  - rewrite (Z.compare_antisym ex ey).
    destruct (ex ?= ey)%Z; simpl; try done.
    change Eq with (CompOpp Eq) at 2.
    rewrite <- (Pos.compare_cont_antisym mx my Eq).
    by destruct (Pos.compare_cont Eq mx my).
Qed.

Lemma SFcompare_None (x y : spec_float) :
  SFcompare x y = None -> x = S754_nan \/ y = S754_nan.
Proof.
  destruct x as [sx|sx| |sx mx ex], y as [sy|sy| |sy my ey]; simpl;
    try discriminate; tauto.
Qed.

Lemma is_nan_intro (p : float) : FloatOps.Prim2SF p = S754_nan -> is_nan p = true.
Proof.
  intros Hnan. unfold is_nan. by rewrite FloatAxioms.eqb_spec, Hnan.
Qed.

(** [p >= q] is false when [p < q], and otherwise only when one of the two
    is not a number. *)
Lemma leb_false (q p : float) :
  (q <=? p)%float = false ->
  (p <? q)%float = true \/ is_nan p = true \/ is_nan q = true.
Proof.
  rewrite FloatAxioms.leb_spec, FloatAxioms.ltb_spec. unfold SFleb, SFltb.
  destruct (SFcompare (FloatOps.Prim2SF q) (FloatOps.Prim2SF p)) as [[| |]|] eqn:Hc;
    try discriminate; intros _.
  - left. by rewrite (SFcompare_Gt _ _ Hc).
  - right. apply SFcompare_None in Hc as [Hq | Hp].
    + right. by apply is_nan_intro.
    + left. by apply is_nan_intro.
Qed.

(** ** More on [estimate_skeleton] *)

Section Skeleton_more.
Context {node : Type} `{Countable node}.
Variable nodes : list node.
Variable oracle : node -> node -> list node -> result float.
Variable p_value : float.
Variable set_order : list node -> list node.

Implicit Types (st : skeleton_state node) (n m u v : node) (k : nat).

Lemma passes_not_fails n m s :
  passes oracle p_value n m s -> fails oracle p_value n m s -> False.
Proof. intros (p & Hp & Hle) (q & Hq & Hlt). congruence. Qed.

(** X1.  Well-formed tests.  Every call of the test that the skeleton search
    made before it returned is for two distinct variables and a set of
    distinct variables other than the two, of the size [lim_neighbors] had
    then, which is below the final one; and every separating set returned is
    such a set for the pair of its key. *)
Theorem skeleton_tests_well_formed :
  NoDup nodes ->
  (forall l, set_order l ≡ₚ l) ->
  forall fuel st kf,
    estimate_skeleton_run nodes oracle p_value set_order fuel = Some (Ok (st, kf)) ->
    (forall k n m s,
        Tested k n m s ∈ trace st ->
        k < kf /\ length s = k /\ NoDup s
        /\ n ∈ nodes /\ m ∈ nodes /\ n ≠ m
        /\ (forall z, z ∈ s -> z ∈ nodes /\ z ≠ n /\ z ≠ m))
    /\ (forall key s,
          seperating_sets st !! key = Some s ->
          exists n m,
            key = frozenset2 n m /\ n ∈ nodes /\ m ∈ nodes /\ n ≠ m
            /\ length s < kf /\ NoDup s
            /\ (forall z, z ∈ s -> z ∈ nodes /\ z ≠ n /\ z ≠ m)).
Proof.
  intros Hnd Hperm fuel st kf Hrun.
  pose proof (estimate_skeleton_run_length nodes oracle p_value set_order
                fuel _ Hrun) as Hlen1.
  pose proof (estimate_skeleton_run_inv nodes oracle p_value set_order
                fuel st kf Hnd Hrun) as Hinv.
  destruct (skeleton_loop_rounds nodes oracle p_value set_order
              fuel 0 (skeleton_init nodes) st kf eq_refl Hrun) as (_ & Hkf & _).
  pose proof (state_at_round_from_candidates nodes oracle p_value set_order
                kf st Hnd Hlen1 Hkf) as Htrace.
  rewrite Forall_forall in Htrace.
  assert (Hshape : forall k n m s g,
    (n, m) ∈ ug_adj (complete_graph nodes) ->
    ug_nodes g = nodes ->
    ug_adj g ⊆ ug_adj (complete_graph nodes) ->
    s ∈ combinations (set_difference set_order (neighbors g n) [m]) k ->
    length s = k /\ NoDup s
    /\ n ∈ nodes /\ m ∈ nodes /\ n ≠ m
    /\ (forall z, z ∈ s -> z ∈ nodes /\ z ≠ n /\ z ≠ m)).
  { intros k n m s g Hnm Hg Hsub Hs.
    apply complete_graph_spec in Hnm as (Hn & Hm & Hne); [|done].
    destruct (candidate_well_formed nodes set_order g k n m s Hnd Hperm Hg Hsub Hs)
      as (Hlen & Hnds & Hns & Hms & Hin).
    split_and!; try done.
    intros z Hz. split_and!.
    - apply Hin, elem_of_neighbors in Hz as [_ Hz]. congruence.
    - intros ->. done.
    - intros ->. done. }
  split.
  - intros k n m s He. apply Htrace in He.
    destruct He as (Hk & Hnm & _ & g & Hg & Hsub & Hs).
    split; [done|]. by apply (Hshape k n m s g).
  - intros key s Hkey.
    destruct (inv_dom _ _ _ _ _ Hinv key s Hkey) as (k & n & m & -> & He).
    apply Htrace in He. destruct He as (Hk & Hnm & _ & g & Hg & Hsub & Hs).
    destruct (Hshape k n m s g Hnm Hg Hsub Hs) as (Hlen & Hrest).
    exists n, m. split; [done|].
    destruct Hrest as (Hnds & Hn & Hm & Hne & Hin).
    split_and!; try done. lia.
Qed.

(** X2.  The edges that remain were tested.  For an edge n - m of the skeleton
    returned and every set of other neighbours that n has in it, the search
    called the test of n and m given that set, its elements in some order,
    and the p-value did not reach the threshold: [>= p_value] was false, the
    p-value being below [p_value] or one of the two not a number. *)
Theorem remaining_edges_were_tested :
  NoDup nodes ->
  (forall l, set_order l ≡ₚ l) ->
  forall fuel st kf,
    estimate_skeleton_run nodes oracle p_value set_order fuel = Some (Ok (st, kf)) ->
    forall n m s,
      has_edge (graph st) n m = true ->
      NoDup s ->
      (forall z, z ∈ s -> has_edge (graph st) n z = true /\ z ≠ m) ->
      exists s' p,
        s' ≡ₚ s
        /\ Tested (length s) n m s' ∈ trace st
        /\ oracle n m s' = Ok p
        /\ (p_value <=? p)%float = false
        /\ ((p <? p_value)%float = true
            \/ is_nan p = true \/ is_nan p_value = true).
Proof.
  intros Hnd Hperm fuel st kf Hrun n m s Hedge Hs Hin.
  pose proof (estimate_skeleton_run_length nodes oracle p_value set_order
                fuel _ Hrun) as Hlen1.
  destruct (skeleton_loop_rounds nodes oracle p_value set_order
              fuel 0 (skeleton_init nodes) st kf eq_refl Hrun) as (_ & Hkf & Hdeg & _).
  destruct (state_at_round_nodes nodes oracle p_value set_order kf st Hnd Hlen1 Hkf)
    as [Hnodes Hsub].
  apply has_edge_true in Hedge.
  assert (Hnm : n ∈ nodes /\ m ∈ nodes).
  { apply Hsub, complete_graph_spec in Hedge; tauto. }
  destruct Hnm as [Hn Hm].
  assert (Hlen : length s < kf).
  { unfold degrees_below in Hdeg. rewrite forallb_forall in Hdeg.
    pose proof Hn as Hn'. apply list_elem_of_In in Hn'.
    specialize (Hdeg n Hn'). apply Nat.ltb_lt in Hdeg.
    assert (Hle : length (m :: s) <= length (neighbors (graph st) n)).
    { apply submseteq_length, NoDup_submseteq.
      - apply NoDup_cons. split; [|done]. intros Hms. by destruct (Hin m Hms).
      - intros z Hz. apply elem_of_neighbors. rewrite Hnodes.
        apply elem_of_cons in Hz as [-> | Hz]; [done|].
        destruct (Hin z Hz) as [Hnz _]. apply has_edge_true in Hnz.
        split; [done|]. apply Hsub, complete_graph_spec in Hnz; tauto. }
    simpl in Hle. lia. }
  destruct (state_at_round_defined nodes oracle p_value set_order
              (S (length s)) kf st) as [st1 Hst1]; [lia | done |].
  pose proof Hst1 as Hround. simpl in Hround.
  apply bind_Ok_inv in Hround as (st0 & Hst0 & Hround).
  destruct (state_at_round_nodes nodes oracle p_value set_order _ _ Hnd Hlen1 Hst0)
    as [Hnodes0 _].
  destruct (state_at_round_after nodes oracle p_value set_order
              (S (length s)) kf st1 st) as (_ & Hsub1 & Hpre1); [lia | done | done |].
  destruct (round_tests_remaining nodes oracle p_value set_order
              (length s) st0 st1 n m Hnodes0 Hn Hm Hround)
    as (g & Hg & Hsubg & _ & Hfails & Htested); [by apply Hsub1|].
  destruct (combinations_complete
              (set_difference set_order (neighbors g n) [m]) s)
    as (s' & Hs' & Hperm'); [| done | |].
  - unfold set_difference. rewrite Hperm.
    apply NoDup_list_difference, NoDup_remove_dups.
  - intros z Hz. destruct (Hin z Hz) as [Hnz Hzm].
    apply has_edge_true in Hnz.
    unfold set_difference.
    rewrite Hperm, list_elem_of_difference, elem_of_remove_dups, elem_of_neighbors.
    split_and!.
    + by apply Hsubg, Hsub1.
    + rewrite Hg. apply Hsub, complete_graph_spec in Hnz; tauto.
    + intros Hzin. apply list_elem_of_singleton in Hzin. done.
  - rewrite Forall_forall in Hfails. destruct (Hfails s' Hs') as (p & Hp & Hle).
    exists s', p. split_and!; [done | | done | done | by apply leb_false].
    apply (elem_of_prefix (trace st1)); [by apply Htested | done].
Qed.

(** X3.  Marginal independence is found in the first round.  When the test of
    two variables given the empty set reaches the threshold, the skeleton
    returned has no edge between them and their separating set is empty. *)
Theorem marginal_independence_recorded :
  NoDup nodes ->
  forall fuel st kf,
    estimate_skeleton_run nodes oracle p_value set_order fuel = Some (Ok (st, kf)) ->
    forall n m,
      n ∈ nodes -> m ∈ nodes -> n ≠ m ->
      passes oracle p_value n m [] ->
      has_edge (graph st) n m = false
      /\ seperating_sets st !! frozenset2 n m = Some [].
Proof.
  intros Hnd fuel st kf Hrun n m Hn Hm Hne Hpass.
  pose proof (estimate_skeleton_run_length nodes oracle p_value set_order
                fuel _ Hrun) as Hlen1.
  pose proof (complete_graph_nodes nodes Hnd Hlen1) as Hinit.
  pose proof (estimate_skeleton_run_inv nodes oracle p_value set_order
                fuel st kf Hnd Hrun) as Hinv.
  destruct (skeleton_loop_rounds nodes oracle p_value set_order
              fuel 0 (skeleton_init nodes) st kf eq_refl Hrun)
    as (_ & Hkf & Hdeg & _).
  assert (Hpos : 1 <= kf).
  { destruct kf as [|kf]; [|lia]. exfalso.
    unfold degrees_below in Hdeg. rewrite forallb_forall in Hdeg.
    apply list_elem_of_In in Hn. specialize (Hdeg n Hn).
    apply Nat.ltb_lt in Hdeg. lia. }
  destruct (state_at_round_defined nodes oracle p_value set_order 1 kf st)
    as [st1 Hst1]; [done | done |].
  pose proof Hst1 as Hround. simpl in Hround.
  destruct (state_at_round_after nodes oracle p_value set_order 1 kf st1 st)
    as (_ & Hsub1 & Hpre1); [done | done | done |].
  assert (Hinv1 : skeleton_inv nodes oracle p_value set_order st1).
  { apply (skeleton_round_inv nodes oracle p_value set_order 0 (skeleton_init nodes));
      [done | by apply skeleton_init_inv | done]. }
  assert (Hgone : (n, m) ∉ ug_adj (graph st1)).
  { intros Hedge.
    destruct (round_tests_remaining nodes oracle p_value set_order
                0 (skeleton_init nodes) st1 n m Hinit Hn Hm Hround Hedge)
      as (g & _ & _ & _ & Hfails & _).
    rewrite combinations_0 in Hfails. apply Forall_inv in Hfails.
    by apply (passes_not_fails n m []). }
  assert (Hcomplete : (n, m) ∈ ug_adj (complete_graph nodes))
    by (by apply complete_graph_spec).
  destruct (proj1 (inv_keys _ _ _ _ _ Hinv1 n m Hcomplete) Hgone) as [s Hs].
  destruct (inv_dom _ _ _ _ _ Hinv1 _ _ Hs) as (k & n' & m' & Hkey & He).
  pose proof (state_at_round_from_candidates nodes oracle p_value set_order
                1 st1 Hnd Hlen1 Hst1) as Htrace.
  rewrite Forall_forall in Htrace.
  destruct (Htrace _ He) as (Hk & _ & _ & g & _ & _ & Hcand).
  apply combinations_sublist in Hcand as [_ Hlen].
  assert (s = []) as -> by (apply nil_length_inv; lia).
  apply (elem_of_prefix _ (trace st)) in He; [|done].
  apply list_elem_of_split in He as (l1 & l2 & Htr).
  destruct (inv_recorded _ _ _ _ _ Hinv _ _ _ _ _ _ Htr) as (_ & Hfinal & _).
  split.
  - apply has_edge_false. intros Hedge. by apply Hgone, Hsub1.
  - by rewrite Hkey.
Qed.

(** X4.  No independence, no removal.  When every test of two distinct
    variables returns a p-value below the threshold, the search makes as
    many rounds as there are variables and returns the complete graph with
    no separating set; [estimate] then returns every edge in both
    directions.  This is for any number of variables but one: the graph of
    a single variable has no node, and the search raises. *)
Theorem no_independence_complete_graph
    (pdag_remove : DirectedGraph node -> node -> node -> result (DirectedGraph node))
    (all_simple_paths :
       DirectedGraph node -> node -> node -> result (list (list (node * node)))) :
  NoDup nodes ->
  length nodes ≠ 1 ->
  (forall n m s, n ∈ nodes -> m ∈ nodes -> n ≠ m -> fails oracle p_value n m s) ->
  forall fuel,
    length nodes <= fuel ->
    exists st,
      estimate_skeleton_run nodes oracle p_value set_order fuel
        = Some (Ok (st, length nodes))
      /\ graph st = complete_graph nodes
      /\ seperating_sets st = ∅
      /\ estimate nodes oracle p_value set_order pdag_remove all_simple_paths (S fuel)
         = Some (Ok (to_directed (complete_graph nodes))).
Proof.
  intros Hnd Hlen1 Hfails fuel Hfuel.
  destruct (estimate_skeleton_run_returns nodes oracle p_value set_order fuel)
    as (st & kf & Hrun); [done | done | done | |].
  { intros n m s Hnm. apply complete_graph_spec in Hnm as (Hn & Hm & Hne); [|done].
    destruct (Hfails n m s Hn Hm Hne) as (p & Hp & _). by exists p. }
  pose proof (estimate_skeleton_run_inv nodes oracle p_value set_order
                fuel st kf Hnd Hrun) as Hinv.
  destruct (skeleton_loop_rounds nodes oracle p_value set_order
              fuel 0 (skeleton_init nodes) st kf eq_refl Hrun)
    as (_ & Hkf & Hdeg & Hbefore).
  assert (Hseps : seperating_sets st = ∅).
  { apply map_empty. intros key.
    destruct (seperating_sets st !! key) as [s|] eqn:Hkey; [exfalso | done].
    destruct (inv_dom _ _ _ _ _ Hinv _ _ Hkey) as (k & n & m & _ & He).
    apply list_elem_of_split in He as (l1 & l2 & Htr).
    destruct (inv_recorded _ _ _ _ _ Hinv _ _ _ _ _ _ Htr)
      as (_ & _ & _ & g & _ & _ & Hsubg & Hg & (pre & post & l0 & _ & _ & Hpass & _)).
    apply Hsubg, complete_graph_spec in Hg as (Hn & Hm & Hne); [|done].
    apply (passes_not_fails n m s Hpass). by apply Hfails. }
  assert (Hadj : ug_adj (graph st) = ug_adj (complete_graph nodes)).
  { apply set_eq. intros [u v]. split; [apply (inv_sub _ _ _ _ _ Hinv)|].
    intros Huv. destruct (decide ((u, v) ∈ ug_adj (graph st))) as [|Hnot]; [done|].
    apply (inv_keys _ _ _ _ _ Hinv u v Huv) in Hnot as [s Hs].
    rewrite Hseps, lookup_empty in Hs. done. }
  assert (Hgraph : graph st = complete_graph nodes).
  { pose proof (inv_nodes _ _ _ _ _ Hinv) as Hnodes.
    rewrite <- (complete_graph_nodes nodes Hnd Hlen1) in Hnodes.
    destruct (graph st) as [ns adj], (complete_graph nodes) as [ns' adj'].
    simpl in *. by subst. }
  assert (Hrounds : kf = length nodes).
  { apply Nat.le_antisymm.
    - destruct (decide (kf <= length nodes)) as [|Hgt]; [done | exfalso].
      destruct (state_at_round_defined nodes oracle p_value set_order
                  (length nodes) kf st) as [stj Hstj]; [lia | done |].
      destruct (state_at_round_nodes nodes oracle p_value set_order _ _
                  Hnd Hlen1 Hstj) as [Hnj Hsubj].
      assert (Hfalse : degrees_below nodes (length nodes) (graph stj) = false)
        by (apply Hbefore; [lia | done]).
      rewrite degrees_below_length in Hfalse; done.
    - destruct nodes as [|n ns] eqn:Hns; [simpl; lia|]. rewrite <- Hns in *.
      assert (Hn : n ∈ nodes) by (rewrite Hns; by left).
      unfold degrees_below in Hdeg. rewrite forallb_forall in Hdeg.
      pose proof Hn as Hn'. apply list_elem_of_In in Hn'.
      specialize (Hdeg n Hn'). apply Nat.ltb_lt in Hdeg.
      rewrite Hgraph in Hdeg.
      pose proof (complete_graph_degree nodes n Hnd Hn). lia. }
  subst kf. exists st. split_and!; try done.
  assert (Hrun' : estimate_skeleton_run nodes oracle p_value set_order (S fuel)
                  = Some (Ok (st, length nodes))).
  { apply (skeleton_loop_more_fuel nodes oracle p_value set_order fuel); [lia | done]. }
  unfold estimate, estimate_skeleton. rewrite Hrun'.
  rewrite orient_collider_step, Hgraph, Hseps.
  unfold collider_step. rewrite for_iter_for_each.
  destruct (for_each_returns (fun t => t = to_directed (complete_graph nodes))
              (collider_body set_order (complete_graph nodes) ∅)
              (combinations2 (dg_nodes (to_directed (complete_graph nodes))))
              (to_directed (complete_graph nodes)))
    as (pdag & -> & ->); [|done|done].
  intros [X Y] t HXY ->. exists (to_directed (complete_graph nodes)).
  split; [|done]. unfold collider_body.
  assert (Hedge : has_edge (complete_graph nodes) X Y = true).
  { apply has_edge_true, elem_of_complete_graph. left.
    cbn [to_directed dg_nodes] in HXY.
    by rewrite (complete_graph_nodes nodes Hnd Hlen1) in HXY. }
  by rewrite Hedge.
Qed.

(** X5.  Pairwise independence, one round.  With two variables or more, when
    the test of every two distinct variables given the empty set reaches the
    threshold, the search returns after its first round with no edge and the
    empty separating set for every pair; tests with a conditioning variable
    are never called. *)
Theorem all_independent_empty_graph :
  NoDup nodes ->
  2 <= length nodes ->
  (forall n m, n ∈ nodes -> m ∈ nodes -> n ≠ m -> passes oracle p_value n m []) ->
  forall fuel,
    exists st,
      estimate_skeleton_run nodes oracle p_value set_order (S fuel) = Some (Ok (st, 1))
      /\ ug_adj (graph st) = ∅
      /\ (forall n m, n ∈ nodes -> m ∈ nodes -> n ≠ m ->
            seperating_sets st !! frozenset2 n m = Some [])
      /\ (forall k n m s, Tested k n m s ∈ trace st -> s = []).
Proof.
  intros Hnd Htwo Hpass fuel.
  assert (Hlen1 : length nodes ≠ 1) by lia.
  pose proof (complete_graph_nodes nodes Hnd Hlen1) as Hinit.
  assert (Hround : exists st1,
    skeleton_round nodes oracle p_value set_order 0 (skeleton_init nodes) = Ok st1).
  { unfold skeleton_round.
    destruct (for_each_returns
                (fun t => ug_nodes (graph t) = nodes
                          /\ ug_adj (graph t) ⊆ ug_adj (complete_graph nodes))
                (visit_node oracle p_value set_order 0) nodes (skeleton_init nodes))
      as (st1 & Hst1 & _); [|done|by exists st1].
    intros n t Hin [Hnodes Hsub].
    rewrite visit_node_unfold by (by rewrite Hnodes).
    destruct (for_each_returns
                (fun t1 => ug_adj (graph t1) ⊆ ug_adj (graph t))
                (try_neighbor oracle p_value set_order 0 n)
                (neighbors (graph t) n) t)
      as (t' & Ht' & Hsub'); [|done|].
    - intros m t1 Hm Ht1. apply elem_of_neighbors in Hm as [Hm _].
      apply Hsub, complete_graph_spec in Hm as (Hn & Hm & Hnm); [|done].
      destruct (Hpass n m Hn Hm Hnm) as (p & Hp & Hle).
      assert (Htry : exists t2,
        try_neighbor oracle p_value set_order 0 n m t1 = Ok t2).
      { unfold try_neighbor. rewrite combinations_0. simpl.
        rewrite Hp. simpl. rewrite Hle. simpl. by eexists. }
      destruct Htry as [t2 Ht2]. exists t2. split; [done|].
      apply try_neighbor_after in Ht2 as (_ & Hsub2 & _). by etrans.
    - exists t'. split; [done|].
      apply (for_each_invariant (fun t1 => ug_nodes (graph t1) = nodes)) in Ht' as Hn';
        [by split; [|etrans] | | done].
      intros m t1 t2 _ Ht1 Htry. apply try_neighbor_shrinks in Htry as [-> _]. done. }
  destruct Hround as [st1 Hround].
  assert (Hst1 : state_at_round nodes oracle p_value set_order 1 = Ok st1) by done.
  destruct (state_at_round_nodes nodes oracle p_value set_order 1 st1 Hnd Hlen1 Hst1)
    as [Hnodes1 Hsub1].
  assert (Hinv1 : skeleton_inv nodes oracle p_value set_order st1).
  { apply (skeleton_round_inv nodes oracle p_value set_order 0 (skeleton_init nodes));
      [done | by apply skeleton_init_inv | done]. }
  assert (Hempty : ug_adj (graph st1) = ∅).
  { apply set_eq. intros [n m]. split; [|by intros ?%not_elem_of_empty].
    intros Hedge. exfalso.
    pose proof Hedge as Hnm.
    apply Hsub1, complete_graph_spec in Hnm as (Hn & Hm & Hnm); [|done].
    destruct (round_tests_remaining nodes oracle p_value set_order
                0 (skeleton_init nodes) st1 n m Hinit Hn Hm Hround Hedge)
      as (g & _ & _ & _ & Hfails & _).
    rewrite combinations_0 in Hfails. apply Forall_inv in Hfails.
    apply (passes_not_fails n m [] (Hpass n m Hn Hm Hnm) Hfails). }
  pose proof (state_at_round_from_candidates nodes oracle p_value set_order
                1 st1 Hnd Hlen1 Hst1) as Htrace.
  rewrite Forall_forall in Htrace.
  assert (Hsize : forall k (s : list node) g n m,
    k < 1 ->
    s ∈ combinations (set_difference set_order (neighbors g n) [m]) k -> s = []).
  { intros k s g n m Hk Hs. apply combinations_sublist in Hs as [_ Hlen].
    apply nil_length_inv. lia. }
  exists st1. split_and!.
  - unfold estimate_skeleton_run. cbn [skeleton_loop].
    assert (Hdeg0 : degrees_below nodes 0 (graph (skeleton_init nodes)) = false).
    { unfold degrees_below. destruct nodes; [simpl in Htwo; lia | done]. }
    rewrite all_degrees_below_Ok by (intros n; cbn [skeleton_init graph]; by rewrite Hinit).
    rewrite Hdeg0, Hround.
    assert (Hdeg1 : degrees_below nodes 1 (graph st1) = true).
    { unfold degrees_below. apply forallb_forall. intros n _. apply Nat.ltb_lt.
      assert (neighbors (graph st1) n = []) as ->; [|simpl; lia].
      unfold neighbors. rewrite Hempty.
      generalize (ug_nodes (graph st1)). intros l.
      induction l as [|a l IH]; [done|].
      rewrite filter_cons_False; [exact IH|]. apply not_elem_of_empty. }
    destruct fuel; cbn [skeleton_loop];
      rewrite all_degrees_below_Ok by (by rewrite Hnodes1); by rewrite Hdeg1.
  - done.
  - intros n m Hn Hm Hnm.
    assert (Hcomplete : (n, m) ∈ ug_adj (complete_graph nodes))
      by (by apply complete_graph_spec).
    destruct (proj1 (inv_keys _ _ _ _ _ Hinv1 n m Hcomplete)) as [s Hs].
    { rewrite Hempty. apply not_elem_of_empty. }
    destruct (inv_dom _ _ _ _ _ Hinv1 _ _ Hs) as (k & n' & m' & _ & He).
    destruct (Htrace _ He) as (Hk & _ & _ & g & _ & _ & Hcand).
    by rewrite Hs, (Hsize k s g n' m' Hk Hcand).
  - intros k n m s He.
    destruct (Htrace _ He) as (Hk & _ & _ & g & _ & _ & Hcand).
    by apply (Hsize k s g n m).
Qed.

End Skeleton_more.

(** ** No test is made twice *)

(** A property of the items done so far that every iteration extends
    holds of all items when the loop ends. *)
Lemma for_each_prefix {A S : Type} (P : list A -> S -> Prop)
    (body : A -> S -> result S) (xs : list A) (s s' : S) :
  (forall pre x post t t',
      xs = pre ++ x :: post -> P pre t -> body x t = Ok t' -> P (pre ++ [x]) t') ->
  P [] s -> for_each body xs s = Ok s' -> P xs s'.
Proof.
  intros Hstep.
  assert (Hgen : forall rest pre t,
    xs = pre ++ rest -> P pre t -> for_each body rest t = Ok s' -> P xs s').
  { induction rest as [|x rest IH]; intros pre t Heq Hpre Hrun; simpl in Hrun.
    - inversion Hrun; subst. by rewrite app_nil_r.
    - apply bind_Ok_inv in Hrun as (t1 & Hx & Hrest).
      apply (IH (pre ++ [x]) t1); [by rewrite <- app_assoc | | done].
      by apply (Hstep pre x rest t t1). }
  intros Hs Hrun. by apply (Hgen xs [] s).
Qed.

Lemma NoDup_combinations {A : Type} (l : list A) (k : nat) :
  NoDup l -> NoDup (combinations l k).
Proof.
  intros Hnd. revert k. induction Hnd as [|x l Hx Hnd IH]; intros k.
  - destruct k; simpl; [apply NoDup_singleton | constructor].
  - destruct k as [|k]; simpl; [apply NoDup_singleton|].
    apply NoDup_app. split_and!.
    + apply (NoDup_fmap_2_strong (cons x)); [|apply IH].
      intros a b _ _ Heq. by inversion Heq.
    + intros s Hs Hs'. apply list_elem_of_fmap in Hs as (s0 & -> & _).
      apply combinations_sublist in Hs' as [Hsub _].
      apply Hx. apply (sublist_subseteq _ _ Hsub). by left.
    + apply IH.
Qed.

Section No_repetition.
Context {node : Type} `{Countable node}.
Variable nodes : list node.
Variable oracle : node -> node -> list node -> result float.
Variable p_value : float.
Variable set_order : list node -> list node.

Implicit Types (st : skeleton_state node) (n m : node) (k : nat).
Implicit Types (e : event node).

Lemma event_at_inv k n m k' n' m' e :
  event_at k n m e -> event_at k' n' m' e -> k = k' /\ n = n' /\ m = m'.
Proof.
  intros [s [-> | ->]] [s' [Heq | Heq]]; by inversion Heq.
Qed.

(** The calls and the record of one execution of the loop body are new and
    differ from each other. *)
Lemma try_neighbor_NoDup k n m st st' :
  (forall l, set_order l ≡ₚ l) ->
  NoDup (trace st) ->
  (forall e, e ∈ trace st -> ~ event_at k n m e) ->
  try_neighbor oracle p_value set_order k n m st = Ok st' ->
  NoDup (trace st')
  /\ forall e, e ∈ trace st' -> e ∈ trace st \/ event_at k n m e.
Proof.
  intros Hperm Hnd Hfresh Hrun. apply try_neighbor_spec in Hrun.
  assert (Hcands : NoDup (combinations
                            (set_difference set_order (neighbors (graph st) n) [m]) k)).
  { apply NoDup_combinations. unfold set_difference. rewrite Hperm.
    apply NoDup_list_difference, NoDup_remove_dups. }
  assert (Htests : forall l, NoDup l -> NoDup (map (Tested k n m) l)).
  { intros l Hl. apply (NoDup_fmap_2_strong (Tested k n m)); [|done].
    intros a b _ _ Heq. by inversion Heq. }
  assert (Hat : forall l e, e ∈ map (Tested k n m) l -> event_at k n m e).
  { intros l e He. apply list_elem_of_fmap in He as (s & -> & _).
    exists s. by left. }
  destruct Hrun as [(pre & s & post & Hc & _ & _ & _ & _ & ->) | (_ & _ & _ & ->)].
  - rewrite Hc in Hcands.
    apply NoDup_app in Hcands as (Hpre & Hdisj & Hpost).
    apply NoDup_cons in Hpost as [Hs _].
    assert (Hnew : NoDup (map (Tested k n m) pre
                          ++ [Tested k n m s; Recorded k n m s])).
    { apply NoDup_app. split_and!.
      - by apply Htests.
      - intros e He Hin. apply list_elem_of_fmap in He as (c & -> & Hc').
        apply elem_of_cons in Hin as [Heq | Hin].
        + inversion Heq; subst c. apply (Hdisj s Hc'). by left.
        + apply list_elem_of_singleton in Hin. discriminate.
      - apply NoDup_cons. split; [|apply NoDup_singleton].
        intros Hin. apply list_elem_of_singleton in Hin. discriminate. }
    assert (Hall : forall e,
      e ∈ map (Tested k n m) pre ++ [Tested k n m s; Recorded k n m s] ->
      event_at k n m e).
    { intros e He. apply elem_of_app in He as [He | He]; [by apply (Hat pre)|].
      apply elem_of_cons in He as [-> | He]; [exists s; by left|].
      apply list_elem_of_singleton in He as ->. exists s. by right. }
    split.
    + apply NoDup_app. split_and!; [done | | done].
      intros e He Hin. by apply (Hfresh e He), Hall.
    + intros e He. apply elem_of_app in He as [He | He]; [by left|].
      right. by apply Hall.
  - split.
    + apply NoDup_app. split_and!; [done | | by apply Htests].
      intros e He Hin. by apply (Hfresh e He), (Hat _ _ Hin).
    + intros e He. apply elem_of_app in He as [He | He]; [by left|].
      right. by apply (Hat _ _ He).
Qed.

Lemma visit_node_NoDup k n st st' :
  (forall l, set_order l ≡ₚ l) ->
  NoDup (ug_nodes (graph st)) ->
  NoDup (trace st) ->
  (forall e m, e ∈ trace st -> ~ event_at k n m e) ->
  visit_node oracle p_value set_order k n st = Ok st' ->
  NoDup (trace st')
  /\ forall e, e ∈ trace st' -> e ∈ trace st \/ exists m, event_at k n m e.
Proof.
  intros Hperm Hnodes Hnd Hfresh Hrun. apply visit_node_Ok_inv in Hrun as [_ Hrun].
  pose proof (NoDup_neighbors (graph st) n Hnodes) as Hms.
  cut (NoDup (trace st')
       /\ forall e, e ∈ trace st' ->
            e ∈ trace st
            \/ exists m, m ∈ neighbors (graph st) n /\ event_at k n m e).
  { intros [Hnd' Hin]. split; [done|]. intros e He.
    destruct (Hin e He) as [? | (m & _ & ?)]; [by left | right; by exists m]. }
  revert Hrun.
  apply (for_each_prefix
           (fun pre t =>
              NoDup (trace t)
              /\ forall e, e ∈ trace t ->
                   e ∈ trace st \/ exists m, m ∈ pre /\ event_at k n m e)).
  - intros pre m post t t' Heq [Hndt Hint] Hstep.
    destruct (try_neighbor_NoDup k n m t t' Hperm Hndt) as [Hndt' Hint'];
      [|done|].
    + intros e He Hat. destruct (Hint e He) as [Hold | (m' & Hm' & Hat')].
      * by apply (Hfresh e m Hold).
      * destruct (event_at_inv _ _ _ _ _ _ _ Hat Hat') as (_ & _ & <-).
        rewrite Heq in Hms. apply NoDup_app in Hms as (_ & Hdisj & _).
        apply (Hdisj m Hm'). by left.
    + split; [done|]. intros e He.
      destruct (Hint' e He) as [Hold | Hat].
      * destruct (Hint e Hold) as [? | (m' & Hm' & Hat')]; [by left|].
        right. exists m'. split; [|done]. apply elem_of_app. by left.
      * right. exists m. split; [|done]. apply elem_of_app. right. by left.
  - split; [done|]. intros e He. by left.
Qed.

Lemma skeleton_round_NoDup k st st' :
  (forall l, set_order l ≡ₚ l) ->
  NoDup nodes ->
  ug_nodes (graph st) = nodes ->
  NoDup (trace st) ->
  (forall e n m, e ∈ trace st -> ~ event_at k n m e) ->
  skeleton_round nodes oracle p_value set_order k st = Ok st' ->
  NoDup (trace st').
Proof.
  intros Hperm Hnodes Hg Hnd Hfresh Hrun. unfold skeleton_round in Hrun.
  cut (ug_nodes (graph st') = nodes
       /\ NoDup (trace st')
       /\ forall e, e ∈ trace st' ->
            e ∈ trace st \/ exists n m, n ∈ nodes /\ event_at k n m e); [tauto|].
  revert Hrun.
  apply (for_each_prefix
           (fun pre t =>
              ug_nodes (graph t) = nodes
              /\ NoDup (trace t)
              /\ forall e, e ∈ trace t ->
                   e ∈ trace st \/ exists n m, n ∈ pre /\ event_at k n m e)).
  - intros pre n post t t' Heq (Hgt & Hndt & Hint) Hstep.
    destruct (visit_node_shrinks _ _ _ _ _ _ _ Hstep) as [Hgt' _].
    destruct (visit_node_NoDup k n t t' Hperm) as [Hndt' Hint'];
      [by rewrite Hgt | done | | done |].
    + intros e m He Hat. destruct (Hint e He) as [Hold | (n' & m' & Hn' & Hat')].
      * by apply (Hfresh e n m Hold).
      * destruct (event_at_inv _ _ _ _ _ _ _ Hat Hat') as (_ & <- & _).
        rewrite Heq in Hnodes. apply NoDup_app in Hnodes as (_ & Hdisj & _).
        apply (Hdisj n Hn'). by left.
    + split_and!; [congruence | done |]. intros e He.
      destruct (Hint' e He) as [Hold | [m Hat]].
      * destruct (Hint e Hold) as [? | (n' & m' & Hn' & Hat')]; [by left|].
        right. exists n', m'. split; [|done]. apply elem_of_app. by left.
      * right. exists n, m. split; [|done]. apply elem_of_app. right. by left.
  - split_and!; [done | done |]. intros e He. by left.
Qed.

Lemma state_at_round_NoDup j st :
  (forall l, set_order l ≡ₚ l) ->
  NoDup nodes -> length nodes ≠ 1 ->
  state_at_round nodes oracle p_value set_order j = Ok st ->
  NoDup (trace st).
Proof.
  intros Hperm Hnodes Hlen1. revert st.
  induction j as [|j IH]; intros st Hj; simpl in Hj.
  - inversion Hj; subst. constructor.
  - apply bind_Ok_inv in Hj as (st0 & Hst0 & Hround).
    destruct (state_at_round_nodes nodes oracle p_value set_order _ _
                Hnodes Hlen1 Hst0) as [Hg _].
    pose proof (state_at_round_from_candidates nodes oracle p_value set_order
                  j st0 Hnodes Hlen1 Hst0) as Htrace.
    rewrite Forall_forall in Htrace.
    apply (skeleton_round_NoDup j st0 st Hperm Hnodes Hg (IH _ Hst0)); [|done].
    intros e n m He [s [-> | ->]]; apply Htrace in He as (Hlt & _); lia.
Qed.

(** X6.  No test is made twice.  With distinct variables the skeleton
    search never calls the test a second time with the same X, the same Y
    and the same tuple Zs. *)
Theorem no_test_is_repeated :
  NoDup nodes ->
  (forall l, set_order l ≡ₚ l) ->
  forall fuel st kf,
    estimate_skeleton_run nodes oracle p_value set_order fuel = Some (Ok (st, kf)) ->
    forall l1 l2 k n m s,
      trace st = l1 ++ Tested k n m s :: l2 ->
      forall k', Tested k' n m s ∉ l1 ++ l2.
Proof.
  intros Hnodes Hperm fuel st kf Hrun l1 l2 k n m s Htr k' Hin.
  pose proof (estimate_skeleton_run_length nodes oracle p_value set_order
                fuel _ Hrun) as Hlen1.
  destruct (skeleton_loop_rounds nodes oracle p_value set_order
              fuel 0 (skeleton_init nodes) st kf eq_refl Hrun) as (_ & Hkf & _).
  pose proof (state_at_round_NoDup kf st Hperm Hnodes Hlen1 Hkf) as Hnd.
  pose proof (state_at_round_from_candidates nodes oracle p_value set_order
                kf st Hnodes Hlen1 Hkf) as Htrace.
  rewrite Forall_forall in Htrace.
  assert (Hlen : forall j, Tested j n m s ∈ trace st -> j = length s).
  { intros j Hj. apply Htrace in Hj as (_ & _ & _ & g & _ & _ & Hc).
    apply combinations_sublist in Hc as [_ Hlen]. done. }
  assert (k' = k) as ->.
  { rewrite (Hlen k), (Hlen k'); [done | |].
    - rewrite Htr. apply elem_of_app in Hin as [Hin | Hin].
      + apply elem_of_app. by left.
      + apply elem_of_app. right. by right.
    - rewrite Htr. apply elem_of_app. right. by left. }
  rewrite Htr in Hnd. apply NoDup_app in Hnd as (_ & Hdisj & Hnd).
  apply NoDup_cons in Hnd as [Hl2 _].
  apply elem_of_app in Hin as [Hin | Hin]; [|done].
  apply (Hdisj _ Hin). by left.
Qed.

End No_repetition.

(** ** More on [estimate] *)

Section Estimate_more.
Context {node : Type} `{Countable node}.
Variable nodes : list node.
Variable oracle : node -> node -> list node -> result float.
Variable p_value : float.
Variable set_order : list node -> list node.
Variable pdag_remove : DirectedGraph node -> node -> node -> result (DirectedGraph node).
Variable all_simple_paths :
  DirectedGraph node -> node -> node -> result (list (list (node * node))).

(** X7.  The exceptions of [estimate].  With distinct variables, and any
    number of them but one, [estimate] returns a PDAG unless a test of two
    distinct variables raises, and then it raises what that test raises:
    the subscript [seperating_sets[...]] of the collider step finds its
    key, every [neighbors] is asked of a node of the graph, and neither
    [pdag.remove] nor [nx] is reached.  With exactly one variable the graph
    built from no edge has no node, and the first [skel_graph.neighbors]
    raises networkx's error before any test. *)
Theorem estimate_raises_what_a_test_raises :
  NoDup nodes ->
  forall fuel,
    length nodes <= S fuel ->
    (length nodes = 1 ->
       estimate nodes oracle p_value set_order pdag_remove all_simple_paths (S fuel)
       = Some (Raise NetworkXError))
    /\ (length nodes ≠ 1 ->
        (exists pdag,
            estimate nodes oracle p_value set_order pdag_remove all_simple_paths
              (S fuel) = Some (Ok pdag))
        \/ (exists e n m s,
              estimate nodes oracle p_value set_order pdag_remove all_simple_paths
                (S fuel) = Some (Raise e)
              /\ n ∈ nodes /\ m ∈ nodes /\ n ≠ m
              /\ oracle n m s = Raise e)).
Proof.
  intros Hnd fuel Hfuel. split.
  { intros Hone.
    assert (Hsingle : exists a, nodes = [a]).
    { destruct nodes as [|a [|b l]]; try discriminate Hone. by exists a. }
    destruct Hsingle as [a Ha].
    unfold estimate, estimate_skeleton.
    by rewrite (estimate_skeleton_run_single nodes oracle p_value set_order a (S fuel) Ha). }
  intros Hlen1.
  pose proof (complete_graph_nodes nodes Hnd Hlen1) as Hinit.
  destruct (skeleton_loop_terminates nodes oracle p_value set_order
              (S fuel) 0 (skeleton_init nodes) Hnd Hinit) as [[[st kf]|e] Hr];
    [done | lia | |].
  - left.
    pose proof (estimate_skeleton_run_inv nodes oracle p_value set_order
                  (S fuel) st kf Hnd Hr) as Hinv.
    destruct (collider_step_returns set_order (graph st) (seperating_sets st))
      as [pdag Hstep].
    { intros X Y HXY Hedge. rewrite (inv_nodes _ _ _ _ _ Hinv) in HXY.
      apply (inv_keys _ _ _ _ _ Hinv).
      - apply elem_of_complete_graph. by left.
      - by apply has_edge_false. }
    exists pdag. unfold estimate, estimate_skeleton, estimate_skeleton_run.
    rewrite Hr, orient_collider_step. by rewrite Hstep.
  - right.
    destruct (skeleton_loop_raises nodes oracle p_value set_order
                (S fuel) 0 (skeleton_init nodes) e Hinit (reflexivity _) Hr)
      as (g & j & n & m & s & _ & _ & Hnm & _ & Hraise).
    apply complete_graph_spec in Hnm as (Hn & Hm & Hne); [|done].
    exists e, n, m, s. split_and!; try done.
    unfold estimate, estimate_skeleton, estimate_skeleton_run. by rewrite Hr.
Qed.

(** X8.  The edges of the PDAG.  [estimate] returns the nodes of the skeleton
    with the edge a -> b exactly when a - b is an edge of the skeleton and
    no pair X, Y of [node_pairs] that is not adjacent has b as one of its
    two nodes and a as a neighbour of X outside its separating set. *)
Theorem pdag_edges_characterised :
  NoDup nodes ->
  (forall l, set_order l ≡ₚ l) ->
  forall fuel skel seps pdag,
    estimate_skeleton nodes oracle p_value set_order (S fuel) = Some (Ok (skel, seps)) ->
    estimate nodes oracle p_value set_order pdag_remove all_simple_paths (S fuel)
      = Some (Ok pdag) ->
    dg_nodes pdag = nodes
    /\ forall a b,
         dg_has_edge pdag a b = true
         <-> has_edge skel a b = true
             /\ ~ exists X Y s,
                    (X, Y) ∈ combinations2 nodes
                    /\ has_edge skel X Y = false
                    /\ seps !! frozenset2 X Y = Some s
                    /\ has_edge skel X a = true
                    /\ (a ∉ s)
                    /\ (b = X \/ b = Y).
Proof.
  intros Hnd Hperm fuel skel seps pdag Hskel Hest.
  pose proof Hskel as Hskel'.
  apply estimate_skeleton_inv in Hskel'
    as (st & kf & _ & -> & -> & [Hn Hsub _ _ _ _]); [|done].
  unfold estimate in Hest. rewrite Hskel, orient_collider_step in Hest.
  destruct (collider_step set_order (graph st) (seperating_sets st))
    as [[pdag' it]|e] eqn:Hstep; [|discriminate].
  inversion Hest; subst pdag'; clear Hest.
  pose proof (collider_step_edges set_order _ _ _ _ Hperm Hstep) as Hedges.
  split.
  - unfold collider_step in Hstep. rewrite for_iter_for_each in Hstep.
    apply bind_Ok_inv in Hstep as (pdag1 & Hloop & Hret). inversion Hret; subst.
    apply collider_loop_edges in Hloop as [Hnodes _]; [|done].
    by rewrite Hnodes.
  - intros a b. unfold dg_has_edge. rewrite bool_decide_eq_true, Hedges.
    rewrite has_edge_true, Hn. split.
    + intros [Hab Hno]. split; [done|].
      intros (X & Y & s & HXY & Hedge & Hs & HXa & Ha & Hb).
      apply (Hno (X, Y) HXY). unfold collider_removes. simpl.
      split_and!; [done | | done | by exists s].
      apply has_edge_true in HXa. apply elem_of_neighbors. split; [done|].
      rewrite Hn. apply Hsub, complete_graph_spec in HXa; tauto.
    + intros [Hab Hno]. split; [done|].
      intros [X Y] HXY (Hedge & Ha & Hb & s & Hs & Hnotin). simpl in *.
      apply Hno. exists X, Y, s. split_and!; try done.
      apply has_edge_true. by apply elem_of_neighbors in Ha as [? _].
Qed.

End Estimate_more.

(** ** The comparison with the threshold *)

Section Threshold.
Context {node : Type} `{Countable node}.
Variable oracle : node -> node -> list node -> result float.
Variable p_value : float.
Variable set_order : list node -> list node.

(** X9.  The comparison with the threshold, line 212.  When the test
    returns a value that is not a number for every candidate set, or the
    threshold is not a number, the body of the loop over the neighbours
    tests every candidate and removes and records nothing: [>= p_value] is
    false.  A p-value equal to a threshold that is a number reaches it: the
    edge is removed and the set recorded. *)
Theorem threshold_comparison :
  (forall k n m (st : skeleton_state node),
      (forall s,
          s ∈ combinations (set_difference set_order (neighbors (graph st) n) [m]) k ->
          exists p, oracle n m s = Ok p
                    /\ (is_nan p = true \/ is_nan p_value = true)) ->
      exists st',
        try_neighbor oracle p_value set_order k n m st = Ok st'
        /\ graph st' = graph st
        /\ seperating_sets st' = seperating_sets st
        /\ trace st'
           = trace st
             ++ map (Tested k n m)
                  (combinations
                     (set_difference set_order (neighbors (graph st) n) [m]) k))
  /\ (forall k n m (st : skeleton_state node) s rest,
        is_nan p_value = false ->
        combinations (set_difference set_order (neighbors (graph st) n) [m]) k
          = s :: rest ->
        oracle n m s = Ok p_value ->
        exists st',
          try_neighbor oracle p_value set_order k n m st = Ok st'
          /\ graph st' = remove_edge (graph st) n m
          /\ seperating_sets st' = <[frozenset2 n m := s]> (seperating_sets st)).
Proof.
  split.
  - intros k n m st Hnan. unfold try_neighbor.
    assert (Hsearch : forall cands tr,
      (forall s, s ∈ cands ->
         exists p, oracle n m s = Ok p
                   /\ (is_nan p = true \/ is_nan p_value = true)) ->
      search_separating_set oracle p_value k n m cands tr
      = Ok (None, tr ++ map (Tested k n m) cands)).
    { induction cands as [|c cands IH]; intros tr Hall; simpl.
      - by rewrite app_nil_r.
      - destruct (Hall c) as (p & Hp & Hpnan); [by left|].
        rewrite Hp. simpl. rewrite (leb_nan p_value p Hpnan).
        rewrite IH, <- app_assoc; [done|]. intros s Hs. apply Hall. by right. }
    rewrite (Hsearch _ _ Hnan). simpl. by eexists.
  - intros k n m st s rest Hnum Hcands Hp. unfold try_neighbor.
    rewrite Hcands. simpl. rewrite Hp. simpl. rewrite (leb_refl p_value Hnum).
    simpl. by eexists.
Qed.

End Threshold.

(** ** More on [test_conditional_independence] *)

Section Oracle_more.
Context {var value : Type} `{EqDecision var} `{EqDecision value}.

Implicit Types (data : list (var -> option value)).
Implicit Types (state_names : list (var * list value)).
Implicit Types (X Y : var) (Zs : list var) (dX dY : list value).
Implicit Types (dZs : list (list value)) (x y : value) (zs : list value).

(** The test with state lists for its variables raises the [ValueError]
    of lines 304-305 or of the unpacking, or the [KeyError] of line 316. *)
Lemma test_with_states_raises data state_names chisquare X Y (Zs : zs_arg var) e :
  (forall v, v ∈ X :: Y :: normalize_Zs Zs -> v ∈ map fst state_names) ->
  (test_conditional_independence data state_names chisquare X Y Zs).2 = Raise e ->
  e = ValueError
  \/ (e = KeyError
      /\ exists dY dZs,
           dict_get state_names Y = Ok dY
           /\ dict_get_all state_names (normalize_Zs Zs) = Ok dZs
           /\ column_index dY dZs = []).
Proof.
  intros Hkeys Hraise.
  destruct (proj2 (dict_get_Ok state_names X)) as [dX HX]; [apply Hkeys; by left|].
  destruct (proj2 (dict_get_Ok state_names Y)) as [dY HY];
    [apply Hkeys; by right; left|].
  destruct (proj2 (dict_get_all_Ok state_names (normalize_Zs Zs))) as [dZs HZs];
    [intros Z HZ; apply Hkeys; by right; right|].
  rewrite (test_conditional_independence_known data state_names chisquare
             X Y Zs dX dY dZs HX HY HZs) in Hraise. simpl in Hraise.
  destruct (test_statistic_cases data chisquare X Y (normalize_Zs Zs) dX dY dZs)
    as [(_ & Heq) | [(_ & _ & _ & _ & Hcol & Heq) | (_ & _ & Heq)]];
    rewrite Heq in Hraise.
  - left. by inversion Hraise.
  - right. split; [by inversion Hraise|]. by exists dY, dZs.
  - left. unfold chisquare_of_retained in Hraise.
    destruct (retained data X Y (normalize_Zs Zs) dX dY dZs); [|discriminate].
    by inversion Hraise.
Qed.


(** *** The data behind the tables *)

Lemma row_matches_ext (r r' : var -> option value) (vars : list var)
    (states : list value) :
  (forall v, v ∈ vars -> r v = r' v) ->
  row_matches r vars states = row_matches r' vars states.
Proof.
  revert states. induction vars as [|v vars IH]; intros states Hagree; [done|].
  destruct states as [|s states]; [done|].
  unfold row_matches in *. cbn [zip zip_with forallb fst snd].
  rewrite (Hagree v) by (by left). f_equal.
  apply IH. intros v' Hv'. apply Hagree. by right.
Qed.

Lemma crosstab_cons data (r : var -> option value) vars states :
  crosstab (r :: data) vars states
  = (if row_matches r vars states then 1 else 0) + crosstab data vars states.
Proof.
  unfold crosstab. destruct (row_matches r vars states) eqn:Hr.
  - by rewrite filter_cons_True.
  - rewrite filter_cons_False; [done|]. by rewrite Hr.
Qed.

Lemma crosstab_Permutation data data' vars states :
  data ≡ₚ data' -> crosstab data vars states = crosstab data' vars states.
Proof. unfold crosstab. by intros ->. Qed.

Lemma crosstab_columns data data' vars states :
  Forall2 (fun r r' => forall v, v ∈ vars -> r v = r' v) data data' ->
  crosstab data vars states = crosstab data' vars states.
Proof.
  induction 1 as [|r r' data data' Hr _ IH]; [done|].
  by rewrite !crosstab_cons, IH, (row_matches_ext r r' vars states Hr).
Qed.

(** A row that misses a state of the table matches no cell of it. *)
Lemma row_matches_outside (r : var -> option value) (vars : list var)
    (doms : list (list value)) (states : list value) (v : var) (d : list value) :
  (v, d) ∈ zip vars doms ->
  (forall s, r v = Some s -> s ∉ d) ->
  Forall2 (fun s dom => s ∈ dom) states doms ->
  row_matches r vars states = false.
Proof.
  intros Hvd Hout Hstates. revert vars Hvd.
  induction Hstates as [|s dom states doms Hs _ IH]; intros vars Hvd.
  - destruct vars; by apply elem_of_nil in Hvd.
  - destruct vars as [|v' vars]; [by apply elem_of_nil in Hvd|].
    unfold row_matches in *. cbn [zip zip_with forallb fst snd] in *.
    apply elem_of_cons in Hvd as [Heq | Hvd].
    + inversion Heq; subst v' dom.
      rewrite bool_decide_eq_false_2; [done|].
      intros Hr. by apply (Hout s).
    + rewrite (IH vars Hvd). apply andb_false_r.
Qed.

(** What the test reads of the data: the number of rows and the counts of
    the cells of the table over the declared states. *)
Lemma chisquare_of_retained_ext data data' chisquare X Y Zs dX dY dZs :
  (forall x y zs,
      x ∈ dX -> y ∈ dY -> zs ∈ from_product dZs ->
      XYZ_state_counts data X Y Zs x y zs = XYZ_state_counts data' X Y Zs x y zs) ->
  chisquare_of_retained data chisquare X Y Zs dX dY dZs
  = chisquare_of_retained data' chisquare X Y Zs dX dY dZs.
Proof.
  intros Hcounts.
  assert (HXZ : forall x zs, x ∈ dX -> zs ∈ from_product dZs ->
    XZ_state_counts data X Y Zs dY x zs = XZ_state_counts data' X Y Zs dY x zs).
  { intros x zs Hx Hzs. unfold XZ_state_counts. f_equal.
    apply map_ext_elem_of. intros y Hy. by apply Hcounts. }
  assert (HYZ : forall y zs, y ∈ dY -> zs ∈ from_product dZs ->
    YZ_state_counts data X Y Zs dX y zs = YZ_state_counts data' X Y Zs dX y zs).
  { intros y zs Hy Hzs. unfold YZ_state_counts. f_equal.
    apply map_ext_elem_of. intros x Hx. by apply Hcounts. }
  assert (HZ : forall zs, zs ∈ from_product dZs ->
    Z_state_counts data X Y Zs dX dY zs = Z_state_counts data' X Y Zs dX dY zs).
  { intros zs Hzs. unfold Z_state_counts. f_equal.
    apply map_ext_elem_of. intros y Hy. by apply HYZ. }
  assert (Hcells : cells data X Y Zs dX dY dZs = cells data' X Y Zs dX dY dZs).
  { unfold cells. apply list_bind_ext_in. intros x Hx.
    apply list_bind_ext_in. intros y Hy.
    apply list_fmap_ext_in. intros zs Hzs.
    unfold XYZ_expected. by rewrite Hcounts, HXZ, HYZ, HZ. }
  unfold chisquare_of_retained, retained. by rewrite Hcells.
Qed.

Lemma test_same_table data data' state_names chisquare X Y (Zs : zs_arg var) :
  (forall dX dY dZs x y zs,
      dict_get state_names X = Ok dX ->
      dict_get state_names Y = Ok dY ->
      dict_get_all state_names (normalize_Zs Zs) = Ok dZs ->
      x ∈ dX -> y ∈ dY -> zs ∈ from_product dZs ->
      XYZ_state_counts data X Y (normalize_Zs Zs) x y zs
      = XYZ_state_counts data' X Y (normalize_Zs Zs) x y zs) ->
  (test_conditional_independence data state_names chisquare X Y Zs).2
  = (test_conditional_independence data' state_names chisquare X Y Zs).2
  /\ (length data = length data' ->
      test_conditional_independence data state_names chisquare X Y Zs
      = test_conditional_independence data' state_names chisquare X Y Zs).
Proof.
  intros Hcounts. unfold test_conditional_independence.
  destruct (dict_get state_names X) as [dX|e] eqn:HX; [|done]. simpl.
  destruct (dict_get state_names Y) as [dY|e] eqn:HY; [|done]. simpl.
  destruct (dict_get_all state_names (normalize_Zs Zs)) as [dZs|e] eqn:HZs; [|done].
  simpl. unfold test_statistic.
  rewrite (chisquare_of_retained_ext data data' chisquare X Y (normalize_Zs Zs)
             dX dY dZs); [|intros x y zs; by apply Hcounts].
  split; [done|]. intros Hlen. unfold sample_size_warning. by rewrite Hlen.
Qed.

(** X11.  The order of the rows does not matter: a data set and a
    permutation of its rows give the same warning and the same result. *)
Theorem test_independent_of_row_order :
  forall data data' state_names chisquare X Y (Zs : zs_arg var),
    data ≡ₚ data' ->
    test_conditional_independence data state_names chisquare X Y Zs
    = test_conditional_independence data' state_names chisquare X Y Zs.
Proof.
  intros data data' state_names chisquare X Y Zs Hperm.
  apply test_same_table; [|by apply Permutation_length].
  intros dX dY dZs x y zs _ _ _ _ _ _.
  by apply crosstab_Permutation.
Qed.

(** X12.  The test reads the columns of X, Y and Zs only: two data sets with
    the same rows in these columns give the same warning and the same
    result, whatever their other columns hold. *)
Theorem test_reads_its_columns_only :
  forall data data' state_names chisquare X Y (Zs : zs_arg var),
    Forall2 (fun r r' => forall v, v ∈ X :: Y :: normalize_Zs Zs -> r v = r' v)
            data data' ->
    test_conditional_independence data state_names chisquare X Y Zs
    = test_conditional_independence data' state_names chisquare X Y Zs.
Proof.
  intros data data' state_names chisquare X Y Zs Hrows.
  apply test_same_table; [|by apply (Forall2_length _ _ _ Hrows)].
  intros dX dY dZs x y zs _ _ _ _ _ _.
  by apply crosstab_columns.
Qed.

(** X13.  Rows outside the table.  A row in which X, Y or a variable of Zs is
    missing, or has a state that [state_names] does not list for it, leaves
    the result of the test as it is without the row; the warning alone
    counts it, through [len(self.data)]. *)
Theorem row_outside_table_ignored :
  forall data (r : var -> option value) state_names chisquare X Y (Zs : zs_arg var)
         dX dY dZs v d,
    dict_get state_names X = Ok dX ->
    dict_get state_names Y = Ok dY ->
    dict_get_all state_names (normalize_Zs Zs) = Ok dZs ->
    (v, d) ∈ zip (X :: Y :: normalize_Zs Zs) (dX :: dY :: dZs) ->
    (forall s, r v = Some s -> s ∉ d) ->
    (test_conditional_independence (r :: data) state_names chisquare X Y Zs).2
    = (test_conditional_independence data state_names chisquare X Y Zs).2.
Proof.
  intros data r state_names chisquare X Y Zs dX dY dZs v d HX HY HZs Hvd Hout.
  apply test_same_table.
  intros dX' dY' dZs' x y zs HX' HY' HZs' Hx Hy Hzs.
  assert (dX' = dX) as -> by congruence.
  assert (dY' = dY) as -> by congruence.
  assert (dZs' = dZs) as -> by congruence.
  unfold XYZ_state_counts. rewrite crosstab_cons.
  rewrite (row_matches_outside r (X :: Y :: normalize_Zs Zs) (dX :: dY :: dZs)
             (x :: y :: zs) v d Hvd Hout); [done|].
  constructor; [done|]. constructor; [done|]. by apply elem_of_from_product.
Qed.

(** *** Variables without a state *)


(** *** What reaches [chisquare] *)

Lemma length_cells data X Y Zs dX dY dZs :
  length (cells data X Y Zs dX dY dZs)
  = length dX * (length dY * foldr Nat.mul 1 (map length dZs)).
Proof.
  unfold cells. apply length_bind_const. intros x.
  apply length_bind_const. intros y.
  by rewrite length_fmap, length_from_product.
Qed.

(** X15.  What reaches [chisquare].  When the test returns, [chisquare]
    was called once, with two sequences of the same length, not empty and
    no longer than the table has cells, and with no expected frequency
    equal to 0. *)
Theorem chisquare_arguments :
  forall data chisquare X Y Zs dX dY dZs p,
    chisquare_of_retained data chisquare X Y Zs dX dY dZs = Ok p ->
    exists f_obs f_exp,
      p = (chisquare f_obs f_exp).2
      /\ length f_obs = length f_exp
      /\ 0 < length f_obs
      /\ length f_obs <= length dX * (length dY * foldr Nat.mul 1 (map length dZs))
      /\ Forall (fun e => (e =? 0)%float = false) f_exp.
Proof.
  intros data chisquare X Y Zs dX dY dZs p Hp.
  unfold chisquare_of_retained in Hp.
  destruct (retained data X Y Zs dX dY dZs) as [|c cs] eqn:Hret; [discriminate|].
  inversion Hp; subst p; clear Hp.
  exists (map fst (c :: cs)), (map snd (c :: cs)). split_and!.
  - done.
  - by rewrite !length_map.
  - simpl. lia.
  - rewrite length_map, <- Hret, <- (length_cells data X Y Zs). unfold retained.
    apply length_filter.
  - rewrite <- Hret. unfold retained. apply Forall_forall. intros e He.
    apply list_elem_of_In, in_map_iff in He as ([o e'] & <- & Hin).
    apply list_elem_of_In, list_elem_of_filter in Hin as [Hne _]. done.
Qed.

End Oracle_more.

(** ** The frequencies and the rows *)

Lemma sum_counts_elem_of (l : list nat) (n : nat) :
  n ∈ l -> n <= sum_counts l.
Proof.
  induction l as [|a l IH]; intros Hin; [by apply elem_of_nil in Hin|].
  simpl. apply elem_of_cons in Hin as [-> | Hin]; [lia|].
  specialize (IH Hin). lia.
Qed.

Lemma sum_counts_add {A : Type} (f g : A -> nat) (l : list A) :
  sum_counts (map (fun a => f a + g a) l)
  = sum_counts (map f l) + sum_counts (map g l).
Proof. induction l as [|a l IH]; simpl; [done | rewrite IH; lia]. Qed.

(** Among distinct items at most one is the wanted one. *)
Lemma sum_counts_indicator {A : Type} (P : A -> bool) (l : list A) :
  NoDup l ->
  (forall a b, a ∈ l -> b ∈ l -> P a = true -> P b = true -> a = b) ->
  sum_counts (map (fun a => if P a then 1 else 0) l) <= 1.
Proof.
  induction 1 as [|a l Ha Hnd IH]; intros Huniq; simpl; [lia|].
  destruct (P a) eqn:Hpa.
  - assert (Hzero : sum_counts (map (fun b => if P b then 1 else 0) l) = 0).
    { apply sum_counts_all_0. intros n Hn.
      apply list_elem_of_fmap in Hn as (b & -> & Hb).
      destruct (P b) eqn:Hpb; [|done]. exfalso. apply Ha.
      rewrite (Huniq a b); [done | by left | by right | done | done]. }
    lia.
  - assert (sum_counts (map (fun b => if P b then 1 else 0) l) <= 1); [|lia].
    apply IH. intros b c Hb Hc. apply Huniq; by right.
Qed.

Section Frequencies.
Context {var value : Type} `{EqDecision var} `{EqDecision value}.

Implicit Types (data : list (var -> option value)) (r : var -> option value).
Implicit Types (X Y : var) (Zs : list var) (dX dY : list value).
Implicit Types (x y : value) (zs : list value).

Lemma row_matches_head r X Y Zs x y zs :
  row_matches r (X :: Y :: Zs) (x :: y :: zs) = true ->
  r X = Some x /\ r Y = Some y.
Proof.
  unfold row_matches. cbn [zip zip_with forallb fst snd].
  rewrite !andb_true_iff, !bool_decide_eq_true. tauto.
Qed.

(** A row is counted in at most one cell of a column of the table. *)
Lemma row_in_one_cell r X Y Zs dX dY zs :
  NoDup dX -> NoDup dY ->
  sum_counts
    (map (fun y =>
            sum_counts
              (map (fun x =>
                      if row_matches r (X :: Y :: Zs) (x :: y :: zs) then 1 else 0)
                   dX))
         dY) <= 1.
Proof.
  intros HdX HdY.
  assert (Hinner : forall y,
    sum_counts
      (map (fun x => if row_matches r (X :: Y :: Zs) (x :: y :: zs) then 1 else 0) dX)
    = if existsb (fun x => row_matches r (X :: Y :: Zs) (x :: y :: zs)) dX
      then 1 else 0).
  { intros y.
    pose proof (sum_counts_indicator
                  (fun x => row_matches r (X :: Y :: Zs) (x :: y :: zs)) dX HdX)
      as Hle.
    destruct (existsb (fun x => row_matches r (X :: Y :: Zs) (x :: y :: zs)) dX)
      eqn:Hex.
    - apply existsb_exists in Hex as (x & Hx & Hm).
      apply list_elem_of_In in Hx.
      assert (1 <= sum_counts
                (map (fun x => if row_matches r (X :: Y :: Zs) (x :: y :: zs)
                               then 1 else 0) dX)).
      { apply sum_counts_elem_of, list_elem_of_fmap. exists x. by rewrite Hm. }
      assert (sum_counts
                (map (fun x => if row_matches r (X :: Y :: Zs) (x :: y :: zs)
                               then 1 else 0) dX) <= 1); [|lia].
      apply Hle. intros a b _ _ Hma Hmb.
      apply row_matches_head in Hma as [Hma _].
      apply row_matches_head in Hmb as [Hmb _]. congruence.
    - apply sum_counts_all_0. intros n Hn.
      apply list_elem_of_fmap in Hn as (x & -> & Hx).
      destruct (row_matches r (X :: Y :: Zs) (x :: y :: zs)) eqn:Hm; [|done].
      exfalso. apply not_true_iff_false in Hex. apply Hex.
      apply existsb_exists. exists x. split; [by apply list_elem_of_In | done]. }
  rewrite (map_ext _ _ Hinner).
  apply (sum_counts_indicator
           (fun y => existsb (fun x => row_matches r (X :: Y :: Zs) (x :: y :: zs)) dX)
           dY HdY).
  intros a b _ _ Ha Hb.
  apply existsb_exists in Ha as (xa & _ & Hma).
  apply existsb_exists in Hb as (xb & _ & Hmb).
  apply row_matches_head in Hma as [_ Hma].
  apply row_matches_head in Hmb as [_ Hmb]. congruence.
Qed.

Lemma Z_state_counts_cons data r X Y Zs dX dY zs :
  Z_state_counts (r :: data) X Y Zs dX dY zs
  = sum_counts
      (map (fun y =>
              sum_counts
                (map (fun x =>
                        if row_matches r (X :: Y :: Zs) (x :: y :: zs) then 1 else 0)
                     dX))
           dY)
    + Z_state_counts data X Y Zs dX dY zs.
Proof.
  unfold Z_state_counts, YZ_state_counts, XYZ_state_counts.
  rewrite <- sum_counts_add. f_equal. apply map_ext. intros y.
  rewrite <- sum_counts_add. f_equal. apply map_ext. intros x.
  apply crosstab_cons.
Qed.

(** X16.  The frequencies and the rows.  With state lists that name each
    state once, a cell of the table of X, Y and Zs is at most each of its
    two marginal counts, these are at most the count of their combination of
    states of Zs, and that count is at most the number of rows: a row is
    counted in at most one cell of each combination. *)
Theorem counts_bounded_by_rows :
  forall data X Y Zs dX dY x y zs,
    NoDup dX -> NoDup dY ->
    x ∈ dX -> y ∈ dY ->
    XYZ_state_counts data X Y Zs x y zs <= XZ_state_counts data X Y Zs dY x zs
    /\ XYZ_state_counts data X Y Zs x y zs <= YZ_state_counts data X Y Zs dX y zs
    /\ XZ_state_counts data X Y Zs dY x zs <= Z_state_counts data X Y Zs dX dY zs
    /\ YZ_state_counts data X Y Zs dX y zs <= Z_state_counts data X Y Zs dX dY zs
    /\ Z_state_counts data X Y Zs dX dY zs <= length data.
Proof.
  intros data X Y Zs dX dY x y zs HdX HdY Hx Hy.
  assert (HZ : Z_state_counts data X Y Zs dX dY zs <= length data).
  { induction data as [|r data IH]; simpl.
    - unfold Z_state_counts, YZ_state_counts, XYZ_state_counts, crosstab.
      rewrite sum_counts_all_0; [done|]. intros n Hn.
      apply list_elem_of_fmap in Hn as (y' & -> & _).
      apply sum_counts_all_0. intros n Hn.
      by apply list_elem_of_fmap in Hn as (x' & -> & _).
    - rewrite Z_state_counts_cons.
      pose proof (row_in_one_cell r X Y Zs dX dY zs HdX HdY). lia. }
  assert (HXZ : XZ_state_counts data X Y Zs dY x zs
                <= Z_state_counts data X Y Zs dX dY zs).
  { unfold Z_state_counts, XZ_state_counts, YZ_state_counts.
    clear HZ Hy HdY y. induction dY as [|y dY IH]; simpl; [done|].
    assert (XYZ_state_counts data X Y Zs x y zs
            <= sum_counts (map (fun x0 => XYZ_state_counts data X Y Zs x0 y zs) dX)).
    { apply sum_counts_elem_of, list_elem_of_fmap. by exists x. }
    lia. }
  split_and!; [| | done | | done].
  - apply sum_counts_elem_of, list_elem_of_fmap. by exists y.
  - apply sum_counts_elem_of, list_elem_of_fmap. by exists x.
  - apply sum_counts_elem_of, list_elem_of_fmap. by exists y.
Qed.

End Frequencies.

(** ** More on the estimator on a data set *)

Section Estimator_more.
Context {var value : Type} `{Countable var} `{EqDecision value}.
Variable data : list (var -> option value).
Variable state_names : list (var * list value).
Variable chisquare : list float -> list float -> float * float.
Variable set_order : list var -> list var.
Variable pdag_remove : DirectedGraph var -> var -> var -> result (DirectedGraph var).
Variable all_simple_paths :
  DirectedGraph var -> var -> var -> result (list (list (var * var))).

(** *** The state lists of a test of the search *)

Lemma dict_get_elem_of (d : list (var * list value)) (X : var) (v : list value) :
  dict_get d X = Ok v -> (X, v) ∈ d.
Proof.
  induction d as [|[k w] d IH]; simpl; [discriminate|].
  destruct (decide (k = X)) as [-> | Hne].
  - intros Heq. inversion Heq; subst. by left.
  - intros Hget. right. by apply IH.
Qed.

Lemma dict_get_all_zip (d : list (var * list value)) (Zs : list var)
    (vs : list (list value)) :
  dict_get_all d Zs = Ok vs -> forall p, p ∈ zip Zs vs -> p ∈ d.
Proof.
  revert vs. induction Zs as [|Z Zs IH]; intros vs Hvs p Hp; simpl in Hvs.
  - by apply elem_of_nil in Hp.
  - apply bind_Ok_inv in Hvs as (v & Hv & Hrest).
    apply bind_Ok_inv in Hrest as (vs' & Hvs' & Hret). inversion Hret; subst vs.
    cbn [zip zip_with] in Hp. apply elem_of_cons in Hp as [-> | Hp].
    + by apply dict_get_elem_of.
    + by apply (IH vs').
Qed.

(** The state lists of distinct variables are state lists of the data
    set, each taken once. *)
Lemma dict_get_all_submseteq (d : list (var * list value)) (Zs : list var)
    (vs : list (list value)) :
  NoDup Zs -> dict_get_all d Zs = Ok vs -> vs ⊆+ d.*2.
Proof.
  intros Hnd Hvs.
  pose proof (dict_get_all_length d Zs vs Hvs) as Hlen.
  rewrite <- (snd_zip Zs vs) by lia.
  apply fmap_submseteq, NoDup_submseteq; [|by apply dict_get_all_zip].
  apply (NoDup_fmap_1 fst). by rewrite fst_zip by lia.
Qed.

(** Fewer variables, a smaller bound; and the bound is one of the number
    of columns. *)
Lemma table_bound_submseteq (small big : list (list value)) :
  small ⊆+ big -> (1 <= table_bound small <= table_bound big)%Z.
Proof.
  assert (Hcons : forall (x : list value) l,
    table_bound (x :: l) = (Z.max 1 (Z.of_nat (length x)) * table_bound l)%Z) by done.
  induction 1 as [|x l1 l2 _ IH|x y l|x l1 l2 _ IH|l1 l2 l3 _ IH12 _ IH23];
    rewrite ?Hcons.
  - unfold table_bound. simpl. lia.
  - nia.
  - assert (Hl : (1 <= table_bound l)%Z).
    { induction l as [|d l IH]; [unfold table_bound; simpl; lia|].
      rewrite Hcons. nia. }
    nia.
  - nia.
  - lia.
Qed.

Lemma sizes_product_bound (l : list (list value)) :
  (0 <= foldr Z.mul 1 (sizes l) <= table_bound l)%Z.
Proof.
  induction l as [|d l IH]; [unfold table_bound; simpl; lia|].
  change (foldr Z.mul 1%Z (sizes (d :: l)))
    with (Z.of_nat (length d) * foldr Z.mul 1 (sizes l))%Z.
  change (table_bound (d :: l))
    with (Z.max 1 (Z.of_nat (length d)) * table_bound l)%Z.
  nia.
Qed.

(** What [estimate] does with two variables or more, or none: it returns,
    or a test of the search raised. *)
Lemma estimator_outcome p_value fuel :
  NoDup (map fst state_names) ->
  (forall l, set_order l ≡ₚ l) ->
  length state_names <= S fuel ->
  length state_names ≠ 1 ->
  (exists pdag,
      ConstraintBasedEstimator_estimate data state_names chisquare set_order
        pdag_remove all_simple_paths p_value (S fuel) = Some (Ok pdag))
  \/ (exists e n m s,
        ConstraintBasedEstimator_estimate data state_names chisquare set_order
          pdag_remove all_simple_paths p_value (S fuel) = Some (Raise e)
        /\ NoDup (m :: s)
        /\ (forall v, v ∈ n :: m :: s -> v ∈ map fst state_names)
        /\ data_oracle data state_names chisquare n m s = Raise e).
Proof.
  intros Hnd Hperm Hfuel Hlen1.
  unfold ConstraintBasedEstimator_estimate.
  set (nodes := map fst state_names) in *.
  set (oracle := data_oracle data state_names chisquare).
  assert (Hlen : length nodes ≠ 1) by (unfold nodes; by rewrite length_map).
  pose proof (complete_graph_nodes nodes Hnd Hlen) as Hinit.
  destruct (skeleton_loop_terminates nodes oracle p_value set_order
              (S fuel) 0 (skeleton_init nodes) Hnd Hinit) as [[[st kf]|e] Hr];
    [done | by unfold nodes; rewrite length_map | |].
  - left.
    pose proof (estimate_skeleton_run_inv nodes oracle p_value set_order
                  (S fuel) st kf Hnd Hr) as Hinv.
    destruct (collider_step_returns set_order (graph st) (seperating_sets st))
      as [pdag Hstep].
    { intros X Y HXY Hedge. rewrite (inv_nodes _ _ _ _ _ Hinv) in HXY.
      apply (inv_keys _ _ _ _ _ Hinv).
      - apply elem_of_complete_graph. by left.
      - by apply has_edge_false. }
    exists pdag. unfold estimate, estimate_skeleton, estimate_skeleton_run.
    rewrite Hr, orient_collider_step. by rewrite Hstep.
  - right.
    destruct (skeleton_loop_raises nodes oracle p_value set_order
                (S fuel) 0 (skeleton_init nodes) e Hinit (reflexivity _) Hr)
      as (g & j & n & m & s & Hg & Hsub & Hnm & Hs & Hraise).
    destruct (candidate_well_formed nodes set_order g j n m s Hnd Hperm Hg Hsub Hs)
      as (_ & Hnds & _ & Hms & Hin).
    apply complete_graph_spec in Hnm as (Hn & Hm & _); [|done].
    exists e, n, m, s. split_and!.
    + unfold estimate, estimate_skeleton, estimate_skeleton_run. by rewrite Hr.
    + by apply NoDup_cons.
    + intros v Hv.
      apply elem_of_cons in Hv as [-> | Hv]; [done|].
      apply elem_of_cons in Hv as [-> | Hv]; [done|].
      apply Hin, elem_of_neighbors in Hv as [_ Hv]. by rewrite Hg in Hv.
    + done.
Qed.

(** X17.  The exceptions of the estimator.  Over the variables of
    [state_names], two or more or none, with a product of the numbers of
    states of the variables below 2^63 (a variable without a state counting
    as one), [estimate] returns a PDAG or raises the [ValueError] of a test
    with no cell left or, when some variable has no state, the [KeyError]
    of line 316: every test it calls is for variables that have state
    lists, Y and the conditioning variables distinct.  With exactly one
    variable it raises networkx's error, before any test. *)
Theorem estimator_exceptions :
  NoDup (map fst state_names) ->
  (forall l, set_order l ≡ₚ l) ->
  forall p_value fuel,
    length state_names <= S fuel ->
    (length state_names = 1 ->
       ConstraintBasedEstimator_estimate data state_names chisquare set_order
         pdag_remove all_simple_paths p_value (S fuel) = Some (Raise NetworkXError))
    /\ (length state_names ≠ 1 ->
        (table_bound state_names.*2 < 2 ^ 63)%Z ->
        (exists pdag,
            ConstraintBasedEstimator_estimate data state_names chisquare set_order
              pdag_remove all_simple_paths p_value (S fuel) = Some (Ok pdag))
        \/ ConstraintBasedEstimator_estimate data state_names chisquare set_order
             pdag_remove all_simple_paths p_value (S fuel) = Some (Raise ValueError)
        \/ (ConstraintBasedEstimator_estimate data state_names chisquare set_order
              pdag_remove all_simple_paths p_value (S fuel) = Some (Raise KeyError)
            /\ [] ∈ state_names.*2)).
Proof.
  intros Hnd Hperm p_value fuel Hfuel. split.
  - intros Hone.
    assert (Hsingle : exists a, map fst state_names = [a]).
    { destruct state_names as [|[a d] [|b l]]; try discriminate Hone. by exists a. }
    destruct Hsingle as [a Ha].
    unfold ConstraintBasedEstimator_estimate, estimate, estimate_skeleton.
    by rewrite (estimate_skeleton_run_single _ _ p_value set_order a (S fuel) Ha).
  - intros Hlen1 Hbound.
    destruct (estimator_outcome p_value fuel Hnd Hperm Hfuel Hlen1)
      as [Hret | (e & n & m & s & Hest & Hms & Hkeys & Hraise)]; [by left|].
    right. rewrite Hest.
    apply (test_with_states_raises data state_names chisquare n m (Collection s))
      in Hraise as [-> | (-> & dY & dZs & HY & HZs & Hcol)]; [by left | | exact Hkeys].
    right. split; [done|]. cbn [normalize_Zs] in HZs.
    assert (Hsub : dY :: dZs ⊆+ state_names.*2).
    { apply (dict_get_all_submseteq state_names (m :: s)); [done|].
      simpl. by rewrite HY, HZs. }
    pose proof (table_bound_submseteq _ _ Hsub) as [_ Hle].
    pose proof (sizes_product_bound (dY :: dZs)) as [_ Hle'].
    apply column_index_nil_iff in Hcol; [|lia].
    by apply (elem_of_submseteq (dY :: dZs)).
Qed.

End Estimator_more.

(** ** The claims on concrete inputs *)

Open Scope string_scope.

Ltac by_computation := vm_compute; reflexivity.
Ltac by_decide := refine (bool_decide_unpack _ _); vm_compute; exact I.

Lemma given_order_perm (l : list string) : given_order l ≡ₚ l.
Proof. done. Qed.

Lemma succeeded_returned {A : Type} (d : A) (r : option (result A)) :
  succeeded r = true -> r = Some (Ok (returned d r)).
Proof. by destruct r as [[a|e]|]. Qed.

Lemma returns_value_returned {A : Type} (d : A) (r : result A) :
  returns_value r = true -> r = Ok (returned d (Some r)).
Proof. by destruct r as [a|e]. Qed.

Lemma succeeded_returned_pair {A B : Type} (d : A * B) (r : option (result (A * B))) :
  succeeded r = true -> r = Some (Ok ((returned d r).1, (returned d r).2)).
Proof. by destruct r as [[[a b]|e]|]. Qed.

Lemma elem_of_seps_list (seps : gmap (gset string) (list string))
    (key : gset string) (s : list string) :
  seps !! key = Some s -> (elements key, s) ∈ seps_list seps.
Proof.
  intros Hs. unfold seps_list. apply list_elem_of_fmap.
  exists (key, s). split; [done|]. by apply elem_of_map_to_list.
Qed.

(** A key that holds a node outside every key of the list is not a key. *)
Lemma not_in_seps_list (seps : gmap (gset string) (list string))
    (X Y : string) (s : list string) :
  Forall (fun ks : list string * list string => X ∉ ks.1) (seps_list seps) ->
  seps !! frozenset2 X Y = Some s -> False.
Proof.
  intros Hall Hs. apply elem_of_seps_list in Hs.
  rewrite Forall_forall in Hall. apply (Hall _ Hs). simpl.
  apply elem_of_elements. unfold frozenset2. set_solver.
Qed.

(** The run named in the goal returned what [returned] takes from it. *)
Ltac run_succeeded :=
  unfold dag_final, dag_skeleton, dag_seps, dag_pdag,
         collider_skeleton, collider_seps,
         chain_skeleton, chain_seps, chain_pdag,
         returned_skeleton, returned_seps, returned_pdag,
         run_estimate_skeleton, run_estimate;
  lazymatch goal with
  | |- _ = Some (Ok (_, _)) => apply succeeded_returned_pair
  | |- _ => apply succeeded_returned
  end;
  by_computation.

(** C1, run on A and B independent with C depending on both: A - C - B is
    an unshielded triple with C outside the separating set of A and B, and
    the PDAG has A -> C and B -> C only. *)
Lemma collider_orientation_witness :
  unshielded_collider collider_skeleton collider_seps "A" "C" "B" = true
  /\ exists pdag,
       run_estimate collider_nodes collider_table 3 = Some (Ok pdag)
       /\ dg_has_edge pdag "C" "A" = false
       /\ dg_has_edge pdag "C" "B" = false
       /\ dg_has_edge pdag "A" "C" = true
       /\ dg_has_edge pdag "B" "C" = true.
Proof.
  split; [by_computation|].
  assert (Hnd : NoDup collider_nodes) by by_decide.
  assert (Hskel : estimate_skeleton collider_nodes (table_oracle collider_table)
                    default_p_value given_order 3
                  = Some (Ok (collider_skeleton, collider_seps)))
    by run_succeeded.
  assert (Hkeys : Forall (fun ks : list string * list string => "C" ∉ ks.1)
                    (seps_list collider_seps)).
  { replace (seps_list collider_seps) with [(["A"; "B"], @nil string)]
      by by_computation.
    constructor; [|constructor]. simpl. by_decide. }
  destruct (collider_orientation collider_nodes (table_oracle collider_table)
              default_p_value given_order no_remove no_paths
              Hnd given_order_perm 2 collider_skeleton collider_seps Hskel)
    as (pdag & Hrun & _ & Htriple).
  destruct (Htriple "A" "B" "C" []) as (HCA & HCB & HAC & HBC).
  - done.
  - by_computation.
  - by_computation.
  - by_computation.
  - by_computation.
  - apply not_elem_of_nil.
  - exists pdag. split_and!; [exact Hrun | exact HCA | exact HCB | |].
    + apply HAC. intros W s' _ Hs'.
      destruct (not_in_seps_list collider_seps "C" W s' Hkeys Hs').
    + apply HBC. intros W s' _ Hs'.
      destruct (not_in_seps_list collider_seps "C" W s' Hkeys Hs').
Defined.

(** C1 fails on the chain W - X - Z - Y: X - Z - Y is an unshielded triple
    with Z outside the separating set of X and Y, yet the PDAG returned has
    no edge X -> Z.  The pair W, Z, with X outside its separating set,
    took X -> Z away, as X - Z - Y took Z -> X. *)
Lemma collider_orientation_counterexample :
  succeeded (run_estimate chain_nodes chain_table 4) = true
  /\ unshielded_collider chain_skeleton chain_seps "X" "Z" "Y" = true
  /\ unshielded_collider chain_skeleton chain_seps "W" "X" "Z" = true
  /\ dg_has_edge chain_pdag "X" "Z" = false
  /\ oriented_into chain_pdag "X" "Z" "Y" = false
  /\ edge_list chain_pdag = [("Y", "Z")].
Proof. split_and!; by_computation. Qed.

(** C2, on the independences of the DAG: the key of C and D holds the set
    [B], recorded once in the round for sets of size 1, as the first set
    that passed among those of the other neighbours of C, and C and D were
    not tested again. *)
Lemma separating_sets_recorded_witness :
  NoDup dag_nodes
  /\ seperating_sets dag_final.1 !! frozenset2 "C" "D" = Some ["B"]
  /\ exists l0 l2 k n m g others pre post,
       trace dag_final.1
       = ((l0 ++ map (Tested k n m) pre ++ [Tested k n m ["B"]])
          ++ Recorded k n m ["B"] :: l2)%list
       /\ frozenset2 "C" "D" = frozenset2 n m
       /\ ug_adj (graph dag_final.1) ⊆ ug_adj g
       /\ has_edge g n m = true
       /\ NoDup others
       /\ (forall z, z ∈ others <-> has_edge g n z = true /\ z ≠ m)
       /\ combinations others k = (pre ++ ["B"] :: post)%list
       /\ Forall (fails (table_oracle dag_table) default_p_value n m) pre
       /\ passes (table_oracle dag_table) default_p_value n m ["B"]
       /\ length ["B"] = k /\ NoDup ["B"]
       /\ (forall e,
             e ∈ (l0 ++ map (Tested k n m) pre ++ [Tested k n m ["B"]])%list ->
             is_recorded e -> event_pair e ≠ frozenset2 "C" "D")
       /\ (forall e, e ∈ l2 -> event_pair e ≠ frozenset2 "C" "D").
Proof.
  assert (Hnd : NoDup dag_nodes) by by_decide.
  assert (Hkey : seperating_sets dag_final.1 !! frozenset2 "C" "D" = Some ["B"])
    by by_computation.
  split_and!; [exact Hnd | exact Hkey |].
  destruct (separating_sets_recorded dag_nodes (table_oracle dag_table)
              default_p_value given_order Hnd given_order_perm) as [_ Hfinal].
  assert (Hrun : estimate_skeleton_run dag_nodes (table_oracle dag_table)
                   default_p_value given_order 5
                 = Some (Ok (dag_final.1, dag_final.2))) by run_succeeded.
  destruct (Hfinal 5 dag_final.1 dag_final.2 Hrun) as [_ Hkeys].
  exact (Hkeys (frozenset2 "C" "D") ["B"] Hkey).
Defined.

(** C3, on the independences of the DAG: the skeleton returned is the
    state at the start of round 4 and has fewer edges than the state at
    the start of round 1. *)
Lemma skeleton_edges_only_shrink_witness :
  state_at_round dag_nodes (table_oracle dag_table) default_p_value given_order 4
    = Ok dag_final.1
  /\ ug_adj (graph dag_final.1) ⊆ ug_adj (complete_graph dag_nodes)
  /\ forall st1,
       state_at_round dag_nodes (table_oracle dag_table) default_p_value
         given_order 1 = Ok st1 ->
       ug_adj (graph dag_final.1) ⊆ ug_adj (graph st1).
Proof.
  destruct (skeleton_edges_only_shrink dag_nodes (table_oracle dag_table)
              default_p_value given_order) as (_ & _ & Hrounds & Hfinal).
  assert (Hrun : estimate_skeleton_run dag_nodes (table_oracle dag_table)
                   default_p_value given_order 5
                 = Some (Ok (dag_final.1, dag_final.2))) by run_succeeded.
  destruct (Hfinal 5 dag_final.1 dag_final.2 Hrun) as [Hat Hsub].
  split_and!; [exact Hat | exact Hsub |].
  intros st1 Hst1. apply (Hrounds 1 4 st1 dag_final.1); [lia | exact Hst1 | exact Hat].
Defined.

(** C4, on the independences of the DAG: with five variables the loop
    returns after four rounds. *)
Lemma skeleton_terminates_witness :
  NoDup dag_nodes
  /\ dag_final.2 = 4
  /\ exists r,
       estimate_skeleton_run dag_nodes (table_oracle dag_table)
         default_p_value given_order (length dag_nodes) = Some r
       /\ (forall fuel, length dag_nodes <= fuel ->
             estimate_skeleton_run dag_nodes (table_oracle dag_table)
               default_p_value given_order fuel = Some r)
       /\ (forall st kf, r = Ok (st, kf) ->
             kf <= length dag_nodes
             /\ state_at_round dag_nodes (table_oracle dag_table)
                  default_p_value given_order kf = Ok st
             /\ degrees_below dag_nodes kf (graph st) = true
             /\ forall j st_j,
                  j < kf ->
                  state_at_round dag_nodes (table_oracle dag_table)
                    default_p_value given_order j = Ok st_j ->
                  degrees_below dag_nodes j (graph st_j) = false).
Proof.
  assert (Hnd : NoDup dag_nodes) by by_decide.
  split_and!; [exact Hnd | by_computation |].
  exact (skeleton_terminates dag_nodes (table_oracle dag_table)
           default_p_value given_order Hnd).
Defined.

(** The collider step goes beyond the unshielded triples: with A - C the
    only edge and B apart, the pair A, B takes C -> A away, C being a
    neighbour of A and outside the empty separating set, though C is no
    neighbour of B. *)
Lemma collider_step_beyond_triples :
  succeeded (run_estimate lonely_nodes lonely_table 3) = true
  /\ has_edge (returned_skeleton (run_estimate_skeleton lonely_nodes lonely_table 3))
       "B" "C" = false
  /\ edge_list (to_directed
                  (returned_skeleton (run_estimate_skeleton lonely_nodes lonely_table 3)))
     = [("A", "C"); ("C", "A")]
  /\ edge_list (returned_pdag (run_estimate lonely_nodes lonely_table 3))
     = [("A", "C")].
Proof. split_and!; by_computation. Qed.

(** C5 fails on the independences of the DAG A -> D, B -> C, B -> D,
    B -> E, C -> E, D -> E: the PDAG returned has B - E in both directions
    together with the directed path B -> D -> E. *)
Theorem avoid_cycles_rule_not_applied :
  succeeded (run_estimate dag_nodes dag_table 5) = true
  /\ edge_list dag_pdag
     = [("A", "D"); ("B", "C"); ("B", "D"); ("B", "E");
        ("C", "B"); ("C", "E"); ("D", "E"); ("E", "B")]
  /\ dg_has_edge dag_pdag "B" "E" = true
  /\ dg_has_edge dag_pdag "E" "B" = true
  /\ dg_has_edge dag_pdag "B" "D" = true
  /\ dg_has_edge dag_pdag "D" "B" = false
  /\ dg_has_edge dag_pdag "D" "E" = true
  /\ dg_has_edge dag_pdag "E" "D" = false.
Proof. split_and!; by_computation. Qed.

(** C10, on the independences of the DAG: the PDAG returned is the one
    the collider step leaves. *)
Lemma orientation_rules_never_run_witness :
  run_estimate dag_nodes dag_table 5
  = match collider_step given_order dag_skeleton dag_seps with
    | Raise e => Some (Raise e)
    | Ok (pdag, _) => Some (Ok pdag)
    end.
Proof.
  destruct (orientation_rules_never_run dag_nodes (table_oracle dag_table)
              default_p_value given_order no_remove no_paths)
    as (_ & _ & _ & _ & Hestimate).
  unfold run_estimate. rewrite (Hestimate 4).
  assert (Hskel : estimate_skeleton dag_nodes (table_oracle dag_table)
                    default_p_value given_order 5
                  = Some (Ok (dag_skeleton, dag_seps))) by run_succeeded.
  rewrite Hskel. reflexivity.
Defined.

(** C6, on X and Y with one state each: one cell is retained and the test
    returns what [chisquare] gives for it.  On X and Y with two states each
    and W without a state: the first test, of X and Y, returns, the second,
    of X and W, raises [ValueError], and the search ends with it. *)
Lemma degenerate_statistic_witness :
  retained constant_data "X" "Y" [] [0] [0] [] = [(3%float, 3%float)]
  /\ (test_conditional_independence constant_data constant_state_names
        pearson_chisquare "X" "Y" (Collection [])).2
     = Ok (pearson_chisquare [3%float] [3%float]).2
  /\ returns_value
       (data_oracle hollow_data hollow_state_names pearson_chisquare "X" "Y" [])
     = true
  /\ ConstraintBasedEstimator_estimate_skeleton hollow_data hollow_state_names
       pearson_chisquare given_order default_p_value 3
     = Some (Raise ValueError).
Proof.
  assert (Hone : retained constant_data "X" "Y" [] [0] [0] []
                 = [(3%float, 3%float)]) by by_computation.
  split_and!; [exact Hone | | by_computation |].
  - destruct (degenerate_statistic constant_data constant_state_names
                pearson_chisquare) as [Htest _].
    destruct (Htest "X" "Y" (Collection []) [0] [0] [] eq_refl eq_refl eq_refl)
      as [_ Hsingle].
    + by_decide.
    + by_computation.
    + right. right. apply not_elem_of_nil.
    + exact (Hsingle _ _ Hone).
  - destruct (degenerate_statistic hollow_data hollow_state_names
                pearson_chisquare) as [_ Hsearch].
    apply (Hsearch given_order default_p_value 3 0
             (skeleton_init (map fst hollow_state_names)) [] "X" ["Y"; "W"]
             (skeleton_init (map fst hollow_state_names)) ["Y"] "W" []
             hollow_after_Y [] [] [] ValueError).
    + by_decide.
    + reflexivity.
    + intros j stj Hj Hstj.
      assert (j = 0) as -> by lia.
      injection Hstj as <-. by_computation.
    + lia.
    + reflexivity.
    + reflexivity.
    + by_computation.
    + apply (returns_value_returned (skeleton_init [])). by_computation.
    + apply combinations_0.
    + constructor.
    + by_computation.
Defined.

(** C6 fails: with one cell retained the test returns a value as any
    other test does, and with no cell retained it raises [ValueError],
    which ends the skeleton search, at its first test or at a later one. *)
Lemma degenerate_statistic_counterexample :
  length (retained constant_data "X" "Y" [] [0] [0] []) = 1
  /\ returns_value
       (test_conditional_independence constant_data constant_state_names
          pearson_chisquare "X" "Y" (Collection [])).2 = true
  /\ length (retained blank_data "X" "Y" [] [] [] []) = 0
  /\ (test_conditional_independence blank_data blank_state_names
        pearson_chisquare "X" "Y" (Collection [])).2 = Raise ValueError
  /\ raised (ConstraintBasedEstimator_estimate_skeleton blank_data
               blank_state_names pearson_chisquare given_order
               default_p_value 4) = Some ValueError
  /\ length (retained hollow_data "X" "W" [] [0; 1] [] []) = 0
  /\ (test_conditional_independence hollow_data hollow_state_names
        pearson_chisquare "X" "W" (Collection [])).2 = Raise ValueError
  /\ raised (ConstraintBasedEstimator_estimate_skeleton hollow_data
               hollow_state_names pearson_chisquare given_order
               default_p_value 3) = Some ValueError.
Proof. split_and!; by_computation. Qed.

(** C7, on X and Y with Z1 and Z2 always equal: the states 0 of Z1 and 1
    of Z2 never occur together, the expected value of the cell of X = 0,
    Y = 0 with them is not a number, the cell is retained, and so the
    statistic is not a number either. *)
Lemma unobserved_combination_retained_witness :
  Z_state_counts twins_data "X" "Y" ["Z1"; "Z2"] [0; 1] [0; 1] [0; 1] = 0
  /\ is_nan (XYZ_expected twins_data "X" "Y" ["Z1"; "Z2"] [0; 1] [0; 1] 0 0 [0; 1])
     = true
  /\ (of_count 0, XYZ_expected twins_data "X" "Y" ["Z1"; "Z2"] [0; 1] [0; 1] 0 0 [0; 1])
       ∈ retained twins_data "X" "Y" ["Z1"; "Z2"] [0; 1] [0; 1] [[0; 1]; [0; 1]]
  /\ (test_conditional_independence twins_data twins_state_names
        pearson_chisquare "X" "Y" (Collection ["Z1"; "Z2"])).2 = Ok nan.
Proof.
  assert (HZ : Z_state_counts twins_data "X" "Y" ["Z1"; "Z2"] [0; 1] [0; 1] [0; 1] = 0)
    by by_computation.
  assert (H0 : 0 ∈ [0; 1]) by by_decide.
  assert (Hzs : [0; 1] ∈ from_product [[0; 1]; [0; 1]]) by by_decide.
  destruct (unobserved_combination_retained twins_data "X" "Y" ["Z1"; "Z2"]
              [0; 1] [0; 1] [[0; 1]; [0; 1]] 0 0 [0; 1] H0 H0 Hzs HZ)
    as [Hnan Hin].
  split_and!; [exact HZ | exact Hnan | exact Hin | by_computation].
Defined.

(** C8, on three rows of X and Y with three states each: three rows are
    fewer than the four recommended, the warning says so, and the test
    returns the p-value of the nine cells. *)
Lemma insufficient_sample_warning_witness :
  (test_conditional_independence diagonal_data diagonal_state_names
     pearson_chisquare "X" "Y" (Collection [])).1
  = [ {| w_X := "X"; w_Y := "Y"; w_Zs := [];
         w_recommended := np_float64 4; w_present := 3 |} ]
  /\ (test_conditional_independence diagonal_data diagonal_state_names
        pearson_chisquare "X" "Y" (Collection [])).2
     = Ok (pearson_chisquare
             (map fst (retained diagonal_data "X" "Y" [] [0; 1; 2] [0; 1; 2] []))
             (map snd (retained diagonal_data "X" "Y" [] [0; 1; 2] [0; 1; 2] []))).2.
Proof.
  pose proof (insufficient_sample_warning diagonal_data diagonal_state_names
                pearson_chisquare) as Htest.
  destruct (Htest "X" "Y" (Collection []) [0; 1; 2] [0; 1; 2] []
              eq_refl eq_refl eq_refl)
    as (Hwarn & _ & _ & Hvalue).
  split.
  - rewrite Hwarn. by_computation.
  - apply Hvalue.
    + by_decide.
    + by_computation.
    + right. right. apply not_elem_of_nil.
    + intros Hnil. apply (f_equal length) in Hnil.
      vm_compute in Hnil. discriminate.
Defined.

(** C8 fails.  With X and Y missing in all three rows and four
    combinations of the states of Z1 and Z2 the warning is given and the
    test then raises [ValueError].  With X missing in eight of nine rows,
    one row is left for the table of X, Y and Z, fewer than the two
    recommended, and no warning is given, the data set having nine rows.
    With 63 conditioning variables of two states each the product 2^63
    wraps around to -2^63, and no warning is given for a data set of two
    rows; the test then raises the [KeyError] of line 316. *)
Lemma insufficient_sample_warning_counterexample :
  test_conditional_independence blank_data blank_state_names
    pearson_chisquare "X" "Y" (Collection ["Z1"; "Z2"])
  = ([ {| w_X := "X"; w_Y := "Y"; w_Zs := ["Z1"; "Z2"];
          w_recommended := np_int64 4; w_present := 3 |} ],
     Raise ValueError)
  /\ complete_samples sparse_data ["X"; "Y"; "Z"] = 1
  /\ num_params [0; 1] [0; 1] [[0; 1]] = np_int64 2
  /\ length sparse_data = 9
  /\ (test_conditional_independence sparse_data sparse_state_names
        pearson_chisquare "X" "Y" (Collection ["Z"])).1 = []
  /\ num_params [0; 1] [0; 1] (replicate 63 [0; 1]) = np_int64 (- 2 ^ 63)
  /\ NoDup (map fst wide_state_names)
  /\ test_conditional_independence wide_data wide_state_names
       pearson_chisquare (wide_name 0) (wide_name 1)
       (Collection (wide_name <$> seq 2 63))
     = ([], Raise KeyError).
Proof. split_and!; [by_computation.. | by_decide | by_computation]. Qed.



Close Scope string_scope.

(** ** The further properties on concrete inputs *)

Open Scope string_scope.

Lemma dag_run :
  estimate_skeleton_run dag_nodes (table_oracle dag_table) default_p_value given_order 5
  = Some (Ok (dag_final.1, dag_final.2)).
Proof. run_succeeded. Qed.

(** On the independences of the DAG: the search made four rounds, and
    each of its tests and each separating set is for two distinct variables
    and fewer than four other variables. *)
Lemma skeleton_tests_well_formed_witness :
  NoDup dag_nodes
  /\ dag_final.2 = 4
  /\ (forall k n m s,
        Tested k n m s ∈ trace dag_final.1 ->
        k < dag_final.2 /\ length s = k /\ NoDup s
        /\ n ∈ dag_nodes /\ m ∈ dag_nodes /\ n ≠ m
        /\ (forall z, z ∈ s -> z ∈ dag_nodes /\ z ≠ n /\ z ≠ m))
  /\ (forall key s,
        seperating_sets dag_final.1 !! key = Some s ->
        exists n m,
          key = frozenset2 n m /\ n ∈ dag_nodes /\ m ∈ dag_nodes /\ n ≠ m
          /\ length s < dag_final.2 /\ NoDup s
          /\ (forall z, z ∈ s -> z ∈ dag_nodes /\ z ≠ n /\ z ≠ m)).
Proof.
  assert (Hnd : NoDup dag_nodes) by by_decide.
  split_and!; [exact Hnd | by_computation | |];
    apply (skeleton_tests_well_formed dag_nodes (table_oracle dag_table)
             default_p_value given_order Hnd given_order_perm
             5 dag_final.1 dag_final.2 dag_run).
Defined.

(** On the independences of the DAG: B - E is an edge of the skeleton, C
    and D are neighbours of B, and B and E were tested given C and D and
    found dependent, with a p-value below the threshold. *)
Lemma remaining_edges_were_tested_witness :
  has_edge (graph dag_final.1) "B" "E" = true
  /\ exists s' p,
       s' ≡ₚ ["C"; "D"]
       /\ Tested (length ["C"; "D"]) "B" "E" s' ∈ trace dag_final.1
       /\ table_oracle dag_table "B" "E" s' = Ok p
       /\ (default_p_value <=? p)%float = false
       /\ ((p <? default_p_value)%float = true
           \/ is_nan p = true \/ is_nan default_p_value = true).
Proof.
  assert (Hnd : NoDup dag_nodes) by by_decide.
  assert (Hedge : has_edge (graph dag_final.1) "B" "E" = true) by by_computation.
  assert (HC : has_edge (graph dag_final.1) "B" "C" = true) by by_computation.
  assert (HD : has_edge (graph dag_final.1) "B" "D" = true) by by_computation.
  assert (Hs : NoDup ["C"; "D"]) by by_decide.
  split; [exact Hedge|].
  apply (remaining_edges_were_tested dag_nodes (table_oracle dag_table)
           default_p_value given_order Hnd given_order_perm
           5 dag_final.1 dag_final.2 dag_run "B" "E" ["C"; "D"] Hedge Hs).
  intros z Hz.
  apply elem_of_cons in Hz as [-> | Hz]; [split; [exact HC | discriminate]|].
  apply list_elem_of_singleton in Hz as ->. split; [exact HD | discriminate].
Defined.

(** On the independences of the DAG: the first test is that of A and B
    given the empty set, and it is not made again. *)
Lemma no_test_is_repeated_witness :
  trace dag_final.1 = Tested 0 "A" "B" [] :: tail (trace dag_final.1)
  /\ forall k', Tested k' "A" "B" [] ∉ tail (trace dag_final.1).
Proof.
  assert (Hnd : NoDup dag_nodes) by by_decide.
  assert (Htr : trace dag_final.1
                = Tested 0 "A" "B" [] :: tail (trace dag_final.1))
    by by_computation.
  split; [exact Htr|].
  exact (no_test_is_repeated dag_nodes (table_oracle dag_table)
           default_p_value given_order Hnd given_order_perm
           5 dag_final.1 dag_final.2 dag_run
           [] (tail (trace dag_final.1)) 0 "A" "B" [] Htr).
Defined.

(** On the independences of the DAG: A and B are independent given the
    empty set, the skeleton has no edge A - B and their separating set is
    empty. *)
Lemma marginal_independence_recorded_witness :
  passes (table_oracle dag_table) default_p_value "A" "B" []
  /\ has_edge (graph dag_final.1) "A" "B" = false
  /\ seperating_sets dag_final.1 !! frozenset2 "A" "B" = Some [].
Proof.
  assert (Hnd : NoDup dag_nodes) by by_decide.
  assert (Hpass : passes (table_oracle dag_table) default_p_value "A" "B" []).
  { exists 1%float. split; by_computation. }
  assert (HA : "A" ∈ dag_nodes) by by_decide.
  assert (HB : "B" ∈ dag_nodes) by by_decide.
  assert (Hne : "A" ≠ "B") by discriminate.
  split; [exact Hpass|].
  exact (marginal_independence_recorded dag_nodes (table_oracle dag_table)
           default_p_value given_order Hnd 5 dag_final.1 dag_final.2 dag_run
           "A" "B" HA HB Hne Hpass).
Defined.

(** On A, B and C with no independence: three rounds, the complete graph,
    no separating set, and every edge in both directions. *)
Lemma no_independence_complete_graph_witness :
  exists st,
    estimate_skeleton_run collider_nodes (table_oracle []) default_p_value
      given_order 3 = Some (Ok (st, 3))
    /\ graph st = complete_graph collider_nodes
    /\ seperating_sets st = ∅
    /\ estimate collider_nodes (table_oracle []) default_p_value given_order
         no_remove no_paths 4
       = Some (Ok (to_directed (complete_graph collider_nodes))).
Proof.
  assert (Hnd : NoDup collider_nodes) by by_decide.
  apply (no_independence_complete_graph collider_nodes (table_oracle [])
           default_p_value given_order no_remove no_paths Hnd).
  - simpl. lia.
  - intros n m s _ _ _. exists 0%float. split; by_computation.
  - simpl. lia.
Defined.

(** On A, B and C pairwise independent: one round, no edge, and the
    empty separating set for A and C. *)
Lemma all_independent_empty_graph_witness :
  exists st,
    estimate_skeleton_run collider_nodes (table_oracle independent_table)
      default_p_value given_order 1 = Some (Ok (st, 1))
    /\ ug_adj (graph st) = ∅
    /\ seperating_sets st !! frozenset2 "A" "C" = Some [].
Proof.
  assert (Hnd : NoDup collider_nodes) by by_decide.
  assert (Hne : 2 <= length collider_nodes) by (simpl; lia).
  assert (Hpass : forall n m,
    n ∈ collider_nodes -> m ∈ collider_nodes -> n ≠ m ->
    passes (table_oracle independent_table) default_p_value n m []).
  { intros n m Hn Hm Hnm. exists 1%float.
    unfold collider_nodes in Hn, Hm.
    repeat (apply elem_of_cons in Hn as [-> | Hn]);
      try (by apply elem_of_nil in Hn);
      repeat (apply elem_of_cons in Hm as [-> | Hm]);
      try (by apply elem_of_nil in Hm);
      try done; split; by_computation. }
  destruct (all_independent_empty_graph collider_nodes
              (table_oracle independent_table) default_p_value given_order
              Hnd Hne Hpass 0) as (st & Hrun & Hadj & Hseps & _).
  exists st. split_and!; [exact Hrun | exact Hadj |].
  apply Hseps; [by_decide | by_decide | discriminate].
Defined.

(** On a data set with no row every p-value is not a number: the first
    test of X and Y leaves their edge and records nothing.  With the
    threshold 1, the p-value 1 of A and B removes their edge. *)
Lemma threshold_comparison_witness :
  data_oracle [] twins_state_names pearson_chisquare "X" "Y" [] = Ok nan
  /\ (exists st',
        try_neighbor (data_oracle [] twins_state_names pearson_chisquare)
          default_p_value given_order 0 "X" "Y"
          (skeleton_init (map fst twins_state_names)) = Ok st'
        /\ graph st' = complete_graph (map fst twins_state_names)
        /\ seperating_sets st' = ∅)
  /\ table_oracle collider_table "A" "B" [] = Ok 1%float
  /\ (exists st',
        try_neighbor (table_oracle collider_table) 1%float given_order 0 "A" "B"
          (skeleton_init collider_nodes) = Ok st'
        /\ graph st' = remove_edge (complete_graph collider_nodes) "A" "B"
        /\ seperating_sets st' = {[ frozenset2 "A" "B" := [] ]}).
Proof.
  assert (Hnan : data_oracle [] twins_state_names pearson_chisquare "X" "Y" []
                 = Ok nan) by by_computation.
  assert (Hone : table_oracle collider_table "A" "B" [] = Ok 1%float)
    by by_computation.
  split_and!; [exact Hnan | | exact Hone |].
  - destruct (proj1 (threshold_comparison
                       (data_oracle [] twins_state_names pearson_chisquare)
                       default_p_value given_order)
                0 "X" "Y" (skeleton_init (map fst twins_state_names)))
      as (st' & Hrun & Hg & Hseps & _).
    + intros s Hs. rewrite combinations_0 in Hs.
      apply list_elem_of_singleton in Hs as ->.
      exists nan. split; [exact Hnan | by left].
    + exists st'. split_and!; [exact Hrun | exact Hg | exact Hseps].
  - destruct (proj2 (threshold_comparison (table_oracle collider_table)
                       1%float given_order)
                0 "A" "B" (skeleton_init collider_nodes) [] [])
      as (st' & Hrun & Hg & Hseps).
    + reflexivity.
    + apply combinations_0.
    + exact Hone.
    + exists st'. split_and!; [exact Hrun | exact Hg | exact Hseps].
Defined.

(** On the data in which X and Y are missing in every row: the first
    test has no cell left, and [estimate] raises the [ValueError] of that
    test.  On one variable [estimate] raises networkx's error. *)
Lemma estimate_raises_what_a_test_raises_witness :
  (exists e n m s,
      estimate (map fst blank_state_names)
        (data_oracle blank_data blank_state_names pearson_chisquare)
        default_p_value given_order no_remove no_paths 4 = Some (Raise e)
      /\ n ∈ map fst blank_state_names /\ m ∈ map fst blank_state_names /\ n ≠ m
      /\ data_oracle blank_data blank_state_names pearson_chisquare n m s = Raise e)
  /\ estimate ["A"] (table_oracle []) default_p_value given_order
       no_remove no_paths 1 = Some (Raise NetworkXError).
Proof.
  split.
  - assert (Hnd : NoDup (map fst blank_state_names)) by by_decide.
    assert (Hraised : raised (estimate (map fst blank_state_names)
                        (data_oracle blank_data blank_state_names pearson_chisquare)
                        default_p_value given_order no_remove no_paths 4)
                      = Some ValueError) by by_computation.
    destruct (estimate_raises_what_a_test_raises (map fst blank_state_names)
                (data_oracle blank_data blank_state_names pearson_chisquare)
                default_p_value given_order no_remove no_paths Hnd 3)
      as [_ Hmany].
    + simpl. lia.
    + destruct Hmany as [[pdag Hok] | Hraise].
      * simpl. lia.
      * rewrite Hok in Hraised. discriminate Hraised.
      * exact Hraise.
  - assert (Hnd : NoDup ["A"]) by by_decide.
    destruct (estimate_raises_what_a_test_raises ["A"] (table_oracle [])
                default_p_value given_order no_remove no_paths Hnd 0)
      as [Hone _].
    + simpl. lia.
    + apply Hone. reflexivity.
Defined.

Lemma dag_skeleton_run :
  estimate_skeleton dag_nodes (table_oracle dag_table) default_p_value given_order 5
  = Some (Ok (dag_skeleton, dag_seps)).
Proof. run_succeeded. Qed.

Lemma dag_pdag_run :
  estimate dag_nodes (table_oracle dag_table) default_p_value given_order
    no_remove no_paths 5 = Some (Ok dag_pdag).
Proof. run_succeeded. Qed.

(** On the independences of the DAG: the edges of the PDAG returned. *)
Lemma pdag_edges_characterised_witness :
  dg_nodes dag_pdag = dag_nodes
  /\ forall a b,
       dg_has_edge dag_pdag a b = true
       <-> has_edge dag_skeleton a b = true
           /\ ~ exists X Y s,
                  (X, Y) ∈ combinations2 dag_nodes
                  /\ has_edge dag_skeleton X Y = false
                  /\ dag_seps !! frozenset2 X Y = Some s
                  /\ has_edge dag_skeleton X a = true
                  /\ (a ∉ s)
                  /\ (b = X \/ b = Y).
Proof.
  assert (Hnd : NoDup dag_nodes) by by_decide.
  exact (pdag_edges_characterised dag_nodes (table_oracle dag_table)
           default_p_value given_order no_remove no_paths Hnd given_order_perm
           4 dag_skeleton dag_seps dag_pdag dag_skeleton_run dag_pdag_run).
Defined.


(** The rows of the data of X, Y, Z1 and Z2 in the reverse order. *)
Lemma test_independent_of_row_order_witness :
  test_conditional_independence twins_data twins_state_names pearson_chisquare
    "X" "Y" (Collection ["Z1"])
  = test_conditional_independence (reverse twins_data) twins_state_names
      pearson_chisquare "X" "Y" (Collection ["Z1"]).
Proof.
  apply test_independent_of_row_order. symmetry. apply reverse_Permutation.
Defined.

(** The data of X and Y with and without the column W. *)
Lemma test_reads_its_columns_only_witness :
  test_conditional_independence constant_data constant_state_names
    pearson_chisquare "X" "Y" (Collection [])
  = test_conditional_independence constant_data_wide constant_state_names
      pearson_chisquare "X" "Y" (Collection []).
Proof.
  apply test_reads_its_columns_only.
  unfold constant_data, constant_data_wide.
  repeat (constructor;
          [intros v Hv;
           apply elem_of_cons in Hv as [-> | Hv]; [by_computation|];
           apply list_elem_of_singleton in Hv as ->; by_computation|]).
  constructor.
Defined.

(** A row with no value for X, before the data of X, Y, Z1 and Z2. *)
Lemma row_outside_table_ignored_witness :
  (test_conditional_independence
     (row_of [("Y", 0); ("Z1", 1)] :: twins_data) twins_state_names
     pearson_chisquare "X" "Y" (Collection ["Z1"])).2
  = (test_conditional_independence twins_data twins_state_names
       pearson_chisquare "X" "Y" (Collection ["Z1"])).2.
Proof.
  pose proof (row_outside_table_ignored twins_data
                (row_of [("Y", 0); ("Z1", 1)]) twins_state_names
                pearson_chisquare "X" "Y" (Collection ["Z1"])) as Hrow.
  apply (Hrow [0; 1] [0; 1] [[0; 1]] "X" [0; 1] eq_refl eq_refl eq_refl).
  - by left.
  - intros s Hs. vm_compute in Hs. discriminate.
Defined.


(** On X and Y with one state each: [chisquare] gets the one cell. *)
Lemma chisquare_arguments_witness :
  exists f_obs f_exp,
    (pearson_chisquare [3%float] [3%float]).2 = (pearson_chisquare f_obs f_exp).2
    /\ length f_obs = length f_exp
    /\ 0 < length f_obs
    /\ length f_obs <= 1
    /\ Forall (fun e => (e =? 0)%float = false) f_exp.
Proof.
  assert (Hp : chisquare_of_retained constant_data pearson_chisquare "X" "Y" []
                 [0] [0] [] = Ok (pearson_chisquare [3%float] [3%float]).2)
    by by_computation.
  exact (chisquare_arguments constant_data pearson_chisquare "X" "Y" []
           [0] [0] [] _ Hp).
Defined.

(** On the data of X, Y, Z1 and Z2: of the eight rows, four have Z1 = 0,
    two of these have X = 0, and one of these has Y = 0. *)
Lemma counts_bounded_by_rows_witness :
  XYZ_state_counts twins_data "X" "Y" ["Z1"] 0 0 [0] = 1
  /\ XZ_state_counts twins_data "X" "Y" ["Z1"] [0; 1] 0 [0] = 2
  /\ Z_state_counts twins_data "X" "Y" ["Z1"] [0; 1] [0; 1] [0] = 4
  /\ length twins_data = 8
  /\ XYZ_state_counts twins_data "X" "Y" ["Z1"] 0 0 [0]
     <= XZ_state_counts twins_data "X" "Y" ["Z1"] [0; 1] 0 [0]
  /\ XYZ_state_counts twins_data "X" "Y" ["Z1"] 0 0 [0]
     <= YZ_state_counts twins_data "X" "Y" ["Z1"] [0; 1] 0 [0]
  /\ XZ_state_counts twins_data "X" "Y" ["Z1"] [0; 1] 0 [0]
     <= Z_state_counts twins_data "X" "Y" ["Z1"] [0; 1] [0; 1] [0]
  /\ YZ_state_counts twins_data "X" "Y" ["Z1"] [0; 1] 0 [0]
     <= Z_state_counts twins_data "X" "Y" ["Z1"] [0; 1] [0; 1] [0]
  /\ Z_state_counts twins_data "X" "Y" ["Z1"] [0; 1] [0; 1] [0]
     <= length twins_data.
Proof.
  assert (Hnd : NoDup [0; 1]) by by_decide.
  assert (H0 : 0 ∈ [0; 1]) by by_decide.
  destruct (counts_bounded_by_rows twins_data "X" "Y" ["Z1"] [0; 1] [0; 1]
              0 0 [0] Hnd Hnd H0 H0) as (H1 & H2 & H3 & H4 & H5).
  split_and!; [by_computation | by_computation | by_computation | by_computation
              | exact H1 | exact H2 | exact H3 | exact H4 | exact H5].
Defined.

(** On the data of X, Y, Z1 and Z2: [estimate] returns.  On one variable
    it raises networkx's error. *)
Lemma estimator_exceptions_witness :
  (exists pdag,
      ConstraintBasedEstimator_estimate twins_data twins_state_names
        pearson_chisquare given_order no_remove no_paths default_p_value 4
      = Some (Ok pdag))
  /\ ConstraintBasedEstimator_estimate constant_data single_state_names
       pearson_chisquare given_order no_remove no_paths default_p_value 1
     = Some (Raise NetworkXError).
Proof.
  split.
  - assert (Hnd : NoDup (map fst twins_state_names)) by by_decide.
    assert (Hraised : raised (ConstraintBasedEstimator_estimate twins_data
                        twins_state_names pearson_chisquare given_order
                        no_remove no_paths default_p_value 4) = None)
      by by_computation.
    destruct (estimator_exceptions twins_data twins_state_names
                pearson_chisquare given_order no_remove no_paths
                Hnd given_order_perm default_p_value 3) as (_ & Hmany).
    + simpl. lia.
    + destruct Hmany as [Hok | [Hraise | [Hraise _]]].
      * simpl. lia.
      * by_computation.
      * exact Hok.
      * rewrite Hraise in Hraised. discriminate Hraised.
      * rewrite Hraise in Hraised. discriminate Hraised.
  - assert (Hnd : NoDup (map fst single_state_names)) by by_decide.
    destruct (estimator_exceptions constant_data single_state_names
                pearson_chisquare given_order no_remove no_paths
                Hnd given_order_perm default_p_value 0) as (Hone & _).
    + simpl. lia.
    + apply Hone. reflexivity.
Defined.

Close Scope string_scope.
